(** * ShapeDiffFinder (nototools/shape_diff.py): a shallow embedding

    The Python class [ShapeDiffFinder] compares the glyphs of two fonts and
    stores its findings in a [stats] dictionary that the static method
    [dump] later renders as text.  This file embeds the class in Rocq:

    - Python numbers (areas, metrics) are [number]s: an [int] is a [Z], a
      [float] is idealised as an exact rational [Q] (no rounding, no NaN,
      no infinities).  The code is Python 2 ([unichr], list-returning
      [items]), so [/] on two ints is floor division;
    - Python sets and dicts are stdpp's [gset] and [gmap]; iterating over
      them is [elements] / [map_to_list], whose order is fixed but
      unspecified, like Python's;
    - the [stats] dictionary is an object in a heap, referenced by every
      finder created over it;
    - methods run in an exception monad over a world made of that heap and
      of the temporary files. *)

From Stdlib Require Import ZArith QArith Qabs Lia Lqa Ascii.
From stdpp Require Import base option list strings pretty gmap stringmap fin_maps fin_sets sorting.

Local Open Scope Z_scope.

(** ** Python numbers *)

Module Num.

Inductive number : Type :=
| PyInt (z : Z)
| PyFloat (q : Q).

Definition to_Q (n : number) : Q :=
  match n with
  | PyInt z => inject_Z z
  | PyFloat q => q
  end.

(** [a == b], [a < b] on numbers: numeric, also across int and float. *)
Definition eqb (a b : number) : bool := Qeq_bool (to_Q a) (to_Q b).
Definition ltb (a b : number) : bool :=
  match (to_Q a ?= to_Q b)%Q with Lt => true | _ => false end.

Definition zero : number := PyInt 0.
Definition one : number := PyInt 1.

(** Truth value of a number: non-zero. *)
Definition truthy (a : number) : bool := negb (eqb a zero).

(** [a or b] *)
Definition or (a b : number) : number := if truthy a then a else b.

(** [min(a, b)] and [max(a, b)]: the first argument wins ties. *)
Definition min (a b : number) : number := if ltb b a then b else a.
Definition max (a b : number) : number := if ltb a b then b else a.

(** [a - b] *)
Definition sub (a b : number) : number :=
  match a, b with
  | PyInt x, PyInt y => PyInt (x - y)
  | _, _ => PyFloat (to_Q a - to_Q b)
  end.

(** [abs(a)] *)
Definition abs (a : number) : number :=
  match a with
  | PyInt x => PyInt (Z.abs x)
  | PyFloat q => PyFloat (Qabs q)
  end.

(** [a / b] in Python 2: floor division on two ints, true division as
    soon as one operand is a float; [None] is [ZeroDivisionError]. *)
Definition div (a b : number) : option number :=
  match a, b with
  | PyInt x, PyInt y => if (y =? 0)%Z then None else Some (PyInt (x / y))
  | _, _ => if Qeq_bool (to_Q b) 0 then None else Some (PyFloat (to_Q a / to_Q b))
  end.

(** Numeric order as propositions. *)
Definition le (a b : number) : Prop := (to_Q a <= to_Q b)%Q.
Definition lt (a b : number) : Prop := (to_Q a < to_Q b)%Q.
Definition eq (a b : number) : Prop := (to_Q a == to_Q b)%Q.

End Num.

Export Num(number, PyInt, PyFloat).

(** ** The two metrics *)

(** [_calc_diff(self, vals)]: [a, b = vals; return abs(a - b)]. *)
Definition _calc_diff (vals : number * number) : number :=
  let '(a, b) := vals in
  Num.abs (Num.sub a b).

(** [_calc_ratio(self, vals)]:
    [a, b = vals; if not (a or b): return 0; return 1 - min(a, b) / max(a, b)].
    [None] stands for [ZeroDivisionError]. *)
Definition _calc_ratio (vals : number * number) : option number :=
  let '(a, b) := vals in
  if negb (Num.truthy (Num.or a b)) then Some (PyInt 0)
  else
    match Num.div (Num.min a b) (Num.max a b) with
    | None => None
    | Some q => Some (Num.sub Num.one q)
    end.

(** ** Text: the string operations the code relies on *)

Module Text.

Definition newline : ascii := "010"%char.

(** [unichr(0)] *)
Definition nul : string := String "000"%char "".

(** [sep.join(l)] *)
Definition join (sep : string) (l : list string) : string :=
  String.concat sep l.

(** [s.lstrip()], [s.rstrip()], [s.strip()]: Python's whitespace is
    space, tab, newline, vertical tab, form feed and carriage return. *)
Fixpoint lstrip (s : string) : string :=
  match s with
  | "" => ""
  | String c r => if Ascii.is_space c then lstrip r else s
  end.

Fixpoint rstrip (s : string) : string :=
  match s with
  | "" => ""
  | String c r =>
      match rstrip r with
      | "" => if Ascii.is_space c then "" else String c ""
      | r' => String c r'
      end
  end.

Definition strip (s : string) : string := rstrip (lstrip s).

(** [ifile.readlines()] on the whole content of a file: the lines, each
    with its terminating newline, the last one possibly without. *)
Fixpoint readlines (s : string) : list string :=
  match s with
  | "" => []
  | String c r =>
      if decide (c = newline) then String c "" :: readlines r
      else match readlines r with
           | [] => [String c ""]
           | l :: ls => String c l :: ls
           end
  end.

Fixpoint has_newline (s : string) : bool :=
  match s with
  | "" => false
  | String c r => bool_decide (c = newline) || has_newline r
  end.

(** [int(s)] on a string: surrounding whitespace, an optional sign, then
    one or more decimal digits; [None] is [ValueError]. *)
Fixpoint digits_go (acc : Z) (s : string) : option Z :=
  match s with
  | "" => Some acc
  | String c r =>
      match Ascii.is_nat c with
      | Some d => digits_go (10 * acc + Z.of_nat d) r
      | None => None
      end
  end.

Definition digits (s : string) : option Z :=
  match s with
  | "" => None
  | _ => digits_go 0 s
  end.

Definition py_int (s : string) : option Z :=
  match strip s with
  | String "-"%char r => Z.opp <$> digits r
  | String "+"%char r => digits r
  | r => digits r
  end.

(** [os.path.basename(p)]: what follows the last slash. *)
Fixpoint has_slash (p : string) : bool :=
  match p with
  | "" => false
  | String c r => bool_decide (c = "/"%char) || has_slash r
  end.

Fixpoint basename (p : string) : string :=
  match p with
  | "" => ""
  | String _ r => if has_slash p then basename r else p
  end.

(** Hexadecimal digits, upper case, as [%X] prints them. *)
Definition hex_digit (d : N) : ascii :=
  match d with
  | 0 => "0" | 1 => "1" | 2 => "2" | 3 => "3" | 4 => "4" | 5 => "5"
  | 6 => "6" | 7 => "7" | 8 => "8" | 9 => "9" | 10 => "A" | 11 => "B"
  | 12 => "C" | 13 => "D" | 14 => "E" | _ => "F"
  end%N%char.

Fixpoint hex_go (fuel : nat) (n : N) (acc : string) : string :=
  match fuel with
  | O => acc
  | S fuel' =>
      if (n =? 0)%N then acc
      else hex_go fuel' (n / 16)%N (String (hex_digit (n mod 16)%N) acc)
  end.

Definition hex (n : N) : string :=
  if (n =? 0)%N then "0" else hex_go (N.size_nat n) n "".

Fixpoint zeros (k : nat) : string :=
  match k with
  | O => ""
  | S k' => String "0"%char (zeros k')
  end.

(** ['0x%04X' % v] *)
Definition hex4 (v : N) : string :=
  let h := hex v in
  "0x" +:+ zeros (4 - String.length h) +:+ h.

(** [repr(s)] of a byte string, as Python 2 prints the elements of a
    list: single quotes unless the string holds a single quote and no
    double quote; backslash escapes for the quote, the backslash, tab,
    newline and carriage return; [\xhh] for the other bytes outside the
    printable ASCII range. *)
Fixpoint has_char (x : ascii) (s : string) : bool :=
  match s with
  | "" => false
  | String c r => bool_decide (c = x) || has_char x r
  end.

Definition hex_digit_lower (d : N) : ascii :=
  match d with
  | 10 => "a" | 11 => "b" | 12 => "c" | 13 => "d" | 14 => "e" | 15 => "f"
  | _ => hex_digit d
  end%N%char.

Definition backslash : ascii := "092"%char.
Definition double_quote : ascii := "034"%char.
Definition escape (c : ascii) : string := String backslash (String c "").

Definition repr_char (quote c : ascii) : string :=
  if decide (c = quote) then escape c
  else if decide (c = backslash) then escape backslash
  else if decide (c = "009"%char) then escape "t"%char
  else if decide (c = "010"%char) then escape "n"%char
  else if decide (c = "013"%char) then escape "r"%char
  else
    let n := N_of_ascii c in
    if ((n <? 32) || (127 <=? n))%N then
      escape "x"%char +:+ String (hex_digit_lower (n / 16)%N)
                           (String (hex_digit_lower (n mod 16)%N) "")
    else String c "".

Fixpoint repr_body (quote : ascii) (s : string) : string :=
  match s with
  | "" => ""
  | String c r => repr_char quote c +:+ repr_body quote r
  end.

Definition repr_str (s : string) : string :=
  let quote : ascii :=
    if has_char "'"%char s && negb (has_char double_quote s)
    then double_quote else "'"%char in
  String quote (repr_body quote s) +:+ String quote "".

(** [str(l)] for a list of strings. *)
Definition str_list (l : list string) : string :=
  "[" +:+ join ", " (repr_str <$> l) +:+ "]".

(** [fmt % args] where every conversion of [fmt] is [%s] or [%d] and the
    arguments are already converted to text; [None] is the [TypeError]
    raised when the arguments are too few or too many. *)
Fixpoint py_format (fmt : string) (args : list string) : option string :=
  match fmt with
  | "" => match args with [] => Some "" | _ => None end
  | String c rest =>
      if decide (c = "%"%char) then
        match rest with
        | String _ rest' =>
            match args with
            | a :: args' => String.app a <$> py_format rest' args'
            | [] => None
            end
        | "" => None
        end
      else String c <$> py_format rest args
  end.

End Text.

(** ** Data model *)

(** A compared record, stored as the tuple
    [(metric, name, basepath)] by [find_rendered_diffs] and as
    [(metric, name, basepath, area_a, area_b)] by [find_area_diffs]. *)
Record DiffRecord : Type := {
  metric : number;
  glyph : string;
  source : string;
  raw : option (number * number)
}.

(** An [unmatched] entry [(basepath, names_a - names_b, names_b - names_a)]. *)
Definition Unmatched : Type := string * gset string * gset string.

(** A [unicode_mismatch] entry [(basepath, mismatched.items())]. *)
Definition UnicodeMismatch : Type :=
  string * list (string * (option N * option N)).

(** The [stats] dictionary: its four keys. *)
Record Stats : Type := {
  compared : list DiffRecord;
  untested : list string;
  unmatched : list Unmatched;
  unicode_mismatch : list UnicodeMismatch
}.

Definition empty_stats : Stats :=
  {| compared := []; untested := []; unmatched := []; unicode_mismatch := [] |}.

Global Instance Stats_inhabited : Inhabited Stats := populate empty_stats.

(** What the code reads from a parsed font ([TTFont(f)]):
    [f.getGlyphOrder()]; the area that [GlyphAreaPen] has accumulated once
    [f.getGlyphSet()[name]] is drawn into it; and
    [hb_input.build_reverse_cmap(f)], the map from glyph names to code
    points.  Font parsing, the pen and [hb_input] are not part of the
    embedded module. *)
Record Font : Type := {
  glyph_order : list string;
  glyph_area : string -> number;
  font_reverse_cmap : gmap string N
}.

Definition loc : Type := nat.

(** The world the methods act on: the heap of [stats] dictionaries and the
    files of the temporary directory (path to content). *)
Record World : Type := {
  heap : gmap loc Stats;
  files : gmap string string
}.

Definition stats_at (l : loc) (w : World) : Stats := heap w !!! l.

Definition set_stats (l : loc) (s : Stats) (w : World) : World :=
  {| heap := <[l := s]> (heap w); files := files w |}.

Definition set_files (fs : gmap string string) (w : World) : World :=
  {| heap := heap w; files := fs |}.

(** ** Exceptions and the method monad *)

Inductive exn : Type :=
| NameError | AttributeError | AssertionError | ZeroDivisionError
| IndexError | ValueError | TypeError | IOError | OSError
| CalledProcessError.

Inductive result (A : Type) : Type :=
| Ok (a : A) (w : World)
| Raise (e : exn) (w : World).
Arguments Ok {A} a w.
Arguments Raise {A} e w.

Definition M (A : Type) : Type := World -> result A.

Definition ret {A} (a : A) : M A := fun w => Ok a w.
Definition raise {A} (e : exn) : M A := fun w => Raise e w.
Definition bind {A B} (m : M A) (k : A -> M B) : M B :=
  fun w => match m w with
           | Ok a w' => k a w'
           | Raise e w' => Raise e w'
           end.

Notation "'let!' x ':=' m 'in' k" := (bind m (fun x => k))
  (at level 10, x name, m at level 100, k at level 200).
Notation "m ';;' k" := (bind m (fun _ => k))
  (at level 100, k at level 200, right associativity).

(** [for x in l: body(x)] *)
Fixpoint for_each {A} (l : list A) (body : A -> M unit) : M unit :=
  match l with
  | [] => ret tt
  | x :: l' => body x ;; for_each l' body
  end.

(** [stats[key].append(entry)] for each of the four keys. *)
Definition append_compared (l : loc) (r : DiffRecord) : M unit :=
  fun w =>
    let s := stats_at l w in
    Ok tt (set_stats l {| compared := compared s ++ [r];
                          untested := untested s;
                          unmatched := unmatched s;
                          unicode_mismatch := unicode_mismatch s |} w).

Definition append_untested (l : loc) (name : string) : M unit :=
  fun w =>
    let s := stats_at l w in
    Ok tt (set_stats l {| compared := compared s;
                          untested := untested s ++ [name];
                          unmatched := unmatched s;
                          unicode_mismatch := unicode_mismatch s |} w).

Definition append_unmatched (l : loc) (e : Unmatched) : M unit :=
  fun w =>
    let s := stats_at l w in
    Ok tt (set_stats l {| compared := compared s;
                          untested := untested s;
                          unmatched := unmatched s ++ [e];
                          unicode_mismatch := unicode_mismatch s |} w).

Definition append_unicode_mismatch (l : loc) (e : UnicodeMismatch) : M unit :=
  fun w =>
    let s := stats_at l w in
    Ok tt (set_stats l {| compared := compared s;
                          untested := untested s;
                          unmatched := unmatched s;
                          unicode_mismatch := unicode_mismatch s ++ [e] |} w).

(** ** Temporary files *)

(** [tempfile.mkstemp()] followed by [os.close(handle)]: a new, empty file
    under a path that no existing file has. *)
Definition _make_tmp_path : M string :=
  fun w =>
    let path := fresh_string "/tmp/tmp" (files w) in
    Ok path (set_files (<[path := ""]> (files w)) w).

(** [with open(path, 'a') as ofile: ofile.write(text)] *)
Definition append_file (path text : string) : M unit :=
  fun w =>
    Ok tt (set_files (<[path := default "" (files w !! path) +:+ text]> (files w)) w).

(** [with open(path) as ifile: lines = ifile.readlines()] *)
Definition read_lines (path : string) : M (list string) :=
  fun w =>
    match files w !! path with
    | Some content => Ok (Text.readlines content) w
    | None => Raise IOError w
    end.

(** [os.remove(path)] *)
Definition os_remove (path : string) : M unit :=
  fun w =>
    match files w !! path with
    | Some _ => Ok tt (set_files (delete path (files w)) w)
    | None => Raise OSError w
    end.

(** ** ShapeDiffFinder *)

Record Finder : Type := {
  paths : string * string;
  fonts : Font * Font;
  ratio_diffs : bool;
  stats : loc;
  basepath : string;
  names : option (gset string);
  reverse_cmap : option (gmap string N)
}.

Definition set_names (f : Finder) (ns : gset string) : Finder :=
  {| paths := paths f; fonts := fonts f; ratio_diffs := ratio_diffs f;
     stats := stats f; basepath := basepath f;
     names := Some ns; reverse_cmap := reverse_cmap f |}.

Definition set_reverse_cmap (f : Finder) (m : gmap string N) : Finder :=
  {| paths := paths f; fonts := fonts f; ratio_diffs := ratio_diffs f;
     stats := stats f; basepath := basepath f;
     names := names f; reverse_cmap := Some m |}.

(** [ShapeDiffFinder(file_a, file_b, stats, ratio_diffs)].  [font_a] and
    [font_b] are what [TTFont] reads from the two paths; [stats] is the
    reference to the caller's dictionary, whose four keys are bound to new
    empty lists. *)
Definition __init__ (file_a file_b : string) (font_a font_b : Font)
    (stats : loc) (ratio_diffs : bool) : M Finder :=
  fun w =>
    Ok {| paths := (file_a, file_b);
          fonts := (font_a, font_b);
          ratio_diffs := ratio_diffs;
          stats := stats;
          basepath := Text.basename file_a;
          names := None;
          reverse_cmap := None |}
       (set_stats stats empty_stats w).

(** [build_names]: the glyph names shared between the fonts, built once. *)
Definition build_names (f : Finder) : M Finder :=
  match names f with
  | Some _ => ret f
  | None =>
      let names_a : gset string := list_to_set (glyph_order (fonts f).1) in
      let names_b : gset string := list_to_set (glyph_order (fonts f).2) in
      (if decide (names_a ≠ names_b)
       then append_unmatched (stats f)
              (basepath f, names_a ∖ names_b, names_b ∖ names_a)
       else ret tt) ;;
      ret (set_names f (names_a ∩ names_b))
  end.

(** The [mismatched] dictionary of [build_reverse_cmap]. *)
Definition unicode_mismatched (ra rb : gmap string N) (ns : list string)
  : gmap string (option N * option N) :=
  foldl (fun m name =>
           let unival_a := ra !! name in
           let unival_b := rb !! name in
           if decide (unival_a ≠ unival_b)
           then <[name := (unival_a, unival_b)]> m
           else m) ∅ ns.

(** [build_reverse_cmap]: the map from glyph names to code points, built
    once; [self.names] must have been built. *)
Definition build_reverse_cmap (f : Finder) : M Finder :=
  match reverse_cmap f with
  | Some _ => ret f
  | None =>
      let ra := font_reverse_cmap (fonts f).1 in
      let rb := font_reverse_cmap (fonts f).2 in
      match names f with
      | None => raise AttributeError
      | Some ns =>
          let mismatched := unicode_mismatched ra rb (elements ns) in
          (if decide (mismatched ≠ ∅)
           then append_unicode_mismatch (stats f)
                  (basepath f, map_to_list mismatched)
           else ret tt) ;;
          ret (set_reverse_cmap f
                 (filter (fun nv => nv.1 ∈ ns ∧ mismatched !! nv.1 = None) ra))
      end
  end.

(** The [mismatched] dictionary of [find_area_diffs]: the shared glyphs
    whose two areas differ, with both areas. *)
Definition area_mismatched (font_a font_b : Font) (ns : list string)
  : gmap string (number * number) :=
  foldl (fun m name =>
           let area_a := glyph_area font_a name in
           let area_b := glyph_area font_b name in
           if negb (Num.eqb area_a area_b)
           then <[name := (area_a, area_b)]> m
           else m) ∅ ns.

(** [self._calc_ratio if self.ratio_diffs else self._calc_diff] *)
Definition calc_of (f : Finder) (areas : number * number) : option number :=
  if ratio_diffs f then _calc_ratio areas else Some (_calc_diff areas).

(** The body of the last loop of [find_area_diffs]:
    [stats.append((calc(areas), name, self.basepath, area[0], area[1]))].
    The elements of the tuple are evaluated from the left: [calc(areas)]
    first, which may divide by zero, then [name] and [self.basepath], then
    [area[0]].  The loop variable is [areas]; no local of the method and no
    global of the module is called [area], so evaluating [area[0]] raises
    [NameError] and the append is never reached. *)
Definition append_area_record (f : Finder)
    (item : string * (number * number)) : M unit :=
  let '(name, areas) := item in
  match calc_of f areas with
  | None => raise ZeroDivisionError
  | Some _ => raise NameError
  end.

(** [find_area_diffs]: report differences in glyph areas. *)
Definition find_area_diffs (f : Finder) : M Finder :=
  let! f := build_names f in
  match names f with
  | None => raise AttributeError
  | Some ns =>
      let mismatched :=
        area_mismatched (fonts f).1 (fonts f).2 (elements ns) in
      for_each (map_to_list mismatched) (append_area_record f) ;;
      ret f
  end.

(** ** The rendered-diff pipeline *)

(** The external collaborators of [find_rendered_diffs], as functions of
    the glyph being processed:
    - [input_from_name path cmap name] is
      [hb_input.HbInputGenerator(path, cmap).input_from_name(name)], a pair
      [(features, text)] or nothing;
    - [identify name png] is
      [subprocess.check_output(['identify', png]).split()] in the iteration
      for [name]; [None] when the tool exits with a non-zero status
      ([CalledProcessError]);
    - [compare_stderr name] is what [compare -metric AE] writes on its
      standard error in the iteration for [name].
    The [hb-view] and [convert] invocations write into files the pipeline
    has already created (or into [render_path]); their exit status is not
    looked at and the images they write are not modelled. *)
Record Tools : Type := {
  input_from_name : string -> gmap string N -> string -> option (list string * string);
  identify : string -> string -> option (list string);
  compare_stderr : string -> string
}.

(** [l[i]] on a list; out of range is [IndexError]. *)
Definition index {A} (l : list A) (i : nat) : M A :=
  match l !! i with
  | Some x => ret x
  | None => raise IndexError
  end.

(** [assert b] *)
Definition assert (b : bool) : M unit :=
  if b then ret tt else raise AssertionError.

(** The body of the per-glyph loop. *)
Definition render_glyph (T : Tools) (f : Finder) (cmap : gmap string N)
    (a_png b_png cmp_png diffs_filename : string) (name : string) : M unit :=
  let hb_args := input_from_name T (paths f).1 cmap name in
  let hb_args_b := input_from_name T (paths f).2 cmap name in
  assert (bool_decide (hb_args = hb_args_b)) ;;
  match hb_args with
  | None =>
      (* ignore unreachable characters *)
      append_untested (stats f) name
  | Some (features, text) =>
      (* ignore null character *)
      if decide (text = Text.nul) then ret tt
      else
        append_file diffs_filename (name +:+ String Text.newline "") ;;
        (* hb-view renders the text with each font into a_png and b_png *)
        match identify T name a_png with
        | None => raise CalledProcessError
        | Some img_info =>
            let! info0 := index img_info 0 in
            (if bool_decide (info0 = a_png)
             then let! info1 := index img_info 1 in
                  assert (bool_decide (info1 = "PNG"))
             else assert false) ;;
            let! extent := index img_info 2 in
            (* convert pads b_png to [extent]; with a render_path, convert
               also writes the composite image there *)
            append_file diffs_filename (compare_stderr T name)
        end
  end.

(** [[(lines[i].strip(), lines[i + 1].strip())
      for i in range(0, len(lines), 2)]]; [None] is the [IndexError] of an
    odd number of lines. *)
Fixpoint pair_lines (lines : list string) : option (list (string * string)) :=
  match lines with
  | [] => Some []
  | [_] => None
  | name :: diff :: rest =>
      cons (Text.strip name, Text.strip diff) <$> pair_lines rest
  end.

(** [for name, diff in diffs: if int(diff) != 0: mismatched[name] = int(diff)];
    [None] is the [ValueError] of [int]. *)
Fixpoint rendered_mismatched (diffs : list (string * string))
    (m : gmap string Z) : option (gmap string Z) :=
  match diffs with
  | [] => Some m
  | (name, diff) :: rest =>
      match Text.py_int diff with
      | None => None
      | Some d =>
          rendered_mismatched rest (if decide (d ≠ 0) then <[name := d]> m else m)
      end
  end.

Definition rendered_record (f : Finder) (item : string * Z) : DiffRecord :=
  {| metric := PyInt item.2; glyph := item.1; source := basepath f;
     raw := None |}.

(** [find_rendered_diffs]: find diffs of glyphs as rendered by harfbuzz and
    image magick.  [font_size] and [render_path] only reach the external
    tools. *)
Definition find_rendered_diffs (T : Tools) (f : Finder)
    (font_size : Z) (render_path : option string) : M Finder :=
  let! f := build_names f in
  let! f := build_reverse_cmap f in
  match names f, reverse_cmap f with
  | Some ns, Some cmap =>
      let ordered_names := elements ns in
      let! a_png := _make_tmp_path in
      let! b_png := _make_tmp_path in
      let! cmp_png := _make_tmp_path in
      let! diffs_filename := _make_tmp_path in
      for_each ordered_names
        (render_glyph T f cmap a_png b_png cmp_png diffs_filename) ;;
      let! lines := read_lines diffs_filename in
      let! diffs :=
        match pair_lines lines with
        | Some diffs => ret diffs
        | None => raise IndexError
        end in
      os_remove a_png ;;
      os_remove b_png ;;
      os_remove cmp_png ;;
      os_remove diffs_filename ;;
      let! mismatched :=
        match rendered_mismatched diffs ∅ with
        | Some m => ret m
        | None => raise ValueError
        end in
      for_each (map_to_list mismatched)
        (fun item => append_compared (stats f) (rendered_record f item)) ;;
      ret f
  | _, _ => raise AttributeError
  end.

(** ** The report *)

(** [sorted(l)]: Python's sort is stable; [lt x y] is [x < y]. *)
Fixpoint insert_sorted {A} (lt : A -> A -> bool) (x : A) (l : list A) : list A :=
  match l with
  | [] => [x]
  | y :: l' => if lt y x then y :: insert_sorted lt x l' else x :: l
  end.

Definition sorted {A} (lt : A -> A -> bool) (l : list A) : list A :=
  foldr (insert_sorted lt) [] l.

(** Lexicographic combination of comparisons, as on tuples. *)
Definition lex (c1 c2 : comparison) : comparison :=
  match c1 with
  | Eq => c2
  | _ => c1
  end.

Definition number_compare (a b : number) : comparison :=
  (Num.to_Q a ?= Num.to_Q b)%Q.

(** [None] is smaller than every number. *)
Definition option_compare {A} (cmp : A -> A -> comparison)
    (a b : option A) : comparison :=
  match a, b with
  | None, None => Eq
  | None, Some _ => Lt
  | Some _, None => Gt
  | Some x, Some y => cmp x y
  end.

Definition pair_compare {A B} (cmpA : A -> A -> comparison)
    (cmpB : B -> B -> comparison) (x y : A * B) : comparison :=
  lex (cmpA x.1 y.1) (cmpB x.2 y.2).

(** Comparison of two compared records as tuples: a 3-tuple that is a
    prefix of a 5-tuple is the smaller one. *)
Definition record_compare (r1 r2 : DiffRecord) : comparison :=
  lex (number_compare (metric r1) (metric r2))
    (lex (String.compare (glyph r1) (glyph r2))
       (lex (String.compare (source r1) (source r2))
          (option_compare (pair_compare number_compare number_compare)
             (raw r1) (raw r2)))).

Definition is_lt (c : comparison) : bool :=
  match c with
  | Lt => true
  | _ => false
  end.

Definition record_lt (r1 r2 : DiffRecord) : bool := is_lt (record_compare r1 r2).
Definition string_lt (s1 s2 : string) : bool := is_lt (String.compare s1 s2).

Definition mismatch_lt (x y : string * (option N * option N)) : bool :=
  is_lt (pair_compare String.compare
           (pair_compare (option_compare N.compare) (option_compare N.compare))
           x y).

(** The elements of a tuple. *)
Inductive value : Type :=
| VNum (n : number)
| VStr (s : string).

Definition to_tuple (r : DiffRecord) : list value :=
  [VNum (metric r); VStr (glyph r); VStr (source r)]
  ++ match raw r with
     | Some (a, b) => [VNum a; VNum b]
     | None => []
     end.

(** [l[:n]] *)
Definition slice_to {A} (n : Z) (l : list A) : list A :=
  if (0 <=? n)%Z then take (Z.to_nat n) l
  else take (length l - Z.to_nat (- n))%nat l.

(** [('0x%04X' % v) if v else str(v)] *)
Definition str_unival (v : option N) : string :=
  match v with
  | None => "None"
  | Some n => if (n =? 0)%N then "0" else Text.hex4 n
  end.

Section Dump.

(** [str(x)] of a float is left to the caller: the rationals that stand
    for floats have no rounding to print. *)
Variable str_float : Q -> string.

Definition str_number (n : number) : string :=
  match n with
  | PyInt z => pretty z
  | PyFloat q => str_float q
  end.

Definition str_value (v : value) : string :=
  match v with
  | VNum n => str_number n
  | VStr s => s
  end.

Definition row_format (include_vals multiple_fonts : bool) : string :=
  let fmt := "%s %s" in
  let fmt := if include_vals then fmt +:+ " (%s vs %s)" else fmt in
  if multiple_fonts then "%s " +:+ fmt else fmt.

(** One iteration of [for line in compared[:out_lines]]; [None] is the
    [TypeError] of [fmt % line]. *)
Definition dump_row (include_vals multiple_fonts : bool)
    (r : DiffRecord) : option string :=
  let line := to_tuple r in
  (* print <font> <glyph> <vals>; stats are sorted in reverse priority *)
  let line := reverse (take 3 line) ++ drop 3 line in
  (* ignore font name if just one pair of fonts was compared *)
  let line := if negb multiple_fonts then drop 1 line else line in
  Text.py_format (row_format include_vals multiple_fonts) (str_value <$> line).

Definition dump_compared (stats : Stats) (whitelist : list string)
  : list DiffRecord :=
  reverse (sorted record_lt
             (filter (fun s => glyph s ∉ whitelist) (compared stats))).

Definition untested_lines (stats : Stats) : list string :=
  (fun name => "not tested (unreachable?): " +:+ name)
    <$> sorted string_lt (untested stats).

Definition unmatched_lines (stats : Stats) : list string :=
  mjoin ((fun e : Unmatched =>
            let '(font, set_a, set_b) := e in
            [ "Glyph coverage doesn't match in " +:+ font;
              "  in A but not B: " +:+ Text.str_list (sorted string_lt (elements set_a));
              "  in B but not A: " +:+ Text.str_list (sorted string_lt (elements set_b)) ])
         <$> unmatched stats).

Definition unicode_lines (stats : Stats) : list string :=
  mjoin ((fun e : UnicodeMismatch =>
            let '(font, mismatches) := e in
            ("Glyph unicode values don't match in " +:+ font)
            :: ((fun x : string * (option N * option N) =>
                   "  " +:+ x.1 +:+ ": " +:+ str_unival x.2.1 +:+ " in A, "
                   +:+ str_unival x.2.2 +:+ " in B")
                <$> sorted mismatch_lt mismatches))
         <$> unicode_mismatch stats).

(** The sections that follow the diff rows, each closed by an empty
    line. *)
Definition dump_tail (stats : Stats) : list string :=
  untested_lines stats ++ [""] ++ unmatched_lines stats ++ [""]
  ++ unicode_lines stats ++ [""].

Definition dump_header (compared : list DiffRecord) : string :=
  pretty (length compared) +:+ " differences in glyph shape".

(** [ShapeDiffFinder.dump(stats, whitelist, out_lines, include_vals,
    multiple_fonts)]: the report lines, and their join. *)
Definition dump_report (stats : Stats) (whitelist : list string)
    (out_lines : Z) (include_vals multiple_fonts : bool)
  : option (list string) :=
  let compared := dump_compared stats whitelist in
  rows ← mapM (dump_row include_vals multiple_fonts)
             (slice_to out_lines compared);
  Some ([dump_header compared] ++ rows ++ [""] ++ dump_tail stats).

Definition dump (stats : Stats) (whitelist : list string)
    (out_lines : Z) (include_vals multiple_fonts : bool) : option string :=
  Text.join (String Text.newline "")
    <$> dump_report stats whitelist out_lines include_vals multiple_fonts.

End Dump.

(** * create_image.py: sample images from text

    The second module of the repository draws a text with pango and cairo
    and writes it as a PNG or an SVG.  The drawing itself is done by those
    libraries; what is embedded here is what the module decides: the layout
    settings it passes, the height of the surface, the choice of the writer
    from the file extension, the weight and style tables, and the file
    name it generates. *)

Module CreateImage.

(** The constants of the [pango] module that the code uses for weights,
    styles and scaling; they are parameters of the embedding. *)
Record Pango : Type := {
  WEIGHT_ULTRALIGHT : Z;
  WEIGHT_LIGHT : Z;
  WEIGHT_NORMAL : Z;
  WEIGHT_BOLD : Z;
  WEIGHT_ULTRABOLD : Z;
  WEIGHT_HEAVY : Z;
  STYLE_NORMAL : Z;
  STYLE_OBLIQUE : Z;
  STYLE_ITALIC : Z;
  SCALE : Z
}.

(** The values that pango gives to these constants, for the examples. *)
Definition pango_values : Pango :=
  {| WEIGHT_ULTRALIGHT := 200; WEIGHT_LIGHT := 300; WEIGHT_NORMAL := 400;
     WEIGHT_BOLD := 700; WEIGHT_ULTRABOLD := 800; WEIGHT_HEAVY := 900;
     STYLE_NORMAL := 0; STYLE_OBLIQUE := 1; STYLE_ITALIC := 2;
     SCALE := 1024 |}.

Inductive direction : Type :=
| DIRECTION_LTR | DIRECTION_RTL | DIRECTION_TTB_LTR | DIRECTION_TTB_RTL.

Inductive alignment : Type :=
| ALIGN_LEFT | ALIGN_RIGHT.

(** [class DrawParams] *)
Record DrawParams : Type := {
  family : string;
  language : option string;
  rtl : bool;
  vertical : bool;
  width : Z;
  font_size : Z;
  line_spacing : Z;
  weight : Z;
  style : Z
}.

(** [DrawParams(family=..., weight=..., style=..., language=...,
    font_size=...)], the other parameters at their defaults. *)
Definition draw_params (family : string) (weight style : Z)
    (language : option string) (font_size : Z) : DrawParams :=
  {| family := family; language := language; rtl := false; vertical := false;
     width := 1370; font_size := font_size; line_spacing := 50;
     weight := weight; style := style |}.

(** What [draw_on_surface] sets on the pango layout before it asks for the
    extents of the text. *)
Record Layout : Type := {
  layout_language : option string;
  layout_base_dir : direction;
  layout_alignment : alignment;
  layout_width : Z;
  layout_spacing : Z;
  layout_family : string;
  layout_size : Z;
  layout_style : Z;
  layout_weight : Z
}.

(** A rectangle [(x, y, width, height)]. *)
Definition rect : Type := Z * Z * Z * Z.
Definition rect_y (r : rect) : Z := r.1.1.2.
Definition rect_height (r : rect) : Z := r.2.

(** A text is the list of its characters, each given by [ord]. *)
Definition text : Type := list N.

(** The errors of this module: the [ValueError]s it raises with their
    message (the interpreter's own messages are left empty), [TypeError],
    and a mark for what lies outside the embedded part of [%]. *)
Inductive error : Type :=
| PyValueError (msg : string)
| PyTypeError
| Unmodelled.

(** What a function writes and prints, in order. *)
Inductive event : Type :=
| Print (line : string)
| SvgSurface (path : string) (width height : Z)
| PngWritten (path : string) (width height : Z).

(** ** The [%] operator on the formats of this module *)

Inductive format_arg : Type :=
| FStr (s : string)
| FInt (z : Z).

Inductive formatted : Type :=
| Formatted (s : string)
| FormatError (e : error).

Definition is_flag (c : ascii) : bool :=
  bool_decide (c = "#"%char) || bool_decide (c = "0"%char)
  || bool_decide (c = "-"%char) || bool_decide (c = " "%char)
  || bool_decide (c = "+"%char).

(** The conversion types that Python accepts besides [s], [d], [x] and
    [%]; applying them is not embedded. *)
Definition is_other_conversion (c : ascii) : bool :=
  bool_decide (c ∈ ["i"; "o"; "u"; "X"; "e"; "E"; "f"; "F"; "g"; "G"; "c"; "r"]%char).

Fixpoint hex_lower_go (fuel : nat) (n : N) (acc : string) : string :=
  match fuel with
  | O => acc
  | S fuel' =>
      if (n =? 0)%N then acc
      else hex_lower_go fuel' (n / 16)%N
             (String (Text.hex_digit_lower (n mod 16)%N) acc)
  end.

(** ['%x' % n] for a natural number. *)
Definition hex_lower (n : N) : string :=
  if (n =? 0)%N then "0" else hex_lower_go (N.size_nat n) n "".

Definition map_formatted (f : string -> string) (r : formatted) : formatted :=
  match r with
  | Formatted s => Formatted (f s)
  | FormatError e => FormatError e
  end.

(** [fmt % args]: after a [%], the flags are read, then the conversion
    type.  [%%] takes no argument; for any other type the next argument is
    taken first ([TypeError] when there is none) and the type is looked at
    next ([ValueError] for a character that is not a conversion type);
    arguments left at the end are a [TypeError].  Widths and precisions do
    not occur in this module.  [percent_spec flags_seen] reads what
    follows a [%]. *)
Fixpoint percent (fmt : string) (args : list format_arg) : formatted :=
  match fmt with
  | "" => match args with
          | [] => Formatted ""
          | _ => FormatError PyTypeError
          end
  | String c rest =>
      if decide (c = "%"%char) then percent_spec false rest args
      else map_formatted (String c) (percent rest args)
  end
with percent_spec (flags : bool) (fmt : string) (args : list format_arg)
  : formatted :=
  match fmt with
  | "" => FormatError (PyValueError "")
  | String c rest =>
      if is_flag c then percent_spec true rest args
      else if decide (c = "%"%char) then
        map_formatted (String "%"%char) (percent rest args)
      else
        match args with
        | [] => FormatError PyTypeError
        | a :: args' =>
            if decide (c = "s"%char) then
              match a with
              | FStr s => map_formatted (String.app s) (percent rest args')
              | FInt z => map_formatted (String.app (pretty z)) (percent rest args')
              end
            else if decide (c = "d"%char) then
              match a with
              | FStr _ => FormatError PyTypeError
              | FInt z =>
                  if flags then FormatError Unmodelled
                  else map_formatted (String.app (pretty z)) (percent rest args')
              end
            else if decide (c = "x"%char) then
              match a with
              | FStr _ => FormatError PyTypeError
              | FInt z =>
                  if flags || (z <? 0)%Z then FormatError Unmodelled
                  else map_formatted (String.app (hex_lower (Z.to_N z)))
                         (percent rest args')
              end
            else if is_other_conversion c then FormatError Unmodelled
            else FormatError (PyValueError "")
        end
  end.

(** ** Paths *)

(** [s.rfind(c)] on the characters of [s]: the last position of [c]. *)
Fixpoint rfind (c : ascii) (l : list ascii) : option nat :=
  match l with
  | [] => None
  | x :: l' =>
      match rfind c l' with
      | Some i => Some (S i)
      | None => if decide (x = c) then Some O else None
      end
  end.

Definition chars (s : string) : list ascii := String.list_ascii_of_string s.
Definition of_chars (l : list ascii) : string := String.string_of_list_ascii l.

(** [os.path.splitext(p)]: the extension starts at the last dot of the
    last component, unless only dots come before it in that component. *)
Definition splitext (p : string) : string * string :=
  let l := chars p in
  let filename_index :=
    match rfind "/"%char l with
    | Some sep_index => S sep_index
    | None => O
    end in
  match rfind "."%char l with
  | Some dot_index =>
      if decide (filename_index ≤ dot_index)%nat then
        if existsb (fun c => negb (bool_decide (c = "."%char)))
             (take (dot_index - filename_index) (drop filename_index l))
        then (of_chars (take dot_index l), of_chars (drop dot_index l))
        else (p, "")
      else (p, "")
  | None => (p, "")
  end.

(** [s.lower()] on a byte string. *)
Definition lower_char (c : ascii) : ascii :=
  let n := N_of_ascii c in
  if ((65 <=? n) && (n <=? 90))%N then ascii_of_N (n + 32) else c.

Fixpoint lower (s : string) : string :=
  match s with
  | "" => ""
  | String c r => String (lower_char c) (lower r)
  end.

(** [s.replace(' ', '')] *)
Fixpoint remove_spaces (s : string) : string :=
  match s with
  | "" => ""
  | String c r => if decide (c = " "%char) then remove_spaces r
                  else String c (remove_spaces r)
  end.

Section Drawing.

Variable P : Pango.

(** [layout.get_pixel_extents()]: the ink and logical rectangles that pango
    computes for the text under the settings of the layout. *)
Variable pixel_extents : Layout -> text -> rect * rect.

(** [draw_on_surface(surface, text, params)]: the layout that is set up
    and drawn, the vertical translation applied before drawing, and the
    height that is returned. *)
Definition draw_layout (params : DrawParams) : Layout :=
  let base_dir :=
    if rtl params then
      if vertical params then DIRECTION_TTB_RTL else DIRECTION_RTL
    else
      if vertical params then DIRECTION_TTB_LTR else DIRECTION_LTR in
  let alignment := if rtl params then ALIGN_RIGHT else ALIGN_LEFT in
  {| layout_language := language params;
     layout_base_dir := base_dir;
     layout_alignment := alignment;
     layout_width := width params * SCALE P;
     layout_spacing := (line_spacing params - font_size params) * SCALE P;
     layout_family := family params;
     layout_size := font_size params * SCALE P;
     layout_style := style params;
     layout_weight := weight params |}.

Definition top_usage (extents : rect * rect) : Z :=
  Z.min (Z.min (rect_y extents.1) (rect_y extents.2)) 0.

Definition bottom_usage (extents : rect * rect) : Z :=
  Z.max (rect_height extents.1) (rect_height extents.2).

Definition draw_on_surface (t : text) (params : DrawParams) : Z :=
  let extents := pixel_extents (draw_layout params) t in
  bottom_usage extents - top_usage extents.

(** [create_svg(text, output_path, **kwargs)] *)
Definition create_svg (t : text) (output_path : string)
    (params : DrawParams) : list event :=
  let calculated_height := draw_on_surface t params in
  [SvgSurface output_path (width params) calculated_height;
   Print ("writing " +:+ output_path)].

(** [create_png(text, output_path, **kwargs)] *)
Definition create_png (t : text) (output_path : string)
    (params : DrawParams) : list event :=
  let calculated_height := draw_on_surface t params in
  [Print ("writing " +:+ output_path);
   PngWritten output_path (width params) calculated_height].

(** [create_img(text, output_path, **kwargs)]: the events, and the error
    if one is raised. *)
Definition create_img (t : text) (output_path : string)
    (params : DrawParams) : list event * option error :=
  let ext := lower (splitext output_path).2 in
  if decide (ext = ".png") then (create_png t output_path params, None)
  else if decide (ext = ".svg") then (create_svg t output_path params, None)
  else
    match percent "extension % not supported" [FStr ext] with
    | Formatted line => ([Print line], None)
    | FormatError e => ([], Some e)
    end.

(** [_weight_map] and [_italic_map] *)
Definition _weight_map : gmap string Z :=
  {[ "ultralight" := WEIGHT_ULTRALIGHT P;
     "light" := WEIGHT_LIGHT P;
     "normal" := WEIGHT_NORMAL P;
     "bold" := WEIGHT_BOLD P;
     "ultrabold" := WEIGHT_ULTRABOLD P;
     "heavy" := WEIGHT_HEAVY P ]}.

Definition _italic_map : gmap string Z :=
  {[ "italic" := STYLE_ITALIC P;
     "oblique" := STYLE_OBLIQUE P;
     "normal" := STYLE_NORMAL P ]}.

(** [', '.join(sorted(m.keys()))] *)
Definition accepted_values (m : gmap string Z) : string :=
  Text.join ", " (sorted string_lt (map_to_list m).*1).

(** The truth value of a name that may be [None]. *)
Definition given (name : option string) : option string :=
  match name with
  | Some "" => None
  | _ => name
  end.

(** [_get_weight(weight_name)] *)
Definition _get_weight (weight_name : option string) : error + Z :=
  match given weight_name with
  | None => inr (WEIGHT_NORMAL P)
  | Some name =>
      match _weight_map !! name with
      | Some weight =>
          if decide (weight ≠ 0) then inr weight
          else inl (PyValueError
                      ("could not recognize weight '" +:+ name +:+ "'"
                       +:+ String Text.newline
                             ("accepted values are " +:+ accepted_values _weight_map)))
      | None =>
          inl (PyValueError
                 ("could not recognize weight '" +:+ name +:+ "'"
                  +:+ String Text.newline
                        ("accepted values are " +:+ accepted_values _weight_map)))
      end
  end.

(** [_get_style(style_name)] *)
Definition _get_style (style_name : option string) : error + Z :=
  match given style_name with
  | None => inr (STYLE_NORMAL P)
  | Some name =>
      match _italic_map !! name with
      | Some style =>
          if decide (style ≠ 0) then inr style
          else inl (PyValueError
                      ("could not recognize style '" +:+ name +:+ "'"
                       +:+ String Text.newline
                             ("accepted values are " +:+ accepted_values _italic_map)))
      | None =>
          inl (PyValueError
                 ("could not recognize style '" +:+ name +:+ "'"
                  +:+ String Text.newline
                        ("accepted values are " +:+ accepted_values _italic_map)))
      end
  end.

(** The file name that [render_text] generates when it is given none. *)
Definition generated_name (t : text) (font : string)
    (weight_name style_name : option string) (font_size : Z)
    (lang : option string) (ext : string) : string :=
  let name_strs :=
    [remove_spaces font]
    ++ (hex_lower <$> t)
    ++ option_list (given weight_name)
    ++ option_list (given style_name)
    ++ [pretty font_size]
    ++ option_list (given lang) in
  Text.join "_" name_strs +:+ "." +:+ ext.

(** [render_text(file_name, text, font_name, weight_name, style_name,
    font_size, lang, ext)] *)
Definition render_text (file_name : option string) (t : text)
    (font_name weight_name style_name : option string)
    (font_size : option Z) (lang : option string) (ext : string)
  : list event * option error :=
  let font := default "Noto Sans" (given font_name) in
  let font_size :=
    match font_size with
    | Some z => if decide (z ≠ 0) then z else 32
    | None => 32
    end in
  let file_name :=
    match given file_name with
    | Some name => name
    | None => generated_name t font weight_name style_name font_size lang ext
    end in
  match _get_weight weight_name with
  | inl e => ([], Some e)
  | inr weight =>
      match _get_style style_name with
      | inl e => ([], Some e)
      | inr style =>
          match create_img t file_name
                  (draw_params font weight style lang font_size) with
          | (events, Some e) => (events, Some e)
          | (events, None) => (events ++ [Print ("generated " +:+ file_name)], None)
          end
      end
  end.

End Drawing.

(** The images among the events: path, width and height. *)
Definition image_of (e : event) : option (string * Z * Z) :=
  match e with
  | Print _ => None
  | SvgSurface p w h | PngWritten p w h => Some (p, w, h)
  end.

Definition images (events : list event) : list (string * Z * Z) :=
  omap image_of events.

(** The lines printed among the events. *)
Definition line_of (e : event) : option string :=
  match e with
  | Print line => Some line
  | _ => None
  end.

Definition printed (events : list event) : list string :=
  omap line_of events.

(** The six weights of the table are all different from zero. *)
Definition weights_nonzero (P : Pango) : Prop :=
  WEIGHT_ULTRALIGHT P <> 0 /\ WEIGHT_LIGHT P <> 0 /\ WEIGHT_NORMAL P <> 0 /\
  WEIGHT_BOLD P <> 0 /\ WEIGHT_ULTRABOLD P <> 0 /\ WEIGHT_HEAVY P <> 0.

(** A character that is neither a dot nor a slash. *)
Definition plain (c : ascii) : Prop := c <> "."%char /\ c <> "/"%char.

(** An example of extents: an ink rectangle that starts three pixels above
    the origin. *)
Definition example_extents (_ : Layout) (_ : text) : rect * rect :=
  ((1, -3, 40, 37), (0, 0, 42, 44)).

End CreateImage.

(** ** Specification vocabulary *)

(** Every log of [s'] starts with the corresponding log of [s]. *)
Definition logs_extend (s s' : Stats) : Prop :=
  compared s `prefix_of` compared s'
  ∧ untested s `prefix_of` untested s'
  ∧ unmatched s `prefix_of` unmatched s'
  ∧ unicode_mismatch s `prefix_of` unicode_mismatch s'.

(** From the world [w0] to [w], the dictionary at [l] has only grown and
    the other dictionaries are as they were. *)
Definition grown (l : loc) (w0 w : World) : Prop :=
  logs_extend (stats_at l w0) (stats_at l w)
  ∧ ∀ l', l' ≠ l → stats_at l' w = stats_at l' w0.

(** Hoare triples for methods: from a world satisfying [P], the method
    either returns in a world satisfying [Q] or raises in one satisfying
    [E]. *)
Definition hoare {A} (P : World -> Prop) (m : M A)
    (Q : A -> World -> Prop) (E : exn -> World -> Prop) : Prop :=
  ∀ w, P w → match m w with
             | Ok a w' => Q a w'
             | Raise e w' => E e w'
             end.

(** The glyph-name sets of the two fonts of a finder. *)
Definition names_a (f : Finder) : gset string := list_to_set (glyph_order (fonts f).1).
Definition names_b (f : Finder) : gset string := list_to_set (glyph_order (fonts f).2).

(** [x] occurs in [text], and the first occurrence of [x] in [text] comes
    before the first occurrence of [y]. *)
Definition occurs (x text : string) : Prop :=
  is_Some (String.index 0 x text).

Definition precedes (x y text : string) : Prop :=
  ∃ i j, String.index 0 x text = Some i ∧ String.index 0 y text = Some j
         ∧ (i < j)%nat.

(** ** Example data *)

Definition empty_world : World := {| heap := ∅; files := ∅ |}.

(** Fonts A and B share the glyphs [a], [b], [c]; A has the extra glyph
    [d]; the areas are [a: 100/100], [b: 50/60], [c: 0/0]. *)
Fixpoint area_of (table : list (string * number)) (name : string) : number :=
  match table with
  | [] => PyInt 0
  | (n, area) :: table' => if decide (n = name) then area else area_of table' name
  end.

Definition scenario_font_a : Font :=
  {| glyph_order := ["a"; "b"; "c"; "d"];
     glyph_area := area_of [("a", PyInt 100); ("b", PyInt 50); ("c", PyInt 0)];
     font_reverse_cmap := {[ "a" := 97%N; "b" := 98%N ]} |}.

Definition scenario_font_b : Font :=
  {| glyph_order := ["a"; "b"; "c"];
     glyph_area := area_of [("a", PyInt 100); ("b", PyInt 60); ("c", PyInt 0)];
     font_reverse_cmap := {[ "a" := 97%N; "b" := 66%N ]} |}.

Definition scenario_area_run (ratio : bool) : result Finder :=
  (let! f := __init__ "fonts/A.ttf" "fonts/B.ttf"
               scenario_font_a scenario_font_b 0%nat ratio in
   find_area_diffs f) empty_world.


(** A font whose only glyph, [x], has no code point. *)
Definition unmapped_font : Font :=
  {| glyph_order := ["x"];
     glyph_area := fun _ => PyInt 0;
     font_reverse_cmap := ∅ |}.

(** A first session over the stats dictionary at [0], on the scenario
    fonts, then a second session over the same dictionary, on font B
    against itself. *)
Definition first_session : M Finder :=
  let! f := __init__ "fonts/A.ttf" "fonts/B.ttf"
              scenario_font_a scenario_font_b 0%nat false in
  build_names f.

Definition second_session : M Finder :=
  let! f := __init__ "fonts/B.ttf" "fonts/B.ttf"
              scenario_font_b scenario_font_b 0%nat false in
  build_names f.


(** The text of a diff row, field by field: the font-source label (only
    with [multiple_fonts]), the glyph name, the metric and, with
    [include_vals], the two raw values. *)
Definition row_text (str_float : Q -> string)
    (include_vals multiple_fonts : bool) (r : DiffRecord) : string :=
  let vals :=
    if include_vals then
      match raw r with
      | Some (a, b) =>
          " (" +:+ str_number str_float a +:+ " vs "
          +:+ str_number str_float b +:+ ")"
      | None => ""
      end
    else "" in
  let row := glyph r +:+ " " +:+ str_number str_float (metric r) +:+ vals in
  if multiple_fonts then source r +:+ " " +:+ row else row.

(** Stats of a session that compared areas, left one glyph untested and
    found one glyph missing from font B. *)
Definition example_stats : Stats :=
  {| compared :=
       [ {| metric := PyInt 10; glyph := "b"; source := "A.ttf";
            raw := Some (PyInt 50, PyInt 60) |};
         {| metric := PyInt 30; glyph := "x"; source := "A.ttf";
            raw := Some (PyInt 50, PyInt 80) |};
         {| metric := PyInt 20; glyph := "uni0041"; source := "A.ttf";
            raw := Some (PyInt 50, PyInt 70) |} ];
     untested := ["uni0042"];
     unmatched := [("A.ttf", {["d"]}, ∅)];
     unicode_mismatch := [("A.ttf", [("b", (Some 98%N, Some 66%N))])] |}.

Definition example_str_float (q : Q) : string := "0.0".


(** The world in which a run ends, whether it returns or raises. *)
Definition final_world {A} (r : result A) : World :=
  match r with
  | Ok _ w => w
  | Raise _ w => w
  end.

(** The four temporary paths that a run of [find_rendered_diffs] started
    with the files [fs] creates, and the files once they are created. *)
Definition tmp_a (fs : gmap string string) : string := fresh_string "/tmp/tmp" fs.
Definition tmp_b (fs : gmap string string) : string :=
  fresh_string "/tmp/tmp" (<[tmp_a fs := ""]> fs).
Definition tmp_c (fs : gmap string string) : string :=
  fresh_string "/tmp/tmp" (<[tmp_b fs := ""]> (<[tmp_a fs := ""]> fs)).
Definition tmp_images (fs : gmap string string) : gmap string string :=
  <[tmp_c fs := ""]> (<[tmp_b fs := ""]> (<[tmp_a fs := ""]> fs)).
Definition tmp_d (fs : gmap string string) : string :=
  fresh_string "/tmp/tmp" (tmp_images fs).

(** The files while the pipeline runs: the three images and the diff log,
    whatever it holds, on top of the files found at the start. *)
Definition tmp_files_present (fs0 fs : gmap string string) : Prop :=
  ∃ content, fs = <[tmp_d fs0 := content]> (tmp_images fs0).


(** The invariant used throughout: the dictionary at [l] has grown since
    [w0], and the files satisfy [F]. *)
Definition grown_with (l : loc) (w0 : World)
    (F : gmap string string → Prop) (w : World) : Prop :=
  grown l w0 w ∧ F (files w).

(** While the per-glyph loop runs, an exception is never [ValueError] and
    leaves the temporary files in place. *)
Definition loop_raises (l : loc) (w0 : World) (fs0 : gmap string string)
    (e : exn) (w : World) : Prop :=
  e ≠ ValueError ∧ grown_with l w0 (tmp_files_present fs0) w.

(** How a run of [find_rendered_diffs] started in [w0] may end by an
    exception: [ValueError] comes after the removal of the temporary
    files, every other exception before it. *)
Definition rendered_raises (l : loc) (w0 : World) (e : exn) (w : World) : Prop :=
  grown l w0 w
  ∧ match e with
    | ValueError => files w = files w0
    | _ => tmp_files_present (files w0) (files w)
    end.


(** Tools for the examples.  [agreeing_tools]: every glyph but [c] is
    reachable through its own name as text; [identify] reports a PNG;
    [compare] reports no differing pixel for [a] and twelve for the
    others.  [disagreeing_tools]: the two fonts disagree on the shaping
    input of every glyph. *)
Definition agreeing_tools : Tools :=
  {| input_from_name := fun path cmap name =>
       if decide (name = "c") then None else Some ([], name);
     identify := fun name png => Some [png; "PNG"; "10x10"];
     compare_stderr := fun name =>
       if decide (name = "a") then "0" +:+ String Text.newline ""
       else "12" +:+ String Text.newline "" |}.

Definition disagreeing_tools : Tools :=
  {| input_from_name := fun path cmap name =>
       if decide (path = "fonts/A.ttf") then None else Some ([], name);
     identify := fun name png => Some [png; "PNG"; "10x10"];
     compare_stderr := fun name => "0" +:+ String Text.newline "" |}.

Definition scenario_rendered_run (T : Tools) : result Finder :=
  (let! f := __init__ "fonts/A.ttf" "fonts/B.ttf"
               scenario_font_a scenario_font_b 0%nat false in
   find_rendered_diffs T f 256 None) empty_world.


(** Total correctness: from a world satisfying [P] the method returns, in
    a world satisfying [Q]. *)
Definition returns {A} (P : World -> Prop) (m : M A)
    (Q : A -> World -> Prop) : Prop :=
  ∀ w, P w → ∃ a w', m w = Ok a w' ∧ Q a w'.

(** What the rendered-diff pipeline reads and writes: the files, and the
    [untested] and [compared] logs of the dictionary at [l]. *)
Definition summary (l : loc) (X : gmap string string) (U : list string)
    (C : list DiffRecord) (w : World) : Prop :=
  files w = X ∧ untested (stats_at l w) = U ∧ compared (stats_at l w) = C.

(** A glyph is unreachable when no shaping input is derived for it, and
    rendered when one is derived whose text is not the null character. *)
Definition is_unreachable (T : Tools) (path : string) (cmap : gmap string N)
    (name : string) : bool :=
  match input_from_name T path cmap name with
  | None => true
  | Some _ => false
  end.

Definition is_rendered (T : Tools) (path : string) (cmap : gmap string N)
    (name : string) : bool :=
  match input_from_name T path cmap name with
  | Some (_, text) => negb (bool_decide (text = Text.nul))
  | None => false
  end.

(** The pixel difference that [compare] reports for a glyph, as the
    pipeline reads it back from the log. *)
Definition reported_metric (T : Tools) (name : string) : option Z :=
  Text.py_int (Text.strip (compare_stderr T name)).

(** [compare] writes one line for the glyph, holding an integer. *)
Definition one_metric_line (T : Tools) (name : string) : Prop :=
  (∃ line, compare_stderr T name = line +:+ String Text.newline ""
           ∧ Text.has_newline line = false)
  ∧ is_Some (reported_metric T name).

(** A glyph name that is one line of the log, as it is. *)
Definition glyph_name_ok (name : string) : Prop :=
  Text.has_newline name = false ∧ Text.strip name = name.

(** The diff log after the glyphs [ns] were rendered. *)
Definition log_text (T : Tools) (ns : list string) : string :=
  foldr (fun name acc =>
           name +:+ String Text.newline (compare_stderr T name +:+ acc)) "" ns.

(** The (name, metric) pairs with a non-zero metric among the glyphs [ns]. *)
Definition nonzero_item (T : Tools) (name : string) : option (string * Z) :=
  match reported_metric T name with
  | Some d => if decide (d ≠ 0) then Some (name, d) else None
  | None => None
  end.

Definition expected_items (T : Tools) (ns : list string) : list (string * Z) :=
  omap (nonzero_item T) ns.


(** The reverse map that [build_reverse_cmap] stores for two fonts and
    their shared names. *)
Definition reconciled_cmap (font_a font_b : Font) (shared : gset string)
  : gmap string N :=
  let ra := font_reverse_cmap font_a in
  let rb := font_reverse_cmap font_b in
  filter (fun nv : string * N =>
            nv.1 ∈ shared
            ∧ unicode_mismatched ra rb (elements shared) !! nv.1 = None) ra.


(** Two results of [_calc_ratio] that are the same outcome: both a
    division by zero, or two numerically equal values. *)
Definition same_ratio (x y : option number) : Prop :=
  match x, y with
  | Some u, Some v => Num.eq u v
  | None, None => True
  | _, _ => False
  end.

(** The names a finder works on: the memoised set if it has one, the
    intersection of the two glyph orders otherwise. *)
Definition session_names (f : Finder) : gset string :=
  match names f with
  | Some ns => ns
  | None => names_a f ∩ names_b f
  end.


(** A record carries the two raw values (a 5-tuple) or not (a 3-tuple). *)
Definition has_raw (r : DiffRecord) : bool :=
  match raw r with
  | Some _ => true
  | None => false
  end.

(** [x] is at least as severe as [y]. *)
Definition metric_ge (x y : DiffRecord) : Prop := Num.le (metric y) (metric x).


(** What every record appended by [find_rendered_diffs] looks like: a
    3-tuple whose metric is a non-zero integer. *)
Definition rendered_shape (r : DiffRecord) : Prop :=
  raw r = None ∧ ∃ d : Z, d ≠ 0 ∧ metric r = PyInt d.

(** A run of a new rendered-diff session over the stats dictionary [l]. *)
Definition rendered_session (T : Tools) (file_a file_b : string)
    (font_a font_b : Font) (l : loc) (ratio : bool) (font_size : Z)
    (render_path : option string) : M Finder :=
  let! f := __init__ file_a file_b font_a font_b l ratio in
  find_rendered_diffs T f font_size render_path.


(** * Theorems *)

(** ** Numbers *)

Section NumFacts.
Import Num.

Lemma to_Q_sub a b : (to_Q (sub a b) == to_Q a - to_Q b)%Q.
Proof.
  destruct a as [x|p], b as [y|q]; simpl; try reflexivity.
  unfold Z.sub. rewrite inject_Z_plus, inject_Z_opp. reflexivity.
Qed.

Lemma ltb_lt a b : ltb a b = true <-> (to_Q a < to_Q b)%Q.
Proof.
  unfold ltb. rewrite Qlt_alt.
  destruct (to_Q a ?= to_Q b)%Q; split; congruence.
Qed.

Lemma ltb_ge a b : ltb a b = false <-> (to_Q b <= to_Q a)%Q.
Proof.
  rewrite <- not_true_iff_false, ltb_lt. split.
  - apply Qnot_lt_le.
  - apply Qle_not_lt.
Qed.

Lemma eqb_eq a b : eqb a b = true <-> (to_Q a == to_Q b)%Q.
Proof. apply Qeq_bool_iff. Qed.

Lemma truthy_false a : truthy a = false <-> (to_Q a == 0)%Q.
Proof.
  unfold truthy. rewrite negb_false_iff, eqb_eq. reflexivity.
Qed.

Lemma or_falsy a b :
  truthy (or a b) = false <-> (to_Q a == 0)%Q /\ (to_Q b == 0)%Q.
Proof.
  unfold or. destruct (truthy a) eqn:Ha.
  - rewrite Ha. split; [discriminate|].
    intros [H _]. apply truthy_false in H. congruence.
  - rewrite !truthy_false. apply truthy_false in Ha. tauto.
Qed.

Lemma min_le_max a b : (to_Q (min a b) <= to_Q (max a b))%Q.
Proof.
  unfold min, max.
  destruct (ltb b a) eqn:Hba, (ltb a b) eqn:Hab.
  - apply ltb_lt in Hba, Hab. exfalso.
    exact (Qlt_irrefl _ (Qlt_trans _ _ _ Hba Hab)).
  - apply ltb_lt in Hba. now apply Qlt_le_weak.
  - apply ltb_lt in Hab. now apply Qlt_le_weak.
  - apply Qle_refl.
Qed.

Lemma min_max_eq a b :
  (to_Q (min a b) == to_Q (max a b))%Q <-> (to_Q a == to_Q b)%Q.
Proof.
  unfold min, max.
  destruct (ltb b a) eqn:Hba, (ltb a b) eqn:Hab;
    rewrite ?ltb_lt, ?ltb_ge in *.
  - exfalso. exact (Qlt_irrefl _ (Qlt_trans _ _ _ Hba Hab)).
  - split; intros H; exfalso; rewrite H in Hba; exact (Qlt_irrefl _ Hba).
  - split; intros H; exfalso; rewrite H in Hab; exact (Qlt_irrefl _ Hab).
  - split; intros _; [apply Qle_antisym; assumption | reflexivity].
Qed.

Lemma min_nonneg a b :
  (0 <= to_Q a)%Q -> (0 <= to_Q b)%Q -> (0 <= to_Q (min a b))%Q.
Proof. unfold min. destruct (ltb b a); auto. Qed.

Lemma max_pos a b :
  (0 <= to_Q a)%Q -> (0 <= to_Q b)%Q ->
  ~ ((to_Q a == 0)%Q /\ (to_Q b == 0)%Q) -> (0 < to_Q (max a b))%Q.
Proof.
  intros Ha Hb Hnz. unfold max.
  destruct (ltb a b) eqn:Hab; rewrite ?ltb_lt, ?ltb_ge in Hab.
  - apply Qle_lt_trans with (to_Q a); assumption.
  - destruct (Qlt_le_dec 0 (to_Q a)) as [|Hle]; [assumption|].
    exfalso. apply Hnz.
    assert (to_Q a == 0)%Q by (apply Qle_antisym; assumption).
    split; [assumption|]. apply Qle_antisym; [|assumption].
    apply Qle_trans with (to_Q a); [assumption | now apply Qle_lteq; right].
Qed.

(** Dividing [x] by [y] when [0 <= x <= y] and [0 < y]: the quotient is
    in [0, 1], and is [1] exactly when [x] and [y] are equal, under
    floor division as under exact division. *)
Lemma div_unit_interval x y :
  (0 <= to_Q x)%Q -> (to_Q x <= to_Q y)%Q -> (0 < to_Q y)%Q ->
  exists q, div x y = Some q /\ (0 <= to_Q q)%Q /\ (to_Q q <= 1)%Q /\
            ((to_Q q == 1)%Q <-> (to_Q x == to_Q y)%Q).
Proof.
  intros H0 Hxy Hy.
  assert (Hint : forall u v : Z, (0 <= u <= v)%Z -> (0 < v)%Z ->
            (0 <= u / v <= 1)%Z /\ (u / v = 1 <-> u = v)%Z).
  { intros u v Huv Hv.
    destruct (Z.eq_dec u v) as [->|Hne].
    - rewrite Z.div_same by lia. lia.
    - rewrite Z.div_small by lia. lia. }
  destruct x as [u|p], y as [v|q]; simpl in *.
  - change 0%Q with (inject_Z 0) in H0, Hy.
    rewrite <- Zle_Qle in H0, Hxy. rewrite <- Zlt_Qlt in Hy.
    destruct (Z.eqb_spec v 0) as [->|_]; [lia|].
    destruct (Hint u v) as [[Hl Hu] He]; [lia..|].
    eexists; split; [reflexivity|]. simpl.
    change 0%Q with (inject_Z 0). change 1%Q with (inject_Z 1).
    rewrite <- !Zle_Qle, !inject_Z_injective.
    split; [assumption|]. split; [assumption|]. exact He.
  - destruct (Qeq_bool q 0) eqn:Hq.
    { apply Qeq_bool_iff in Hq. rewrite Hq in Hy. now apply Qlt_irrefl in Hy. }
    eexists; split; [reflexivity|]. simpl.
    split; [apply Qle_shift_div_l; [assumption|]; now rewrite Qmult_0_l|].
    split; [apply Qle_shift_div_r; [assumption|]; now rewrite Qmult_1_l|].
    split; intros H.
    + rewrite <- (Qmult_1_l q), <- H. field.
      intros E. rewrite E in Hy. now apply Qlt_irrefl in Hy.
    + rewrite H. field.
      intros E. rewrite E in Hy. now apply Qlt_irrefl in Hy.
  - destruct (Qeq_bool (inject_Z v) 0) eqn:Hq.
    { apply Qeq_bool_iff in Hq. rewrite Hq in Hy. now apply Qlt_irrefl in Hy. }
    eexists; split; [reflexivity|]. simpl.
    split; [apply Qle_shift_div_l; [assumption|]; now rewrite Qmult_0_l|].
    split; [apply Qle_shift_div_r; [assumption|]; now rewrite Qmult_1_l|].
    split; intros H.
    + rewrite <- (Qmult_1_l (inject_Z v)), <- H. field.
      intros E. rewrite E in Hy. now apply Qlt_irrefl in Hy.
    + rewrite H. field.
      intros E. rewrite E in Hy. now apply Qlt_irrefl in Hy.
  - destruct (Qeq_bool q 0) eqn:Hq.
    { apply Qeq_bool_iff in Hq. rewrite Hq in Hy. now apply Qlt_irrefl in Hy. }
    eexists; split; [reflexivity|]. simpl.
    split; [apply Qle_shift_div_l; [assumption|]; now rewrite Qmult_0_l|].
    split; [apply Qle_shift_div_r; [assumption|]; now rewrite Qmult_1_l|].
    split; intros H.
    + rewrite <- (Qmult_1_l q), <- H. field.
      intros E. rewrite E in Hy. now apply Qlt_irrefl in Hy.
    + rewrite H. field.
      intros E. rewrite E in Hy. now apply Qlt_irrefl in Hy.
Qed.

End NumFacts.

(** ** The ratio metric *)

(** C3 (amended). For non-negative areas [_calc_ratio] never divides by
    zero: it returns [0] when both areas are zero and otherwise
    [1 - min(a, b) / max(a, b)]; the value lies in the closed interval
    [[0, 1]] and is [0] exactly when the two areas are equal. *)
Theorem calc_ratio_nonneg (a b : number) :
  Num.le Num.zero a -> Num.le Num.zero b ->
  exists r,
    _calc_ratio (a, b) = Some r
    /\ Num.le Num.zero r /\ Num.le r Num.one
    /\ (Num.eq r Num.zero <-> Num.eq a b)
    /\ (Num.eq a Num.zero -> Num.eq b Num.zero -> r = PyInt 0)
    /\ (~ (Num.eq a Num.zero /\ Num.eq b Num.zero) ->
        exists q, Num.div (Num.min a b) (Num.max a b) = Some q
                  /\ r = Num.sub Num.one q).
Proof.
  unfold Num.le, Num.eq. change (Num.to_Q Num.zero) with 0%Q.
  change (Num.to_Q Num.one) with 1%Q.
  intros Ha Hb. unfold _calc_ratio.
  destruct (Num.truthy (Num.or a b)) eqn:Ht; simpl.
  - assert (Hnz : ~ ((Num.to_Q a == 0)%Q /\ (Num.to_Q b == 0)%Q)).
    { intros H. apply or_falsy in H. congruence. }
    destruct (div_unit_interval (Num.min a b) (Num.max a b))
      as (q & Hq & Hq0 & Hq1 & Hqe).
    { now apply min_nonneg. }
    { apply min_le_max. }
    { now apply max_pos. }
    rewrite Hq. eexists; split; [reflexivity|].
    pose proof (to_Q_sub Num.one q) as Hr.
    change (Num.to_Q Num.one) with 1%Q in Hr.
    split; [|split; [|split; [|split]]]; rewrite ?Hr.
    + lra.
    + lra.
    + rewrite <- min_max_eq, <- Hqe. split; intros H; lra.
    + intros H1 H2. tauto.
    + intros _. eauto.
  - apply or_falsy in Ht. destruct Ht as [Hza Hzb].
    eexists; split; [reflexivity|]. simpl.
    split; [apply Qle_refl|]. split; [discriminate|].
    split; [|split].
    + split; intros _; [now rewrite Hza, Hzb | reflexivity].
    + reflexivity.
    + tauto.
Qed.

Lemma calc_ratio_nonneg_witness :
  exists r, _calc_ratio (PyFloat 50, PyFloat 60) = Some r
            /\ Num.le Num.zero r /\ Num.le r Num.one.
Proof.
  destruct (calc_ratio_nonneg (PyFloat 50) (PyFloat 60)) as (r & H & H0 & H1 & _).
  - unfold Num.le; simpl. discriminate.
  - unfold Num.le; simpl. discriminate.
  - exists r. auto.
Defined.

(** C3 as stated fails: with exactly one zero area the ratio is [1], outside
    [[0, 1)]; equal non-zero areas give [0]; and a negative area against a
    zero one divides by zero. *)
Lemma calc_ratio_claim_fails :
  ~ (exists r, _calc_ratio (PyFloat 0, PyFloat 5) = Some r /\ Num.lt r Num.one)
  /\ ~ (forall r, _calc_ratio (PyFloat 5, PyFloat 5) = Some r ->
        Num.eq r Num.zero ->
        Num.eq (PyFloat 5) Num.zero /\ Num.eq (PyFloat 5) Num.zero)
  /\ _calc_ratio (PyFloat (-1), PyFloat 0) = None.
Proof.
  split; [|split].
  - intros (r & H & Hlt). vm_compute in H. inversion H; subst r.
    vm_compute in Hlt. discriminate.
  - intros H. destruct (H _ eq_refl) as [H5 _]; [reflexivity|].
    vm_compute in H5. discriminate.
  - reflexivity.
Qed.

(** ** The heap and the monad *)

Lemma stats_at_set_stats l s w : stats_at l (set_stats l s w) = s.
Proof. unfold stats_at, set_stats; simpl. apply lookup_total_insert_eq. Qed.

Lemma stats_at_set_stats_ne l l' s w :
  l' ≠ l → stats_at l' (set_stats l s w) = stats_at l' w.
Proof.
  intros Hne. unfold stats_at, set_stats; simpl.
  apply lookup_total_insert_ne. congruence.
Qed.

(** ** The area diff on the scenario *)

(** C1 (code at the failing input). On the scenario (shared glyphs a, b, c
    with areas 100/100, 50/60, 0/0), [find_area_diffs] raises [NameError]
    when it reaches the record for [b], under either policy, and leaves
    [compared] empty. *)
Theorem find_area_diffs_scenario_raises :
  ∀ ratio, ∃ w,
    scenario_area_run ratio = Raise NameError w
    ∧ compared (stats_at 0%nat w) = [].
Proof.
  intros [|]; eexists; split; vm_compute; reflexivity.
Qed.

(** ** The glyph-set reconciler *)

Lemma init_ok file_a file_b font_a font_b l ratio w :
  __init__ file_a file_b font_a font_b l ratio w =
  Ok {| paths := (file_a, file_b); fonts := (font_a, font_b);
        ratio_diffs := ratio; stats := l;
        basepath := Text.basename file_a;
        names := None; reverse_cmap := None |}
     (set_stats l empty_stats w).
Proof. reflexivity. Qed.

(** The first run of [build_names]: it returns, stores the intersection,
    and appends to [unmatched] one entry when the name sets differ and
    nothing otherwise; the other logs and the files are untouched. *)
Lemma build_names_first f w :
  names f = None →
  ∃ w',
    build_names f w = Ok (set_names f (names_a f ∩ names_b f)) w'
    ∧ files w' = files w
    ∧ (∀ l', l' ≠ stats f → stats_at l' w' = stats_at l' w)
    ∧ compared (stats_at (stats f) w') = compared (stats_at (stats f) w)
    ∧ untested (stats_at (stats f) w') = untested (stats_at (stats f) w)
    ∧ unicode_mismatch (stats_at (stats f) w')
      = unicode_mismatch (stats_at (stats f) w)
    ∧ unmatched (stats_at (stats f) w')
      = unmatched (stats_at (stats f) w)
        ++ (if decide (names_a f ≠ names_b f)
            then [(basepath f, names_a f ∖ names_b f, names_b f ∖ names_a f)]
            else []).
Proof.
  intros Hn. unfold build_names. rewrite Hn.
  fold (names_a f) (names_b f).
  destruct (decide (names_a f ≠ names_b f)) as [Hne|Heq].
  - eexists. split; [reflexivity|]. cbn.
    rewrite stats_at_set_stats. cbn.
    repeat split; try reflexivity.
    intros l' Hl'. now apply stats_at_set_stats_ne.
  - exists w. split; [reflexivity|].
    rewrite app_nil_r. repeat split; reflexivity.
Qed.

(** Later runs are no-ops. *)
Lemma build_names_again f ns w :
  names f = Some ns → build_names f w = Ok f w.
Proof. intros Hn. unfold build_names. now rewrite Hn. Qed.

(** C5. For every pair of fonts, running the reconciler in a new session
    returns without error; the shared set is the intersection of the two
    name sets; [unmatched] is non-empty iff the name sets differ, and then
    holds exactly the one entry
    [(basepath, names_a - names_b, names_b - names_a)]; a second run
    changes nothing. *)
Theorem build_names_reconciles file_a file_b font_a font_b l ratio w :
  let A : gset string := list_to_set (glyph_order font_a) in
  let B : gset string := list_to_set (glyph_order font_b) in
  ∃ f0 w0 f w',
    __init__ file_a file_b font_a font_b l ratio w = Ok f0 w0
    ∧ build_names f0 w0 = Ok f w'
    ∧ names f = Some (A ∩ B)
    ∧ (unmatched (stats_at l w') ≠ [] ↔ A ≠ B)
    ∧ (A ≠ B →
       unmatched (stats_at l w') = [(Text.basename file_a, A ∖ B, B ∖ A)])
    ∧ build_names f w' = Ok f w'.
Proof.
  intros A B. rewrite init_ok.
  set (f0 := {| paths := (file_a, file_b); fonts := (font_a, font_b);
                ratio_diffs := ratio; stats := l;
                basepath := Text.basename file_a;
                names := None; reverse_cmap := None |}).
  destruct (build_names_first f0 (set_stats l empty_stats w) eq_refl)
    as (w' & Hrun & _ & _ & _ & _ & _ & Hun).
  exists f0, (set_stats l empty_stats w), (set_names f0 (names_a f0 ∩ names_b f0)), w'.
  split; [reflexivity|]. split; [exact Hrun|].
  change (stats f0) with l in Hun. rewrite stats_at_set_stats in Hun.
  change (names_a f0) with A in *. change (names_b f0) with B in *.
  change (basepath f0) with (Text.basename file_a) in Hun.
  change (unmatched empty_stats) with (@nil Unmatched) in Hun.
  rewrite app_nil_l in Hun.
  split; [reflexivity|].
  split; [|split].
  - rewrite Hun. destruct (decide (A ≠ B)) as [Hne|Heq].
    + split; [intros _; exact Hne | intros _; discriminate].
    + split; [intros H; now elim H | intros H; now elim Heq].
  - intros Hne. rewrite Hun. destruct (decide (A ≠ B)); [reflexivity|].
    contradiction.
  - eapply build_names_again. reflexivity.
Qed.

(** ** The reverse code point map *)

Lemma unicode_mismatched_lookup (ra rb : gmap string N) (ns : list string) (n : string) :
  unicode_mismatched ra rb ns !! n
  = if decide (n ∈ ns ∧ ra !! n ≠ rb !! n) then Some (ra !! n, rb !! n) else None.
Proof.
  unfold unicode_mismatched.
  induction ns as [|x ns IH] using rev_ind.
  - cbn [foldl]. rewrite lookup_empty. rewrite decide_False; [reflexivity|].
    intros [H _]. now apply elem_of_nil in H.
  - rewrite foldl_snoc.
    destruct (decide (ra !! x ≠ rb !! x)) as [Hx|Hx].
    + destruct (decide (x = n)) as [->|Hne].
      * rewrite lookup_insert_eq. rewrite decide_True; [reflexivity|].
        split; [|assumption]. apply elem_of_app. right. apply list_elem_of_here.
      * rewrite lookup_insert_ne by assumption. rewrite IH.
        apply decide_ext. rewrite elem_of_app, list_elem_of_singleton.
        intuition congruence.
    + rewrite IH. apply decide_ext.
      rewrite elem_of_app, list_elem_of_singleton.
      split; intros [H1 H2]; (split; [|exact H2]); [now left|].
      destruct H1 as [H1|H1]; [exact H1|]. subst n. contradiction.
Qed.

Lemma reconciled_cmap_lookup (ra rb : gmap string N) (ns : gset string) n v :
  filter (fun nv : string * N =>
            nv.1 ∈ ns ∧ unicode_mismatched ra rb (elements ns) !! nv.1 = None) ra
    !! n = Some v
  ↔ n ∈ ns ∧ ra !! n = Some v ∧ rb !! n = Some v.
Proof.
  rewrite map_lookup_filter_Some. simpl.
  rewrite unicode_mismatched_lookup.
  split.
  - intros (Ha & Hn & Hm). split; [assumption|]. split; [assumption|].
    destruct (decide (_ ∧ _)) as [H|H]; [discriminate|].
    destruct (decide (ra !! n = rb !! n)) as [E|E]; [congruence|].
    exfalso. apply H. split; [|assumption]. now apply elem_of_elements.
  - intros (Hn & Ha & Hb). split; [assumption|]. split; [assumption|].
    rewrite decide_False; [reflexivity|]. intros [_ H]. congruence.
Qed.

(** The first run of [build_reverse_cmap], once the names are built. *)
Lemma build_reverse_cmap_first f ns w :
  reverse_cmap f = None → names f = Some ns →
  let ra := font_reverse_cmap (fonts f).1 in
  let rb := font_reverse_cmap (fonts f).2 in
  let mismatched := unicode_mismatched ra rb (elements ns) in
  let cmap := filter (fun nv : string * N =>
                        nv.1 ∈ ns ∧ mismatched !! nv.1 = None) ra in
  ∃ w',
    build_reverse_cmap f w = Ok (set_reverse_cmap f cmap) w'
    ∧ files w' = files w
    ∧ (∀ l', l' ≠ stats f → stats_at l' w' = stats_at l' w)
    ∧ compared (stats_at (stats f) w') = compared (stats_at (stats f) w)
    ∧ untested (stats_at (stats f) w') = untested (stats_at (stats f) w)
    ∧ unmatched (stats_at (stats f) w') = unmatched (stats_at (stats f) w)
    ∧ unicode_mismatch (stats_at (stats f) w')
      = unicode_mismatch (stats_at (stats f) w)
        ++ (if decide (mismatched ≠ ∅)
            then [(basepath f, map_to_list mismatched)] else []).
Proof.
  intros Hc Hn ra rb mismatched cmap. unfold build_reverse_cmap.
  rewrite Hc, Hn. fold ra rb. fold mismatched. fold cmap.
  destruct (decide (mismatched ≠ ∅)) as [Hne|Heq].
  - eexists. split; [reflexivity|]. cbn.
    rewrite stats_at_set_stats. cbn.
    repeat split; try reflexivity.
    intros l' Hl'. now apply stats_at_set_stats_ne.
  - exists w. split; [reflexivity|].
    rewrite app_nil_r. repeat split; reflexivity.
Qed.

Lemma build_reverse_cmap_again f m w :
  reverse_cmap f = Some m → build_reverse_cmap f w = Ok f w.
Proof. intros Hc. unfold build_reverse_cmap. now rewrite Hc. Qed.

(** C6 (amended). In a new session, after the names and the reverse map
    are built: the map holds exactly the shared names that font A maps to a
    code point and that font B maps to the same code point (a shared name
    that neither font maps is not in the map); every shared name on which
    the fonts disagree is absent from the map and is listed, once, with the
    two values, in the mismatch list, which lists nothing else; and one
    [unicode_mismatch] entry [(basepath, list)] is appended iff the list is
    not empty. *)
Theorem build_reverse_cmap_reconciles file_a file_b font_a font_b l ratio w :
  let shared : gset string :=
    list_to_set (glyph_order font_a) ∩ list_to_set (glyph_order font_b) in
  let ra := font_reverse_cmap font_a in
  let rb := font_reverse_cmap font_b in
  ∃ f w' cmap mism,
    (let! f := __init__ file_a file_b font_a font_b l ratio in
     let! f := build_names f in
     build_reverse_cmap f) w = Ok f w'
    ∧ names f = Some shared
    ∧ reverse_cmap f = Some cmap
    ∧ (∀ n v, cmap !! n = Some v ↔ n ∈ shared ∧ ra !! n = Some v ∧ rb !! n = Some v)
    ∧ (∀ n, n ∈ shared → ra !! n ≠ rb !! n →
            cmap !! n = None ∧ (n, (ra !! n, rb !! n)) ∈ mism)
    ∧ NoDup mism.*1
    ∧ (∀ n uv, (n, uv) ∈ mism →
               n ∈ shared ∧ uv = (ra !! n, rb !! n) ∧ ra !! n ≠ rb !! n)
    ∧ unicode_mismatch (stats_at l w')
      = if decide (mism ≠ []) then [(Text.basename file_a, mism)] else [].
Proof.
  intros shared ra rb. unfold bind at 1. rewrite init_ok.
  set (f0 := {| paths := (file_a, file_b); fonts := (font_a, font_b);
                ratio_diffs := ratio; stats := l;
                basepath := Text.basename file_a;
                names := None; reverse_cmap := None |}).
  destruct (build_names_first f0 (set_stats l empty_stats w) eq_refl)
    as (w1 & Hrun1 & _ & _ & _ & _ & Hum1 & _).
  unfold bind. rewrite Hrun1.
  change (names_a f0 ∩ names_b f0) with shared in *.
  destruct (build_reverse_cmap_first (set_names f0 shared) shared w1 eq_refl eq_refl)
    as (w2 & Hrun2 & _ & _ & _ & _ & _ & Hum2).
  rewrite Hrun2.
  change (font_reverse_cmap (fonts (set_names f0 shared)).1) with ra in *.
  change (font_reverse_cmap (fonts (set_names f0 shared)).2) with rb in *.
  change (stats (set_names f0 shared)) with l in Hum2.
  change (stats f0) with l in Hum1.
  rewrite Hum1, stats_at_set_stats in Hum2. cbn [unicode_mismatch empty_stats] in Hum2.
  rewrite app_nil_l in Hum2.
  set (mm := unicode_mismatched ra rb (elements shared)) in *.
  eexists _, w2, _, (map_to_list mm).
  split; [reflexivity|]. split; [reflexivity|]. split; [reflexivity|].
  split; [|split; [|split; [|split]]].
  - intros n v. apply reconciled_cmap_lookup.
  - intros n Hn Hne. split.
    + match goal with
      | |- ?m !! n = None => destruct (m !! n) as [v|] eqn:E; [|reflexivity]
      end.
      apply reconciled_cmap_lookup in E. destruct E as (_ & E1 & E2).
      congruence.
    + apply elem_of_map_to_list. unfold mm. rewrite unicode_mismatched_lookup.
      rewrite decide_True; [reflexivity|]. split; [|assumption].
      now apply elem_of_elements.
  - apply NoDup_fst_map_to_list.
  - intros n uv Hin. apply elem_of_map_to_list in Hin. unfold mm in Hin.
    rewrite unicode_mismatched_lookup in Hin.
    destruct (decide (_ ∧ _)) as [[H1 H2]|_]; [|discriminate].
    apply elem_of_elements in H1. split; [assumption|]. split; [congruence|assumption].
  - rewrite Hum2. change (basepath (set_names f0 shared)) with (Text.basename file_a).
    destruct (decide (mm ≠ ∅)) as [H|H].
    + rewrite decide_True; [reflexivity|]. now rewrite map_to_list_empty_iff.
    + rewrite decide_False; [reflexivity|]. rewrite map_to_list_empty_iff. assumption.
Qed.

(** C6 as stated fails: a shared glyph name that neither font maps to a
    code point is one on which the fonts agree, yet the returned map does
    not contain it. *)
Lemma build_reverse_cmap_drops_unmapped :
  ∃ f w' cmap,
    (let! f := __init__ "A.ttf" "B.ttf" unmapped_font unmapped_font 0%nat false in
     let! f := build_names f in
     build_reverse_cmap f) empty_world = Ok f w'
    ∧ names f = Some {["x"]}
    ∧ reverse_cmap f = Some cmap
    ∧ ¬ (∀ n, is_Some (cmap !! n)
              ↔ n ∈ ({["x"]} : gset string)
                ∧ font_reverse_cmap unmapped_font !! n
                  = font_reverse_cmap unmapped_font !! n).
Proof.
  eexists _, _, _. split; [vm_compute; reflexivity|].
  split; [vm_compute; reflexivity|]. split; [reflexivity|].
  intros H. destruct (H "x") as [_ Hx].
  destruct Hx as [v Hv]; [split; [set_solver|reflexivity]|].
  vm_compute in Hv. discriminate.
Qed.

(** ** The lifetime of the stats dictionary *)

(** C2 (code at the failing input). The first session leaves one entry in
    [unmatched]; creating the second finder over the same dictionary and
    running its reconciler leaves [unmatched] empty, so the earlier entry
    is lost: [__init__] rebinds the four logs of the dictionary it is
    given, where the stats are meant to accumulate over several pairs of
    fonts. *)
Lemma new_finder_resets_logs :
  ∃ f1 w1 f2 w2,
    first_session empty_world = Ok f1 w1
    ∧ length (unmatched (stats_at 0%nat w1)) = 1%nat
    ∧ second_session w1 = Ok f2 w2
    ∧ stats f1 = stats f2
    ∧ unmatched (stats_at 0%nat w2) = []
    ∧ ¬ logs_extend (stats_at 0%nat w1) (stats_at 0%nat w2).
Proof.
  eexists _, _, _, _. split; [vm_compute; reflexivity|].
  split; [vm_compute; reflexivity|].
  split; [vm_compute; reflexivity|].
  split; [reflexivity|].
  split; [vm_compute; reflexivity|].
  intros (_ & _ & [k Hk] & _). vm_compute in Hk. discriminate.
Qed.

(** ** Sorting and slicing *)

Lemma insert_sorted_perm {A} (lt : A → A → bool) x l :
  insert_sorted lt x l ≡ₚ x :: l.
Proof.
  induction l as [|y l IH]; simpl; [reflexivity|].
  destruct (lt y x); [|reflexivity].
  rewrite IH. apply Permutation_swap.
Qed.

Lemma sorted_perm {A} (lt : A → A → bool) l : sorted lt l ≡ₚ l.
Proof.
  unfold sorted. induction l as [|x l IH]; simpl; [reflexivity|].
  now rewrite insert_sorted_perm, IH.
Qed.

Lemma elem_of_slice_to {A} (n : Z) (l : list A) x : x ∈ slice_to n l → x ∈ l.
Proof.
  unfold slice_to. destruct (0 <=? n)%Z;
    intros (i & Hi & _)%elem_of_take; eapply list_elem_of_lookup_2; eassumption.
Qed.

Lemma Forall2_elem_of_right {A B} (P : A → B → Prop) l k y :
  Forall2 P l k → y ∈ k → ∃ x, x ∈ l ∧ P x y.
Proof.
  induction 1 as [|x y' l k HP _ IH]; intros Hy.
  - now apply elem_of_nil in Hy.
  - apply elem_of_cons in Hy as [->|Hy].
    + exists x. split; [apply list_elem_of_here | exact HP].
    + destruct (IH Hy) as (x' & Hx' & HP'). exists x'.
      split; [now apply list_elem_of_further | exact HP'].
Qed.

Lemma length_dump_compared stats whitelist :
  length (dump_compared stats whitelist)
  = length (filter (fun s => glyph s ∉ whitelist) (compared stats)).
Proof.
  unfold dump_compared. rewrite length_reverse.
  apply Permutation_length, sorted_perm.
Qed.

Lemma elem_of_dump_compared stats whitelist r :
  r ∈ dump_compared stats whitelist ↔ r ∈ compared stats ∧ glyph r ∉ whitelist.
Proof.
  unfold dump_compared. rewrite elem_of_reverse, sorted_perm.
  rewrite list_elem_of_filter. tauto.
Qed.

(** ** The report *)

Section DumpFacts.

Variable str_float : Q → string.

(** A row is formatted exactly when the record carries raw values iff they
    are asked for, and then reads as [row_text] says. *)
Lemma dump_row_Some include_vals multiple_fonts r row :
  dump_row str_float include_vals multiple_fonts r = Some row →
  row = row_text str_float include_vals multiple_fonts r
  ∧ (include_vals = true ↔ is_Some (raw r)).
Proof.
  unfold dump_row, row_text, to_tuple.
  destruct r as [m g s [[a b]|]], include_vals, multiple_fonts; cbn;
    intros H; try discriminate; injection H as <-;
    (split; [reflexivity|]); split; intros Hx;
    first [ discriminate | reflexivity | solve [eauto] | now destruct Hx ].
Qed.

Lemma dump_report_Some stats whitelist out_lines include_vals multiple_fonts lines :
  dump_report str_float stats whitelist out_lines include_vals multiple_fonts
    = Some lines →
  ∃ rows,
    lines = [dump_header (dump_compared stats whitelist)] ++ rows ++ [""]
            ++ dump_tail stats
    ∧ Forall2 (fun r row =>
                 dump_row str_float include_vals multiple_fonts r = Some row)
        (slice_to out_lines (dump_compared stats whitelist)) rows.
Proof.
  unfold dump_report. intros H.
  destruct (mapM _ _) as [rows|] eqn:E; [|discriminate].
  injection H as <-. exists rows. split; [reflexivity|].
  now apply mapM_Some.
Qed.

End DumpFacts.

Lemma dump_Some str_float stats whitelist out_lines include_vals multiple_fonts text :
  dump str_float stats whitelist out_lines include_vals multiple_fonts = Some text →
  ∃ rows,
    text = Text.join (String Text.newline "")
             ([dump_header (dump_compared stats whitelist)] ++ rows ++ [""]
              ++ dump_tail stats)
    ∧ Forall2 (fun r row =>
                 dump_row str_float include_vals multiple_fonts r = Some row)
        (slice_to out_lines (dump_compared stats whitelist)) rows.
Proof.
  unfold dump. intros H.
  destruct (dump_report _ _ _ _ _ _) as [lines|] eqn:E; [|discriminate].
  injection H as <-.
  apply dump_report_Some in E as (rows & -> & Hrows). eauto.
Qed.

(** C10. Whenever [dump] produces a report, its first line is the header
    ['N differences in glyph shape'] where [N] is the number of compared
    records whose glyph name is not in the whitelist, whatever [out_lines]
    is: truncation limits the rows, not the count. *)
Theorem dump_header_counts_all str_float stats whitelist out_lines
    include_vals multiple_fonts text :
  dump str_float stats whitelist out_lines include_vals multiple_fonts = Some text →
  ∃ rest,
    text = (pretty (length (filter (fun s => glyph s ∉ whitelist) (compared stats)))
            +:+ " differences in glyph shape")
           +:+ String Text.newline rest.
Proof.
  intros (rows & -> & _)%dump_Some.
  unfold dump_header. rewrite length_dump_compared.
  destruct (rows ++ [""] ++ dump_tail stats) as [|y l] eqn:E.
  { destruct rows; discriminate. }
  exists (Text.join (String Text.newline "") (y :: l)).
  reflexivity.
Qed.

Lemma dump_header_counts_all_witness :
  ∃ text rest,
    dump example_str_float example_stats ["uni0041"] 1 true false = Some text
    ∧ text = (pretty 2%nat +:+ " differences in glyph shape")
             +:+ String Text.newline rest.
Proof.
  destruct (dump example_str_float example_stats ["uni0041"] 1 true false)
    as [text|] eqn:E; [|vm_compute in E; discriminate].
  destruct (dump_header_counts_all _ _ _ _ _ _ _ E) as [rest H].
  exists text, rest. split; [reflexivity|exact H].
Defined.

(** C8 (amended). In every diff row emitted by [dump], the font-source
    label comes first and the glyph name follows it when [multiple_fonts]
    is true; the label is omitted entirely when [multiple_fonts] is false,
    the row then starting with the glyph name; the metric follows the glyph
    name; and when [include_vals] is true the two raw compared values are
    appended to the row. *)
Theorem dump_rows_layout str_float stats whitelist out_lines
    include_vals multiple_fonts text :
  dump str_float stats whitelist out_lines include_vals multiple_fonts = Some text →
  ∃ rows,
    text = Text.join (String Text.newline "")
             ([dump_header (dump_compared stats whitelist)] ++ rows ++ [""]
              ++ dump_tail stats)
    ∧ Forall2
        (fun r row =>
           ∃ vals,
             row = (if multiple_fonts
                    then source r +:+ " " +:+ glyph r +:+ " "
                         +:+ str_number str_float (metric r) +:+ vals
                    else glyph r +:+ " "
                         +:+ str_number str_float (metric r) +:+ vals)
             ∧ (if include_vals
                then ∃ a b, raw r = Some (a, b)
                            ∧ vals = " (" +:+ str_number str_float a +:+ " vs "
                                     +:+ str_number str_float b +:+ ")"
                else vals = ""))
        (slice_to out_lines (dump_compared stats whitelist)) rows.
Proof.
  intros (rows & -> & Hrows)%dump_Some. exists rows. split; [reflexivity|].
  eapply Forall2_impl; [exact Hrows|]. clear Hrows.
  intros r row (-> & Hraw)%dump_row_Some.
  unfold row_text. destruct include_vals.
  - destruct (proj1 Hraw eq_refl) as [[a b] Hab]. rewrite Hab.
    eexists. split; [reflexivity|]. eauto.
  - eexists. split; [reflexivity|]. reflexivity.
Qed.

Lemma dump_rows_layout_witness :
  ∃ text rows,
    dump example_str_float example_stats [] 2 true true = Some text
    ∧ text = Text.join (String Text.newline "")
               ([dump_header (dump_compared example_stats [])] ++ rows ++ [""]
                ++ dump_tail example_stats)
    ∧ length rows = 2%nat.
Proof.
  destruct (dump example_str_float example_stats [] 2 true true)
    as [text|] eqn:E; [|vm_compute in E; discriminate].
  destruct (dump_rows_layout _ _ _ _ _ _ _ E) as (rows & H & Hrows).
  exists text, rows. split; [reflexivity|]. split; [exact H|].
  apply Forall2_length in Hrows. rewrite <- Hrows. reflexivity.
Defined.

(** C8 as stated fails: with [multiple_fonts], the row of the record
    [(10, 'b', 'A.ttf', 50, 60)] is ['A.ttf b 10 (50 vs 60)']: the label
    precedes the glyph name, not the other way round. *)
Lemma dump_row_label_first :
  let r := {| metric := PyInt 10; glyph := "b"; source := "A.ttf";
              raw := Some (PyInt 50, PyInt 60) |} in
  ∃ row,
    dump_row example_str_float true true r = Some row
    ∧ row = "A.ttf b 10 (50 vs 60)"
    ∧ precedes (source r) (glyph r) row
    ∧ ¬ precedes (glyph r) (source r) row.
Proof.
  intros r. eexists. split; [vm_compute; reflexivity|].
  split; [reflexivity|]. split.
  - exists 0%nat, 6%nat. split; [reflexivity|]. split; [reflexivity|]. lia.
  - intros (i & j & Hi & Hj & Hlt). vm_compute in Hi, Hj.
    injection Hi as <-. injection Hj as <-. lia.
Qed.

(** C4 (amended). No compared record whose glyph name is in the whitelist
    gives a diff row: every row of the report is the row of a compared
    record whose glyph name is not in the whitelist.  The untested,
    unmatched and unicode_mismatch sections do not depend on the whitelist:
    in particular every untested name has its line. *)
Theorem dump_whitelist_filters_rows str_float stats whitelist out_lines
    include_vals multiple_fonts text :
  dump str_float stats whitelist out_lines include_vals multiple_fonts = Some text →
  ∃ rows,
    text = Text.join (String Text.newline "")
             ([dump_header (dump_compared stats whitelist)] ++ rows ++ [""]
              ++ dump_tail stats)
    ∧ Forall (fun row =>
                ∃ r, r ∈ compared stats ∧ (glyph r ∉ whitelist)
                     ∧ row = row_text str_float include_vals multiple_fonts r)
        rows
    ∧ (∀ r, r ∈ slice_to out_lines (dump_compared stats whitelist) →
            glyph r ∉ whitelist)
    ∧ (∀ name, name ∈ untested stats →
               "not tested (unreachable?): " +:+ name ∈ dump_tail stats).
Proof.
  intros (rows & -> & Hrows)%dump_Some. exists rows. split; [reflexivity|].
  split; [|split].
  - apply Forall_forall. intros row Hrow.
    destruct (Forall2_elem_of_right _ _ _ _ Hrows Hrow) as (r & Hr & Hfmt).
    apply elem_of_slice_to, elem_of_dump_compared in Hr as [Hin Hwl].
    apply dump_row_Some in Hfmt as [-> _]. eauto.
  - intros r Hr. now apply elem_of_slice_to, elem_of_dump_compared in Hr as [_ ?].
  - intros name Hname. unfold dump_tail, untested_lines.
    apply elem_of_app. left.
    apply (list_elem_of_fmap_2 (fun name => "not tested (unreachable?): " +:+ name)).
    now rewrite sorted_perm.
Qed.

Lemma dump_whitelist_filters_rows_witness :
  ∃ text rows,
    dump example_str_float example_stats ["uni0041"] 5 true false = Some text
    ∧ text = Text.join (String Text.newline "")
               ([dump_header (dump_compared example_stats ["uni0041"])]
                ++ rows ++ [""] ++ dump_tail example_stats)
    ∧ Forall (fun row =>
                ∃ r, r ∈ compared example_stats ∧ (glyph r ∉ ["uni0041"])
                     ∧ row = row_text example_str_float true false r)
        rows.
Proof.
  destruct (dump example_str_float example_stats ["uni0041"] 5 true false)
    as [text|] eqn:E; [|vm_compute in E; discriminate].
  destruct (dump_whitelist_filters_rows _ _ _ _ _ _ _ E) as (rows & H & Hrows & _).
  exists text, rows. split; [reflexivity|]. split; [exact H|exact Hrows].
Defined.

(** C4 as stated fails: a whitelisted glyph name that is in [untested]
    still appears in the report, in the untested section. *)
Lemma dump_whitelist_leaks_untested :
  ∃ text,
    dump example_str_float example_stats ["uni0042"] 5 true false = Some text
    ∧ "uni0042" ∈ ["uni0042"]
    ∧ "not tested (unreachable?): uni0042" ∈ dump_tail example_stats
    ∧ occurs "uni0042" text.
Proof.
  eexists. split; [vm_compute; reflexivity|].
  split; [set_solver|]. split.
  - vm_compute. apply list_elem_of_here.
  - vm_compute. eauto.
Qed.

(** ** Hoare rules for the method monad *)

Lemma hoare_ret {A} (P : World → Prop) (a : A) Q E :
  (∀ w, P w → Q a w) → hoare P (ret a) Q E.
Proof. intros H w Hw. now apply H. Qed.

Lemma hoare_raise {A} (P : World → Prop) e (Q : A → World → Prop) E :
  (∀ w, P w → E e w) → hoare P (raise e) Q E.
Proof. intros H w Hw. now apply H. Qed.

Lemma hoare_bind {A B} (P : World → Prop) (m : M A) (k : A → M B) R Q E :
  hoare P m R E → (∀ a, hoare (R a) (k a) Q E) → hoare P (bind m k) Q E.
Proof.
  intros Hm Hk w Hw. unfold bind. specialize (Hm w Hw).
  destruct (m w) as [a w'|e w']; [now apply Hk | exact Hm].
Qed.

Lemma hoare_conseq {A} (P P' : World → Prop) (m : M A) (Q Q' : A → World → Prop)
    (E E' : exn → World → Prop) :
  hoare P m Q E →
  (∀ w, P' w → P w) → (∀ a w, Q a w → Q' a w) → (∀ e w, E e w → E' e w) →
  hoare P' m Q' E'.
Proof.
  intros H HP HQ HE w Hw. specialize (H w (HP w Hw)).
  destruct (m w); auto.
Qed.

Lemma hoare_pure {A} (φ : Prop) (P : World → Prop) (m : M A) Q E :
  (φ → hoare P m Q E) → hoare (fun w => P w ∧ φ) m Q E.
Proof. intros H w [Hw Hφ]. now apply H. Qed.

Lemma hoare_for_each {A} (I : World → Prop) (l : list A) (body : A → M unit) E :
  (∀ x, x ∈ l → hoare I (body x) (fun _ => I) E) →
  hoare I (for_each l body) (fun _ => I) E.
Proof.
  induction l as [|x l IH]; intros Hbody; cbn [for_each].
  - now apply hoare_ret.
  - eapply hoare_bind.
    + apply Hbody, list_elem_of_here.
    + intros u. apply IH. intros y Hy. now apply Hbody, list_elem_of_further.
Qed.

(** ** The logs only grow *)

Global Instance logs_extend_preorder : PreOrder logs_extend.
Proof.
  split.
  - intros s. repeat split; reflexivity.
  - intros s1 s2 s3 (?&?&?&?) (?&?&?&?). repeat split; etrans; eassumption.
Qed.

Lemma grown_refl l w : grown l w w.
Proof. split; [reflexivity|]. intros; reflexivity. Qed.

Lemma grown_set_stats l w0 w s :
  grown l w0 w → logs_extend (stats_at l w) s → grown l w0 (set_stats l s w).
Proof.
  intros [Hext Hother] Hs. split.
  - rewrite stats_at_set_stats. etrans; eassumption.
  - intros l' Hl'. rewrite stats_at_set_stats_ne by assumption. now apply Hother.
Qed.

Section Appends.

Variables (l : loc) (w0 : World) (F : gmap string string → Prop).
Variable E : exn → World → Prop.

Lemma append_compared_grown r :
  hoare (grown_with l w0 F) (append_compared l r)
    (fun _ => grown_with l w0 F) E.
Proof.
  intros w [Hg HF]. cbn. split; [|exact HF].
  apply grown_set_stats; [exact Hg|].
  repeat split; cbn; try reflexivity. now apply prefix_app_r.
Qed.

Lemma append_untested_grown name :
  hoare (grown_with l w0 F) (append_untested l name)
    (fun _ => grown_with l w0 F) E.
Proof.
  intros w [Hg HF]. cbn. split; [|exact HF].
  apply grown_set_stats; [exact Hg|].
  repeat split; cbn; try reflexivity. now apply prefix_app_r.
Qed.

Lemma append_unmatched_grown e :
  hoare (grown_with l w0 F) (append_unmatched l e)
    (fun _ => grown_with l w0 F) E.
Proof.
  intros w [Hg HF]. cbn. split; [|exact HF].
  apply grown_set_stats; [exact Hg|].
  repeat split; cbn; try reflexivity. now apply prefix_app_r.
Qed.

Lemma append_unicode_mismatch_grown e :
  hoare (grown_with l w0 F) (append_unicode_mismatch l e)
    (fun _ => grown_with l w0 F) E.
Proof.
  intros w [Hg HF]. cbn. split; [|exact HF].
  apply grown_set_stats; [exact Hg|].
  repeat split; cbn; try reflexivity. now apply prefix_app_r.
Qed.

(** [build_names] and [build_reverse_cmap] return the finder with, at
    most, the memoised field set. *)
Lemma build_names_grown f :
  stats f = l →
  hoare (grown_with l w0 F) (build_names f)
    (fun f' w => grown_with l w0 F w ∧ ∃ ns, f' = set_names f ns) E.
Proof.
  intros Hl. unfold build_names. destruct (names f) as [ns|] eqn:Hn.
  - apply hoare_ret. intros w Hw. split; [exact Hw|].
    exists ns. destruct f; cbn in *. now subst.
  - eapply hoare_bind with (R := fun _ => grown_with l w0 F).
    + destruct (decide _); [|now apply hoare_ret].
      rewrite Hl. apply append_unmatched_grown.
    + intros u. apply hoare_ret. intros w Hw. split; [exact Hw|]. eauto.
Qed.

Lemma build_reverse_cmap_grown f ns :
  stats f = l → names f = Some ns →
  hoare (grown_with l w0 F) (build_reverse_cmap f)
    (fun f' w => grown_with l w0 F w ∧ ∃ m, f' = set_reverse_cmap f m) E.
Proof.
  intros Hl Hns. unfold build_reverse_cmap.
  destruct (reverse_cmap f) as [m|] eqn:Hm.
  - apply hoare_ret. intros w Hw. split; [exact Hw|].
    exists m. destruct f; cbn in *. now subst.
  - rewrite Hns. eapply hoare_bind with (R := fun _ => grown_with l w0 F).
    + destruct (decide _); [|now apply hoare_ret].
      rewrite Hl. apply append_unicode_mismatch_grown.
    + intros u. apply hoare_ret. intros w Hw. split; [exact Hw|]. eauto.
Qed.

End Appends.

(** ** Temporary files *)

Lemma tmp_paths_fresh (fs : gmap string string) :
  fs !! tmp_a fs = None
  ∧ <[tmp_a fs := ""]> fs !! tmp_b fs = None
  ∧ <[tmp_b fs := ""]> (<[tmp_a fs := ""]> fs) !! tmp_c fs = None
  ∧ tmp_images fs !! tmp_d fs = None.
Proof. repeat split; apply fresh_string_fresh. Qed.

Lemma tmp_paths_distinct (fs : gmap string string) :
  tmp_a fs ≠ tmp_b fs ∧ tmp_a fs ≠ tmp_c fs ∧ tmp_a fs ≠ tmp_d fs
  ∧ tmp_b fs ≠ tmp_c fs ∧ tmp_b fs ≠ tmp_d fs ∧ tmp_c fs ≠ tmp_d fs.
Proof.
  destruct (tmp_paths_fresh fs) as (Ha & Hb & Hc & Hd).
  unfold tmp_images in Hd.
  apply lookup_insert_None in Hb as [_ Hab].
  apply lookup_insert_None in Hc as [Hc Hbc].
  apply lookup_insert_None in Hc as [_ Hac].
  apply lookup_insert_None in Hd as [Hd Hcd].
  apply lookup_insert_None in Hd as [Hd Hbd].
  apply lookup_insert_None in Hd as [_ Had].
  repeat split; assumption.
Qed.

Lemma tmp_paths_new (fs : gmap string string) :
  fs !! tmp_a fs = None ∧ fs !! tmp_b fs = None
  ∧ fs !! tmp_c fs = None ∧ fs !! tmp_d fs = None.
Proof.
  destruct (tmp_paths_fresh fs) as (Ha & Hb & Hc & Hd).
  unfold tmp_images in Hd.
  apply lookup_insert_None in Hb as [Hb _].
  apply lookup_insert_None in Hc as [Hc _].
  apply lookup_insert_None in Hc as [Hc _].
  apply lookup_insert_None in Hd as [Hd _].
  apply lookup_insert_None in Hd as [Hd _].
  apply lookup_insert_None in Hd as [Hd _].
  repeat split; assumption.
Qed.

(** Removing the four temporary files gives back the files of the start. *)
Lemma tmp_files_removed (fs : gmap string string) content :
  delete (tmp_d fs) (delete (tmp_c fs) (delete (tmp_b fs) (delete (tmp_a fs)
    (<[tmp_d fs := content]> (tmp_images fs))))) = fs.
Proof.
  destruct (tmp_paths_new fs) as (Ha & Hb & Hc & Hd).
  destruct (tmp_paths_distinct fs) as (Hab & Hac & Had & Hbc & Hbd & Hcd).
  unfold tmp_images.
  apply map_eq. intros k.
  rewrite !lookup_delete, !lookup_insert.
  repeat case_decide; subst; congruence.
Qed.

Section Files.

Variables (l : loc) (w0 : World).
Variable E : exn → World → Prop.

Lemma make_tmp_path_grown (X : gmap string string) :
  hoare (grown_with l w0 (eq X)) _make_tmp_path
    (fun p w => grown_with l w0 (eq (<[p := ""]> X)) w
                ∧ p = fresh_string "/tmp/tmp" X) E.
Proof.
  intros w [Hg HX]. subst X. cbn.
  split; [split; [exact Hg | reflexivity] | reflexivity].
Qed.

Lemma append_file_present fs0 text :
  hoare (grown_with l w0 (tmp_files_present fs0))
    (append_file (tmp_d fs0) text)
    (fun _ => grown_with l w0 (tmp_files_present fs0)) E.
Proof.
  intros w [Hg [content Hc]]. split; [exact Hg|].
  cbn. rewrite Hc, lookup_insert_eq, insert_insert_eq. cbn.
  eexists. reflexivity.
Qed.

End Files.

(** ** The rendered-diff pipeline: logs and files *)

Section Pipeline.

Variables (l : loc) (w0 : World) (fs0 : gmap string string).

Local Abbreviation present := (grown_with l w0 (tmp_files_present fs0)).
Local Abbreviation loop_raises := (loop_raises l w0 fs0).

Lemma assert_present b :
  hoare present (assert b) (fun _ => present) loop_raises.
Proof. intros w Hw. destruct b; cbn; [exact Hw|]. split; [discriminate|exact Hw]. Qed.

Lemma index_present {A} (xs : list A) i :
  hoare present (index xs i) (fun _ => present) loop_raises.
Proof.
  intros w Hw. unfold index. destruct (xs !! i); cbn; [exact Hw|].
  split; [discriminate|exact Hw].
Qed.

Lemma render_glyph_present T f cmap a_png b_png cmp_png name :
  stats f = l →
  hoare present
    (render_glyph T f cmap a_png b_png cmp_png (tmp_d fs0) name)
    (fun _ => present) loop_raises.
Proof.
  intros Hl. unfold render_glyph.
  eapply hoare_bind; [apply assert_present|]. intros ?.
  destruct (input_from_name T (paths f).1 cmap name) as [[features text]|].
  - destruct (decide (text = Text.nul)); [now apply hoare_ret|].
    eapply hoare_bind; [apply append_file_present|]. intros ?.
    destruct (identify T name a_png) as [img_info|].
    + eapply hoare_bind; [apply index_present|]. intros info0.
      eapply hoare_bind.
      { destruct (bool_decide (info0 = a_png)).
        - eapply hoare_bind; [apply index_present|]. intros info1.
          apply assert_present.
        - apply assert_present. }
      intros ?.
      eapply hoare_bind; [apply index_present|]. intros extent.
      apply append_file_present.
    + apply hoare_raise. intros w Hw. split; [discriminate|exact Hw].
  - rewrite Hl. apply append_untested_grown.
Qed.

Lemma read_lines_present :
  hoare present (read_lines (tmp_d fs0)) (fun _ => present) loop_raises.
Proof.
  intros w Hw. unfold read_lines.
  destruct Hw as [Hg [content Hc]]. rewrite Hc, lookup_insert_eq.
  split; [exact Hg|]. exists content. exact Hc.
Qed.

(** The four removals, one after the other. *)
Lemma os_remove_step (F F' : gmap string string → Prop) p E :
  (∀ fs, F fs → is_Some (fs !! p) ∧ F' (delete p fs)) →
  hoare (grown_with l w0 F) (os_remove p) (fun _ => grown_with l w0 F') E.
Proof.
  intros H w [Hg HF]. destruct (H _ HF) as [[v Hv] HF'].
  unfold os_remove. rewrite Hv. split; [exact Hg|exact HF'].
Qed.

End Pipeline.

Lemma find_rendered_diffs_world T f font_size render_path w0 :
  hoare (eq w0) (find_rendered_diffs T f font_size render_path)
    (fun f' w => grown (stats f) w0 w ∧ files w = files w0)
    (rendered_raises (stats f) w0).
Proof.
  set (l := stats f). set (fs0 := files w0). set (E := rendered_raises l w0).
  unfold find_rendered_diffs.
  eapply hoare_bind.
  { eapply hoare_conseq;
      [apply (build_names_grown l w0 (eq fs0) E f eq_refl) | |
       intros ? ? H; exact H | intros ? ? H; exact H].
    intros w <-. split; [apply grown_refl | reflexivity]. }
  intros f1. apply hoare_pure. intros [ns ->].
  eapply hoare_bind.
  { apply (build_reverse_cmap_grown l w0 (eq fs0) E (set_names f ns) ns eq_refl eq_refl). }
  intros f2. apply hoare_pure. intros [m ->].
  cbn [names reverse_cmap set_names set_reverse_cmap stats].
  eapply hoare_bind; [apply make_tmp_path_grown|].
  intros a. apply hoare_pure. intros ->. fold (tmp_a fs0).
  eapply hoare_bind; [apply make_tmp_path_grown|].
  intros b. apply hoare_pure. intros ->. fold (tmp_b fs0).
  eapply hoare_bind; [apply make_tmp_path_grown|].
  intros c. apply hoare_pure. intros ->. fold (tmp_c fs0). fold (tmp_images fs0).
  eapply hoare_bind; [apply make_tmp_path_grown|].
  intros d. apply hoare_pure. intros ->. fold (tmp_d fs0).
  assert (HE : ∀ e w, loop_raises l w0 fs0 e w → E e w).
  { intros e w [He [Hg Hp]]. split; [exact Hg|].
    destruct e; first [exact Hp | now elim He]. }
  eapply hoare_bind with (R := fun _ => grown_with l w0 (tmp_files_present fs0)).
  { eapply hoare_conseq; [apply hoare_for_each | | intros ? ? H; exact H | exact HE].
    - intros name _. apply render_glyph_present. reflexivity.
    - intros w [Hg Hf]. split; [exact Hg|]. exists "". now rewrite <- Hf. }
  intros u.
  eapply hoare_bind.
  { eapply hoare_conseq; [apply read_lines_present | intros ? H; exact H |
       intros ? ? H; exact H | exact HE]. }
  intros lines.
  eapply hoare_bind with (R := fun _ => grown_with l w0 (tmp_files_present fs0)).
  { destruct (pair_lines lines); [now apply hoare_ret|].
    apply hoare_raise. intros w [Hg Hp]. split; [exact Hg|exact Hp]. }
  intros diffs.
  destruct (tmp_paths_new fs0) as (Ha & Hb & Hc & Hd).
  destruct (tmp_paths_distinct fs0) as (Hab & Hac & Had & Hbc & Hbd & Hcd).
  eapply hoare_bind.
  { apply os_remove_step with
      (F' := fun fs => ∃ content,
               fs = delete (tmp_a fs0) (<[tmp_d fs0 := content]> (tmp_images fs0))).
    intros fs [content ->]. split; [|eauto].
    unfold tmp_images. rewrite !lookup_insert.
    repeat case_decide; subst; eauto; congruence. }
  intros ?. eapply hoare_bind.
  { apply os_remove_step with
      (F' := fun fs => ∃ content,
               fs = delete (tmp_b fs0) (delete (tmp_a fs0)
                      (<[tmp_d fs0 := content]> (tmp_images fs0)))).
    intros fs [content ->]. split; [|eauto].
    unfold tmp_images. rewrite !lookup_delete, !lookup_insert.
    repeat case_decide; subst; eauto; congruence. }
  intros ?. eapply hoare_bind.
  { apply os_remove_step with
      (F' := fun fs => ∃ content,
               fs = delete (tmp_c fs0) (delete (tmp_b fs0) (delete (tmp_a fs0)
                      (<[tmp_d fs0 := content]> (tmp_images fs0))))).
    intros fs [content ->]. split; [|eauto].
    unfold tmp_images. rewrite !lookup_delete, !lookup_insert.
    repeat case_decide; subst; eauto; congruence. }
  intros ?. eapply hoare_bind.
  { apply os_remove_step with (F' := eq fs0).
    intros fs [content ->]. split.
    - unfold tmp_images. rewrite !lookup_delete, !lookup_insert.
      repeat case_decide; subst; eauto; congruence.
    - symmetry. apply tmp_files_removed. }
  intros ?.
  eapply hoare_bind with (R := fun _ => grown_with l w0 (eq fs0)).
  { destruct (rendered_mismatched diffs ∅); [now apply hoare_ret|].
    apply hoare_raise. intros w [Hg Hf]. split; [exact Hg|]. now rewrite <- Hf. }
  intros mismatched.
  eapply hoare_bind.
  { apply hoare_for_each. intros item _. apply append_compared_grown. }
  intros ?. apply hoare_ret. intros w [Hg Hf]. split; [exact Hg|]. now rewrite <- Hf.
Qed.

(** [find_area_diffs] ends in the world that [build_names] leaves: its last
    loop appends nothing. *)
Lemma for_each_area_record f items w :
  final_world (for_each items (append_area_record f) w) = w.
Proof.
  destruct items as [|[name areas] items]; [reflexivity|].
  cbn [for_each]. unfold bind, append_area_record.
  destruct (calc_of f areas); reflexivity.
Qed.

Lemma find_area_diffs_final f w :
  final_world (find_area_diffs f w) = final_world (build_names f w).
Proof.
  unfold find_area_diffs, bind.
  destruct (names f) as [ns|] eqn:Hn.
  - rewrite (build_names_again f ns w Hn). rewrite Hn.
    pose proof (for_each_area_record f
      (map_to_list (area_mismatched (fonts f).1 (fonts f).2 (elements ns))) w) as H.
    destruct (for_each _ _ w); cbn in *; exact H.
  - destruct (build_names_first f w Hn) as (w' & Hrun & _). rewrite Hrun.
    cbn [names set_names].
    pose proof (for_each_area_record (set_names f (names_a f ∩ names_b f))
      (map_to_list (area_mismatched (fonts (set_names f (names_a f ∩ names_b f))).1
                      (fonts (set_names f (names_a f ∩ names_b f))).2
                      (elements (names_a f ∩ names_b f)))) w') as H.
    destruct (for_each _ _ w'); cbn in *; exact H.
Qed.

Lemma build_names_final_grown f w : grown (stats f) w (final_world (build_names f w)).
Proof.
  pose proof (build_names_grown (stats f) w (fun _ => True)
                (fun _ w' => grown (stats f) w w') f eq_refl w) as H.
  destruct (build_names f w) as [f' w'|e w']; cbn.
  - apply H. split; [apply grown_refl|exact I].
  - apply H. split; [apply grown_refl|exact I].
Qed.

Lemma build_reverse_cmap_final_grown f w :
  grown (stats f) w (final_world (build_reverse_cmap f w)).
Proof.
  destruct (names f) as [ns|] eqn:Hn.
  - pose proof (build_reverse_cmap_grown (stats f) w (fun _ => True)
                  (fun _ w' => grown (stats f) w w') f ns eq_refl Hn w) as H.
    destruct (build_reverse_cmap f w) as [f' w'|e w']; cbn;
      apply H; (split; [apply grown_refl|exact I]).
  - unfold build_reverse_cmap. rewrite Hn.
    destruct (reverse_cmap f); cbn; apply grown_refl.
Qed.

(** X16. Creating a ShapeDiffFinder over a stats structure binds its four
    logs to new empty lists, whatever they held (the stats of other
    instances are not touched); from then on the session only appends:
    whether they return or raise, [build_names], [build_reverse_cmap],
    [find_area_diffs] and [find_rendered_diffs] leave every log with its
    former entries as a prefix. *)
Theorem stats_logs_lifecycle :
  (∀ file_a file_b font_a font_b l ratio w,
      ∃ f w', __init__ file_a file_b font_a font_b l ratio w = Ok f w'
              ∧ stats f = l
              ∧ stats_at l w' = empty_stats
              ∧ ∀ l', l' ≠ l → stats_at l' w' = stats_at l' w)
  ∧ (∀ f w, grown (stats f) w (final_world (build_names f w)))
  ∧ (∀ f w, grown (stats f) w (final_world (build_reverse_cmap f w)))
  ∧ (∀ f w, grown (stats f) w (final_world (find_area_diffs f w)))
  ∧ (∀ T f font_size render_path w,
        grown (stats f) w
          (final_world (find_rendered_diffs T f font_size render_path w))).
Proof.
  split; [|split; [|split; [|split]]].
  - intros. rewrite init_ok. eexists _, _. split; [reflexivity|].
    split; [reflexivity|]. split; [apply stats_at_set_stats|].
    intros l' Hl'. now apply stats_at_set_stats_ne.
  - apply build_names_final_grown.
  - apply build_reverse_cmap_final_grown.
  - intros f w. rewrite find_area_diffs_final. apply build_names_final_grown.
  - intros T f font_size render_path w.
    pose proof (find_rendered_diffs_world T f font_size render_path w w eq_refl) as H.
    destruct (find_rendered_diffs T f font_size render_path w); cbn; apply H.
Qed.

(** C9 (amended). A run of the rendered-diff pipeline that gets through the
    per-glyph loop and reads the diff log in pairs has removed its four
    temporary files when it ends, leaving the files as it found them: this
    is the success path, and also the run that a malformed metric aborts
    ([ValueError] is raised after the removal).  A run aborted by any other
    exception ends with the four files still in place. *)
Theorem tmp_files_cleanup T f font_size render_path w :
  match find_rendered_diffs T f font_size render_path w with
  | Ok _ w' => files w' = files w
  | Raise ValueError w' => files w' = files w
  | Raise _ w' => tmp_files_present (files w) (files w')
  end
  ∧ files w !! tmp_a (files w) = None ∧ files w !! tmp_b (files w) = None
  ∧ files w !! tmp_c (files w) = None ∧ files w !! tmp_d (files w) = None.
Proof.
  split; [|apply tmp_paths_new].
  pose proof (find_rendered_diffs_world T f font_size render_path w w eq_refl) as H.
  destruct (find_rendered_diffs T f font_size render_path w) as [f' w'|e w'].
  - apply H.
  - destruct H as [_ H]. destruct e; exact H.
Qed.

(** C9 as stated fails: when the two fonts disagree on the shaping input
    of a glyph the run is aborted by the assertion, and the two images, the
    comparison image and the diff log are all left behind. *)
Lemma aborted_run_leaves_tmp_files :
  ∃ w',
    scenario_rendered_run disagreeing_tools = Raise AssertionError w'
    ∧ files empty_world = ∅
    ∧ files w' !! "/tmp/tmp" = Some ""
    ∧ files w' !! "/tmp/tmp0" = Some ""
    ∧ files w' !! "/tmp/tmp1" = Some ""
    ∧ files w' !! "/tmp/tmp2" = Some "".
Proof.
  eexists. split; [vm_compute; reflexivity|]. split; [reflexivity|].
  repeat split; vm_compute; reflexivity.
Qed.

(** ** Reading the diff log *)

Lemma str_app_cons a s t : String a s +:+ t = String a (s +:+ t).
Proof. reflexivity. Qed.

Lemma str_app_assoc s1 s2 s3 : (s1 +:+ s2) +:+ s3 = s1 +:+ s2 +:+ s3.
Proof.
  induction s1 as [|a s1 IH]; [reflexivity|].
  rewrite !str_app_cons. now rewrite IH.
Qed.

Lemma has_newline_cons c s :
  Text.has_newline (String c s) = false → c ≠ Text.newline ∧ Text.has_newline s = false.
Proof.
  cbn. intros H. apply orb_false_iff in H as [H1 H2].
  split; [|exact H2]. now apply bool_decide_eq_false in H1.
Qed.

Lemma readlines_line s rest :
  Text.has_newline s = false →
  Text.readlines (s +:+ String Text.newline rest)
  = (s +:+ String Text.newline "") :: Text.readlines rest.
Proof.
  induction s as [|c s IH]; intros Hs.
  - change ("" +:+ String Text.newline rest) with (String Text.newline rest).
    cbn [Text.readlines]. now rewrite decide_True.
  - apply has_newline_cons in Hs as [Hc Hs].
    rewrite !str_app_cons. cbn [Text.readlines].
    rewrite decide_False by assumption. now rewrite IH.
Qed.

Lemma rstrip_newline s :
  Text.rstrip (s +:+ String Text.newline "") = Text.rstrip s.
Proof.
  induction s as [|c s IH]; [reflexivity|].
  rewrite str_app_cons. cbn [Text.rstrip]. now rewrite IH.
Qed.

Lemma strip_newline s :
  Text.strip (s +:+ String Text.newline "") = Text.strip s.
Proof.
  unfold Text.strip. induction s as [|c s IH]; [reflexivity|].
  rewrite str_app_cons. cbn [Text.lstrip].
  destruct (Ascii.is_space c); [exact IH|].
  rewrite <- str_app_cons. apply rstrip_newline.
Qed.

Section Log.

Variable T : Tools.

Lemma readlines_log ns :
  (∀ n, n ∈ ns → glyph_name_ok n ∧ one_metric_line T n) →
  Text.readlines (log_text T ns)
  = ns ≫= fun n => [n +:+ String Text.newline ""; compare_stderr T n].
Proof.
  induction ns as [|n ns IH]; intros H; [reflexivity|].
  destruct (H n) as [[Hn _] [(line & Hline & Hl) _]]; [apply list_elem_of_here|].
  cbn [log_text foldr]. fold (log_text T ns).
  rewrite readlines_line by assumption.
  rewrite Hline, str_app_assoc.
  change (String Text.newline "" +:+ log_text T ns)
    with (String Text.newline (log_text T ns)).
  rewrite readlines_line by assumption.
  rewrite IH by (intros n' Hn'; now apply H, list_elem_of_further).
  cbn [mbind list_bind app]. now rewrite Hline.
Qed.

Lemma pair_lines_log ns :
  (∀ n, n ∈ ns → glyph_name_ok n) →
  pair_lines (ns ≫= fun n => [n +:+ String Text.newline ""; compare_stderr T n])
  = Some ((fun n => (n, Text.strip (compare_stderr T n))) <$> ns).
Proof.
  induction ns as [|n ns IH]; intros H; [reflexivity|].
  cbn [mbind list_bind app pair_lines].
  rewrite IH by (intros n' Hn'; now apply H, list_elem_of_further).
  destruct (H n) as [_ Hn]; [apply list_elem_of_here|].
  cbn. now rewrite strip_newline, Hn.
Qed.

Lemma rendered_mismatched_items ns :
  NoDup ns → (∀ n, n ∈ ns → is_Some (reported_metric T n)) →
  ∀ m0 : gmap string Z, (∀ n, n ∈ ns → m0 !! n = None) →
  ∃ m,
    rendered_mismatched
      ((fun n => (n, Text.strip (compare_stderr T n))) <$> ns) m0 = Some m
    ∧ map_to_list m ≡ₚ map_to_list m0 ++ expected_items T ns.
Proof.
  induction ns as [|n ns IH]; intros Hnd Hint m0 Hm0.
  - exists m0. split; [reflexivity|]. cbn. now rewrite app_nil_r.
  - apply NoDup_cons in Hnd as [Hn Hnd].
    destruct (Hint n) as [d Hd]; [apply list_elem_of_here|].
    cbn [fmap list_fmap rendered_mismatched].
    unfold reported_metric in Hd. rewrite Hd.
    unfold expected_items. cbn [omap list_omap].
    unfold nonzero_item at 1, reported_metric. rewrite Hd.
    destruct (decide (d ≠ 0)) as [Hnz|Hz].
    + destruct (IH Hnd (fun n' Hn' => Hint n' (list_elem_of_further _ _ _ Hn'))
                  (<[n := d]> m0)) as (m & Hm & Hperm).
      { intros n' Hn'. rewrite lookup_insert_ne.
        - now apply Hm0, list_elem_of_further.
        - intros ->. contradiction. }
      exists m. split; [exact Hm|].
      rewrite Hperm, map_to_list_insert by (apply Hm0, list_elem_of_here).
      cbn. apply Permutation_middle.
    + destruct (IH Hnd (fun n' Hn' => Hint n' (list_elem_of_further _ _ _ Hn')) m0)
        as (m & Hm & Hperm).
      { intros n' Hn'. now apply Hm0, list_elem_of_further. }
      exists m. split; [exact Hm|exact Hperm].
Qed.

End Log.

(** ** The rendered-diff pipeline: a run without fault *)

Lemma returns_ret {A} (P : World → Prop) (a : A) (Q : A → World → Prop) :
  (∀ w, P w → Q a w) → returns P (ret a) Q.
Proof. intros H w Hw. exists a, w. split; [reflexivity|now apply H]. Qed.

Lemma returns_bind {A B} (P : World → Prop) (m : M A) (k : A → M B) R Q :
  returns P m R → (∀ a, returns (R a) (k a) Q) → returns P (bind m k) Q.
Proof.
  intros Hm Hk w Hw. destruct (Hm w Hw) as (a & w1 & Hrun & HR).
  destruct (Hk a w1 HR) as (b & w2 & Hrun2 & HQ).
  exists b, w2. split; [|exact HQ]. unfold bind. now rewrite Hrun.
Qed.

Lemma returns_conseq {A} (P P' : World → Prop) (m : M A) (Q Q' : A → World → Prop) :
  returns P m Q → (∀ w, P' w → P w) → (∀ a w, Q a w → Q' a w) → returns P' m Q'.
Proof.
  intros H HP HQ w Hw. destruct (H w (HP w Hw)) as (a & w' & Hrun & Ha).
  exists a, w'. split; [exact Hrun|now apply HQ].
Qed.

Lemma returns_pure {A} (φ : Prop) (P : World → Prop) (m : M A) Q :
  (φ → returns P m Q) → returns (fun w => P w ∧ φ) m Q.
Proof. intros H w [Hw Hφ]. now apply H. Qed.

Section Steps.

Variables (l : loc) (X : gmap string string) (U : list string) (C : list DiffRecord).

Lemma make_tmp_path_returns :
  returns (summary l X U C) _make_tmp_path
    (fun p w => summary l (<[p := ""]> X) U C w ∧ p = fresh_string "/tmp/tmp" X).
Proof.
  intros w (Hf & Hu & Hc). eexists _, _. split; [reflexivity|].
  subst X. repeat split; assumption.
Qed.

Lemma append_file_returns p text :
  returns (summary l X U C) (append_file p text)
    (fun _ => summary l (<[p := default "" (X !! p) +:+ text]> X) U C).
Proof.
  intros w (Hf & Hu & Hc). eexists _, _. split; [reflexivity|].
  subst X. repeat split; assumption.
Qed.

Lemma read_lines_returns p content :
  X !! p = Some content →
  returns (summary l X U C) (read_lines p)
    (fun lines w => summary l X U C w ∧ lines = Text.readlines content).
Proof.
  intros Hp w (Hf & Hu & Hc). unfold read_lines. rewrite Hf, Hp.
  eexists _, _. split; [reflexivity|]. repeat split; assumption.
Qed.

Lemma os_remove_returns p :
  is_Some (X !! p) →
  returns (summary l X U C) (os_remove p) (fun _ => summary l (delete p X) U C).
Proof.
  intros [v Hp] w (Hf & Hu & Hc). unfold os_remove. rewrite Hf, Hp.
  eexists _, _. split; [reflexivity|]. subst X. repeat split; assumption.
Qed.

Lemma append_untested_returns name :
  returns (summary l X U C) (append_untested l name)
    (fun _ => summary l X (U ++ [name]) C).
Proof.
  intros w (Hf & Hu & Hc). eexists _, _. split; [reflexivity|].
  unfold summary. rewrite stats_at_set_stats. cbn. subst. repeat split.
Qed.

Lemma append_compared_returns r :
  returns (summary l X U C) (append_compared l r)
    (fun _ => summary l X U (C ++ [r])).
Proof.
  intros w (Hf & Hu & Hc). eexists _, _. split; [reflexivity|].
  unfold summary. rewrite stats_at_set_stats. cbn. subst. repeat split.
Qed.

End Steps.

Lemma append_all_compared_returns {A} l X U (g : A → DiffRecord) items :
  ∀ C, returns (summary l X U C)
         (for_each items (fun item => append_compared l (g item)))
         (fun _ => summary l X U (C ++ (g <$> items))).
Proof.
  induction items as [|x items IH]; intros C; cbn [for_each fmap list_fmap].
  - apply returns_ret. intros w Hw. now rewrite app_nil_r.
  - eapply returns_bind; [apply append_compared_returns|].
    intros u.
    eapply returns_conseq; [apply (IH (C ++ [g x])) | intros ? H; exact H |].
    intros ? w Hw. cbn beta in Hw. now rewrite <- app_assoc in Hw.
Qed.

Section Loop.

Variables (T : Tools) (f : Finder) (cmap : gmap string N).
Variables (a_png b_png cmp_png diffs_filename : string).
Variables (F3 : gmap string string) (C : list DiffRecord).

Local Abbreviation body :=
  (render_glyph T f cmap a_png b_png cmp_png diffs_filename).
Local Abbreviation input_a := (input_from_name T (paths f).1 cmap).
Local Abbreviation input_b := (input_from_name T (paths f).2 cmap).

Lemma render_glyph_unreachable name w :
  input_a name = None → input_b name = None →
  body name w = append_untested (stats f) name w.
Proof.
  intros Ha Hb. unfold render_glyph. rewrite Ha, Hb.
  rewrite bool_decide_true by reflexivity. reflexivity.
Qed.

Lemma render_glyph_null name features w :
  input_a name = Some (features, Text.nul) →
  input_b name = Some (features, Text.nul) →
  body name w = Ok tt w.
Proof.
  intros Ha Hb. unfold render_glyph. rewrite Ha, Hb.
  rewrite bool_decide_true by reflexivity.
  unfold bind, assert, ret. now rewrite decide_True.
Qed.

Lemma render_glyph_rendered name features text geom rest w :
  input_a name = Some (features, text) →
  input_b name = Some (features, text) →
  text ≠ Text.nul →
  identify T name a_png = Some (a_png :: "PNG" :: geom :: rest) →
  body name w
  = (append_file diffs_filename (name +:+ String Text.newline "") ;;
     append_file diffs_filename (compare_stderr T name)) w.
Proof.
  intros Ha Hb Hnul Hid. unfold render_glyph. rewrite Ha, Hb.
  rewrite bool_decide_true by reflexivity.
  unfold bind at 1. unfold assert at 1. unfold ret at 1.
  rewrite decide_False by assumption. rewrite Hid.
  unfold bind, index, assert, ret, append_file. cbn [lookup list_lookup].
  rewrite !bool_decide_true by reflexivity. reflexivity.
Qed.

(** The per-glyph loop, when the two fonts agree on every shaping input
    and [identify] describes the first image as a PNG: it returns, having
    logged the unreachable glyphs in [untested] and written one entry in
    the diff log for each rendered glyph. *)
Lemma render_loop_returns ns :
  (∀ n, n ∈ ns → input_a n = input_b n) →
  (∀ n, n ∈ ns → is_rendered T (paths f).1 cmap n = true →
        ∃ geom rest, identify T n a_png = Some (a_png :: "PNG" :: geom :: rest)) →
  ∀ content U,
    returns (summary (stats f) (<[diffs_filename := content]> F3) U C)
      (for_each ns body)
      (fun _ =>
         summary (stats f)
           (<[diffs_filename :=
                content +:+ log_text T (filter (fun n => is_rendered T (paths f).1 cmap n) ns)]> F3)
           (U ++ filter (fun n => is_unreachable T (paths f).1 cmap n) ns) C).
Proof.
  induction ns as [|n ns IH]; intros Hagree Hid content U; cbn [for_each].
  - apply returns_ret. intros w Hw. rewrite !filter_nil, app_nil_r. cbn.
    assert (Hnil : ∀ s, s +:+ "" = s).
    { intros s. induction s as [|x s IHs]; [reflexivity|].
      rewrite str_app_cons. now rewrite IHs. }
    now rewrite Hnil.
  - assert (Hagree' : ∀ n', n' ∈ ns → input_a n' = input_b n')
      by (intros; now apply Hagree, list_elem_of_further).
    assert (Hid' : ∀ n', n' ∈ ns → is_rendered T (paths f).1 cmap n' = true →
              ∃ geom rest, identify T n' a_png = Some (a_png :: "PNG" :: geom :: rest))
      by (intros; now apply Hid; [apply list_elem_of_further|]).
    specialize (IH Hagree' Hid').
    pose proof (Hagree n (list_elem_of_here _ _)) as Hn.
    pose proof (Hid n (list_elem_of_here _ _)) as Hidn.
    assert (Hcase : input_a n = None
                    ∨ (∃ features, input_a n = Some (features, Text.nul))
                    ∨ (∃ features text, input_a n = Some (features, text)
                                        ∧ text ≠ Text.nul)).
    { destruct (input_a n) as [[features text]|]; [|now left].
      right. destruct (decide (text = Text.nul)) as [->|Hnul]; eauto. }
    destruct Hcase as [Ha|[(features & Ha)|(features & text & Ha & Hnul)]].
    + assert (Hr : is_rendered T (paths f).1 cmap n = false)
        by (unfold is_rendered; now rewrite Ha).
      assert (Hu : is_unreachable T (paths f).1 cmap n = true)
        by (unfold is_unreachable; now rewrite Ha).
      rewrite filter_cons_False by (rewrite Hr; exact id).
      rewrite filter_cons_True by (rewrite Hu; exact I).
      eapply returns_bind.
      { intros w Hw.
        rewrite render_glyph_unreachable by (try assumption; now rewrite <- Hn).
        revert w Hw. apply append_untested_returns. }
      intros u.
      eapply returns_conseq; [apply (IH content (U ++ [n])) | intros ? H; exact H |].
      intros ? w Hw. cbn beta in Hw. now rewrite <- app_assoc in Hw.
    + assert (Hr : is_rendered T (paths f).1 cmap n = false)
        by (unfold is_rendered; rewrite Ha; now rewrite bool_decide_true).
      assert (Hu : is_unreachable T (paths f).1 cmap n = false)
        by (unfold is_unreachable; now rewrite Ha).
      rewrite filter_cons_False by (rewrite Hr; exact id).
      rewrite filter_cons_False by (rewrite Hu; exact id).
      eapply returns_bind; [|intros u; apply IH].
      intros w Hw. exists tt, w. split; [|exact Hw].
      apply render_glyph_null with features; [assumption|now rewrite <- Hn].
    + assert (Hr : is_rendered T (paths f).1 cmap n = true)
        by (unfold is_rendered; rewrite Ha; now rewrite bool_decide_false).
      assert (Hu : is_unreachable T (paths f).1 cmap n = false)
        by (unfold is_unreachable; now rewrite Ha).
      rewrite filter_cons_True by (rewrite Hr; exact I).
      rewrite filter_cons_False by (rewrite Hu; exact id).
      destruct (Hidn Hr) as (geom & rest & Hident).
      eapply returns_bind.
      { intros w Hw.
        rewrite (render_glyph_rendered n features text geom rest w)
          by (try assumption; now rewrite <- Hn).
        revert w Hw. eapply returns_bind; [apply append_file_returns|].
        intros u. apply append_file_returns. }
      intros u. cbn beta.
      rewrite lookup_insert_eq. cbn [default from_option id].
      rewrite insert_insert_eq, lookup_insert_eq. cbn [default from_option id].
      rewrite insert_insert_eq.
      eapply returns_conseq; [apply IH | intros ? H; exact H |].
      intros ? w Hw. cbn beta in Hw. unfold log_text in *. cbn [foldr].
      rewrite !str_app_assoc in Hw. exact Hw.
Qed.

End Loop.

Lemma returns_bind_ret {A B} (P : World → Prop) (a : A) (k : A → M B) Q :
  returns P (k a) Q → returns P (bind (ret a) k) Q.
Proof. intros H w Hw. exact (H w Hw). Qed.

Lemma build_names_returns f X U C :
  names f = None →
  returns (summary (stats f) X U C) (build_names f)
    (fun f' w => summary (stats f) X U C w
                 ∧ f' = set_names f (names_a f ∩ names_b f)).
Proof.
  intros Hn w (Hf & Hu & Hc).
  destruct (build_names_first f w Hn) as (w' & Hrun & Hfiles & _ & Hcomp & Hunt & _).
  eexists _, w'. split; [exact Hrun|]. unfold summary.
  rewrite Hfiles, Hunt, Hcomp. auto.
Qed.

Lemma build_reverse_cmap_returns f ns X U C :
  reverse_cmap f = None → names f = Some ns →
  returns (summary (stats f) X U C) (build_reverse_cmap f)
    (fun f' w => summary (stats f) X U C w
                 ∧ f' = set_reverse_cmap f
                          (reconciled_cmap (fonts f).1 (fonts f).2 ns)).
Proof.
  intros Hc Hn w (Hf & Hu & Hcm).
  destruct (build_reverse_cmap_first f ns w Hc Hn)
    as (w' & Hrun & Hfiles & _ & Hcomp & Hunt & _).
  eexists _, w'. split; [exact Hrun|]. unfold summary.
  rewrite Hfiles, Hunt, Hcomp. auto.
Qed.

(** A run of the pipeline without fault, in a finder that has built
    nothing yet. *)
Lemma find_rendered_diffs_returns T f font_size render_path X U C :
  names f = None → reverse_cmap f = None →
  let shared := names_a f ∩ names_b f in
  let cmap := reconciled_cmap (fonts f).1 (fonts f).2 shared in
  let rendered :=
    filter (fun n => is_rendered T (paths f).1 cmap n) (elements shared) in
  let unreachable :=
    filter (fun n => is_unreachable T (paths f).1 cmap n) (elements shared) in
  (∀ n, n ∈ shared →
        input_from_name T (paths f).1 cmap n = input_from_name T (paths f).2 cmap n) →
  (∀ n, n ∈ rendered →
        ∃ geom rest, identify T n (tmp_a X) = Some (tmp_a X :: "PNG" :: geom :: rest)) →
  (∀ n, n ∈ rendered → glyph_name_ok n ∧ one_metric_line T n) →
  returns (summary (stats f) X U C)
    (find_rendered_diffs T f font_size render_path)
    (fun f' w =>
       ∃ new, summary (stats f) X (U ++ unreachable) (C ++ new) w
              ∧ new ≡ₚ rendered_record f <$> expected_items T rendered).
Proof.
  intros Hn Hc shared cmap rendered unreachable Hagree Hid Hlog.
  unfold find_rendered_diffs.
  eapply returns_bind; [now apply build_names_returns|].
  intros f1. apply returns_pure. intros ->.
  eapply returns_bind.
  { apply (build_reverse_cmap_returns (set_names f shared) shared); [exact Hc|reflexivity]. }
  intros f2. apply returns_pure. intros ->.
  cbn [names reverse_cmap set_names set_reverse_cmap stats fonts].
  fold cmap.
  eapply returns_bind; [apply make_tmp_path_returns|].
  intros a. apply returns_pure. intros ->. fold (tmp_a X).
  eapply returns_bind; [apply make_tmp_path_returns|].
  intros b. apply returns_pure. intros ->. fold (tmp_b X).
  eapply returns_bind; [apply make_tmp_path_returns|].
  intros c. apply returns_pure. intros ->. fold (tmp_c X). fold (tmp_images X).
  eapply returns_bind; [apply make_tmp_path_returns|].
  intros d. apply returns_pure. intros ->. fold (tmp_d X).
  eapply returns_bind.
  { apply (render_loop_returns T (set_reverse_cmap (set_names f shared) cmap) cmap
             (tmp_a X) (tmp_b X) (tmp_c X) (tmp_d X) (tmp_images X) C
             (elements shared)).
    - intros n Hin. apply Hagree. now apply elem_of_elements.
    - intros n Hin Hr. apply Hid. apply list_elem_of_filter. split; [|exact Hin].
      cbn [paths set_reverse_cmap set_names] in Hr. now rewrite Hr. }
  intros u. cbn [paths set_reverse_cmap set_names stats].
  fold rendered unreachable.
  change ("" +:+ log_text T rendered) with (log_text T rendered).
  eapply returns_bind; [apply read_lines_returns, lookup_insert_eq|].
  intros lines. apply returns_pure. intros ->.
  rewrite (readlines_log T rendered Hlog).
  rewrite (pair_lines_log T rendered) by (intros n Hin; now apply Hlog).
  apply returns_bind_ret.
  destruct (tmp_paths_new X) as (Ha & Hb & Hcn & Hd).
  destruct (tmp_paths_distinct X) as (Hab & Hac & Had & Hbc & Hbd & Hcd).
  eapply returns_bind.
  { apply os_remove_returns. unfold tmp_images. rewrite !lookup_insert.
    repeat case_decide; subst; eauto; congruence. }
  intros ?. eapply returns_bind.
  { apply os_remove_returns. unfold tmp_images.
    rewrite !lookup_delete, !lookup_insert.
    repeat case_decide; subst; eauto; congruence. }
  intros ?. eapply returns_bind.
  { apply os_remove_returns. unfold tmp_images.
    rewrite !lookup_delete, !lookup_insert.
    repeat case_decide; subst; eauto; congruence. }
  intros ?. eapply returns_bind.
  { apply os_remove_returns. unfold tmp_images.
    rewrite !lookup_delete, !lookup_insert.
    repeat case_decide; subst; eauto; congruence. }
  intros ?. rewrite tmp_files_removed.
  destruct (rendered_mismatched_items T rendered) with (m0 := (∅ : gmap string Z))
    as (m & Hm & Hperm).
  { apply NoDup_filter, NoDup_elements. }
  { intros n Hin. now apply Hlog. }
  { intros n _. apply lookup_empty. }
  rewrite Hm. apply returns_bind_ret.
  eapply returns_bind.
  { apply (append_all_compared_returns (stats f) X (U ++ unreachable)
             (rendered_record (set_reverse_cmap (set_names f shared) cmap))). }
  intros ?. apply returns_ret. intros w Hw.
  eexists. split; [exact Hw|].
  rewrite map_to_list_empty, app_nil_l in Hperm.
  rewrite Hperm. reflexivity.
Qed.

(** C7. In a new session whose run meets no fault (the two fonts agree on
    the shaping input of every shared glyph, [identify] describes the first
    image as a PNG, and [compare] writes one line holding an integer for
    each rendered glyph, none of whose names contains a newline or
    surrounding blanks), [find_rendered_diffs] returns and:
    - [untested] lists the shared glyphs with no shaping input, each once;
    - [compared] holds, up to order, the records [(metric, name, label)] of
      the log entries whose metric is not zero, and nothing else;
    - so no untested glyph and no glyph whose pixel difference is zero has
      a record in [compared], and every other rendered glyph has its
      record. *)
Theorem rendered_diffs_logs T file_a file_b font_a font_b l ratio
    font_size render_path w :
  let shared : gset string :=
    list_to_set (glyph_order font_a) ∩ list_to_set (glyph_order font_b) in
  let cmap := reconciled_cmap font_a font_b shared in
  let rendered := filter (fun n => is_rendered T file_a cmap n) (elements shared) in
  let unreachable :=
    filter (fun n => is_unreachable T file_a cmap n) (elements shared) in
  (∀ n, n ∈ shared →
        input_from_name T file_a cmap n = input_from_name T file_b cmap n) →
  (∀ n, n ∈ rendered →
        ∃ geom rest,
          identify T n (tmp_a (files w))
          = Some (tmp_a (files w) :: "PNG" :: geom :: rest)) →
  (∀ n, n ∈ rendered → glyph_name_ok n ∧ one_metric_line T n) →
  ∃ f w',
    (let! f := __init__ file_a file_b font_a font_b l ratio in
     find_rendered_diffs T f font_size render_path) w = Ok f w'
    ∧ untested (stats_at l w') = unreachable
    ∧ NoDup unreachable
    ∧ compared (stats_at l w')
      ≡ₚ (fun item => {| metric := PyInt item.2; glyph := item.1;
                         source := Text.basename file_a; raw := None |})
         <$> expected_items T rendered
    ∧ (∀ r, r ∈ compared (stats_at l w') →
            glyph r ∈ rendered
            ∧ ∃ d, reported_metric T (glyph r) = Some d ∧ d ≠ 0
                   ∧ r = {| metric := PyInt d; glyph := glyph r;
                            source := Text.basename file_a; raw := None |})
    ∧ (∀ n r, n ∈ unreachable → r ∈ compared (stats_at l w') → glyph r ≠ n)
    ∧ (∀ n r, reported_metric T n = Some 0 →
              r ∈ compared (stats_at l w') → glyph r ≠ n)
    ∧ (∀ n d, n ∈ rendered → reported_metric T n = Some d → d ≠ 0 →
              {| metric := PyInt d; glyph := n;
                 source := Text.basename file_a; raw := None |}
              ∈ compared (stats_at l w')).
Proof.
  intros shared cmap rendered unreachable Hagree Hid Hlog.
  unfold bind at 1. rewrite init_ok.
  set (f0 := {| paths := (file_a, file_b); fonts := (font_a, font_b);
                ratio_diffs := ratio; stats := l;
                basepath := Text.basename file_a;
                names := None; reverse_cmap := None |}).
  set (w1 := set_stats l empty_stats w).
  destruct (find_rendered_diffs_returns T f0 font_size render_path
              (files w) [] [] eq_refl eq_refl Hagree Hid Hlog w1)
    as (f & w' & Hrun & new & (Hfiles & Hunt & Hcomp) & Hperm).
  { unfold w1. split; [reflexivity|].
    change (stats f0) with l. rewrite stats_at_set_stats. split; reflexivity. }
  change (stats f0) with l in Hunt, Hcomp.
  rewrite app_nil_l in Hunt, Hcomp.
  change (rendered_record f0) with
    (fun item : string * Z =>
       {| metric := PyInt item.2; glyph := item.1;
          source := Text.basename file_a; raw := None |}) in Hperm.
  change (filter _ (elements (names_a f0 ∩ names_b f0))) with rendered in Hperm.
  exists f, w'. split; [exact Hrun|]. split; [exact Hunt|].
  split; [apply NoDup_filter, NoDup_elements|].
  rewrite Hcomp. split; [exact Hperm|].
  assert (Hin : ∀ r, r ∈ new ↔
            ∃ n d, n ∈ rendered ∧ reported_metric T n = Some d ∧ d ≠ 0
                   ∧ r = {| metric := PyInt d; glyph := n;
                            source := Text.basename file_a; raw := None |}).
  { intros r. rewrite Hperm, list_elem_of_fmap. unfold expected_items. split.
    - intros ([n d] & -> & Hitem). apply list_elem_of_omap in Hitem as (n' & Hn' & Hitem).
      unfold nonzero_item in Hitem.
      destruct (reported_metric T n') as [d'|] eqn:Hd; [|discriminate].
      destruct (decide (d' ≠ 0)); [|discriminate].
      injection Hitem as -> ->. exists n, d. auto.
    - intros (n & d & Hn & Hd & Hnz & ->). exists (n, d). split; [reflexivity|].
      apply list_elem_of_omap. exists n. split; [exact Hn|].
      unfold nonzero_item. rewrite Hd. now rewrite decide_True. }
  split; [|split; [|split]].
  - intros r (n & d & Hn & Hd & Hnz & ->)%Hin. cbn. eauto.
  - intros n r Hn (n' & d & Hn' & Hd & Hnz & ->)%Hin. cbn. intros ->.
    apply list_elem_of_filter in Hn as [Hn _], Hn' as [Hn' _].
    unfold is_unreachable in Hn. unfold is_rendered in Hn'.
    destruct (input_from_name T file_a cmap n) as [[? ?]|]; [exact Hn|exact Hn'].
  - intros n r Hzero (n' & d & Hn' & Hd & Hnz & ->)%Hin. cbn. intros ->.
    congruence.
  - intros n d Hn Hd Hnz. apply Hin. eauto 10.
Qed.

Lemma rendered_diffs_logs_witness :
  ∃ f w',
    scenario_rendered_run agreeing_tools = Ok f w'
    ∧ untested (stats_at 0%nat w') = ["c"]
    ∧ compared (stats_at 0%nat w')
      ≡ₚ [ {| metric := PyInt 12; glyph := "b"; source := "A.ttf"; raw := None |} ].
Proof.
  destruct (rendered_diffs_logs agreeing_tools "fonts/A.ttf" "fonts/B.ttf"
              scenario_font_a scenario_font_b 0%nat false 256 None empty_world)
    as (f & w' & Hrun & Hunt & _ & Hperm & _).
  - intros n _. reflexivity.
  - intros n _. eexists _, _. reflexivity.
  - intros n Hn. vm_compute in Hn.
    apply elem_of_cons in Hn as [->|Hn]; [|apply elem_of_cons in Hn as [->|Hn]].
    + split; [split; reflexivity|].
      split; [eexists; split; reflexivity | eexists; vm_compute; reflexivity].
    + split; [split; reflexivity|].
      split; [eexists; split; reflexivity | eexists; vm_compute; reflexivity].
    + now apply elem_of_nil in Hn.
  - exists f, w'. split; [exact Hrun|]. split.
    + rewrite Hunt. vm_compute. reflexivity.
    + rewrite Hperm. vm_compute. reflexivity.
Defined.

(** Whatever the fonts, [find_area_diffs] leaves [compared] as it found
    it: the only append of the method is never reached. *)
Lemma find_area_diffs_appends_nothing f w :
  compared (stats_at (stats f) (final_world (find_area_diffs f w)))
  = compared (stats_at (stats f) w).
Proof.
  rewrite find_area_diffs_final.
  destruct (names f) as [ns|] eqn:Hn.
  - now rewrite (build_names_again f ns w Hn).
  - destruct (build_names_first f w Hn) as (w' & Hrun & _ & _ & Hc & _).
    now rewrite Hrun.
Qed.

(** * Further properties *)

(** ** The two metrics *)

Lemma to_Q_abs a : (Num.to_Q (Num.abs a) == Qabs (Num.to_Q a))%Q.
Proof. destruct a as [z|q]; reflexivity. Qed.

Lemma Qabs_zero_iff x : (Qabs x == 0 ↔ x == 0)%Q.
Proof.
  split; intros H.
  - apply Qle_antisym.
    + rewrite <- H. apply Qle_Qabs.
    + rewrite <- (Qopp_involutive x). rewrite <- (Qopp_involutive 0).
      apply Qopp_le_compat. change (- 0)%Q with 0%Q.
      rewrite <- H, <- Qabs_opp. apply Qle_Qabs.
  - rewrite H. reflexivity.
Qed.

(** X1. The absolute metric is the absolute value of the difference of
    the two areas: it is never negative, it does not depend on the order
    of the two fonts, and it is zero exactly when the areas are equal. *)
Theorem calc_diff_is_distance (a b : number) :
  (Num.to_Q (_calc_diff (a, b)) == Qabs (Num.to_Q a - Num.to_Q b))%Q
  ∧ Num.le Num.zero (_calc_diff (a, b))
  ∧ Num.eq (_calc_diff (a, b)) (_calc_diff (b, a))
  ∧ (Num.eq (_calc_diff (a, b)) Num.zero ↔ Num.eq a b).
Proof.
  assert (H : ∀ x y, (Num.to_Q (_calc_diff (x, y))
                      == Qabs (Num.to_Q x - Num.to_Q y))%Q).
  { intros x y. unfold _calc_diff. now rewrite to_Q_abs, to_Q_sub. }
  unfold Num.le, Num.eq. change (Num.to_Q Num.zero) with 0%Q.
  split; [apply H|]. split; [|split].
  - rewrite H. apply Qabs_nonneg.
  - rewrite !H. now rewrite Qabs_Qminus.
  - rewrite H, Qabs_zero_iff. split; intros E; lra.
Qed.

Lemma div_self x :
  ¬ (Num.to_Q x == 0)%Q →
  ∃ q, Num.div x x = Some q ∧ (Num.to_Q q == 1)%Q.
Proof.
  intros Hx. destruct x as [z|q]; cbn in *.
  - destruct (Z.eqb_spec z 0) as [->|Hz]; [now elim Hx|].
    eexists. split; [reflexivity|]. cbn. now rewrite Z.div_same.
  - destruct (Qeq_bool q 0) eqn:Hq; [now apply Qeq_bool_iff in Hq|].
    eexists. split; [reflexivity|]. cbn. now field.
Qed.

(** X2. The ratio metric does not depend on the order of the two fonts:
    swapping the areas gives the same value, or the same division by
    zero. *)
Theorem calc_ratio_symmetric (a b : number) :
  same_ratio (_calc_ratio (a, b)) (_calc_ratio (b, a)).
Proof.
  assert (Hrefl : ∀ x, same_ratio x x).
  { intros [u|]; cbn; [unfold Num.eq; reflexivity|exact I]. }
  unfold _calc_ratio.
  destruct (Num.truthy (Num.or a b)) eqn:Hab, (Num.truthy (Num.or b a)) eqn:Hba;
    cbn [negb].
  - unfold Num.min, Num.max.
    destruct (Num.ltb b a) eqn:H1, (Num.ltb a b) eqn:H2; try apply Hrefl.
    + apply ltb_lt in H1, H2. exfalso.
      exact (Qlt_irrefl _ (Qlt_trans _ _ _ H1 H2)).
    + apply ltb_ge in H1, H2.
      assert (E : (Num.to_Q a == Num.to_Q b)%Q) by now apply Qle_antisym.
      assert (Ha : ¬ (Num.to_Q a == 0)%Q).
      { intros Ha. assert (Hf : Num.truthy (Num.or a b) = false).
        { apply or_falsy. split; [exact Ha|]. now rewrite <- E. }
        congruence. }
      assert (Hb : ¬ (Num.to_Q b == 0)%Q) by now rewrite <- E.
      destruct (div_self a Ha) as (qa & -> & Hqa).
      destruct (div_self b Hb) as (qb & -> & Hqb).
      cbn [same_ratio]. unfold Num.eq.
      pose proof (to_Q_sub Num.one qa) as Ea.
      pose proof (to_Q_sub Num.one qb) as Eb.
      change (Num.to_Q Num.one) with 1%Q in Ea, Eb. lra.
  - apply or_falsy in Hba as [Hb Ha].
    assert (Hf : Num.truthy (Num.or a b) = false) by now apply or_falsy.
    congruence.
  - apply or_falsy in Hab as [Ha Hb].
    assert (Hf : Num.truthy (Num.or b a) = false) by now apply or_falsy.
    congruence.
  - apply (Hrefl (Some (PyInt 0))).
Qed.

(** ** The area diff *)

Lemma area_mismatched_lookup font_a font_b (ns : list string) (n : string) :
  area_mismatched font_a font_b ns !! n
  = if decide (n ∈ ns
               ∧ Num.eqb (glyph_area font_a n) (glyph_area font_b n) = false)
    then Some (glyph_area font_a n, glyph_area font_b n) else None.
Proof.
  unfold area_mismatched.
  induction ns as [|x ns IH] using rev_ind.
  - cbn [foldl]. rewrite lookup_empty. rewrite decide_False; [reflexivity|].
    intros [H _]. now apply elem_of_nil in H.
  - rewrite foldl_snoc.
    destruct (Num.eqb (glyph_area font_a x) (glyph_area font_b x)) eqn:Hx;
      cbn [negb].
    + rewrite IH. apply decide_ext.
      rewrite elem_of_app, list_elem_of_singleton.
      split; intros [H1 H2]; (split; [|exact H2]); [now left|].
      destruct H1 as [H1|H1]; [exact H1|]. subst n. congruence.
    + destruct (decide (x = n)) as [->|Hne].
      * rewrite lookup_insert_eq. rewrite decide_True; [reflexivity|].
        split; [|assumption]. apply elem_of_app. right. apply list_elem_of_here.
      * rewrite lookup_insert_ne by assumption. rewrite IH.
        apply decide_ext. rewrite elem_of_app, list_elem_of_singleton.
        intuition congruence.
Qed.

Lemma area_mismatched_empty font_a font_b (ns : list string) :
  area_mismatched font_a font_b ns = ∅
  ↔ ∀ n, n ∈ ns → Num.eqb (glyph_area font_a n) (glyph_area font_b n) = true.
Proof.
  split.
  - intros He n Hn.
    destruct (Num.eqb (glyph_area font_a n) (glyph_area font_b n)) eqn:E;
      [reflexivity|].
    pose proof (area_mismatched_lookup font_a font_b ns n) as H.
    rewrite He, lookup_empty, decide_True in H by auto. discriminate.
  - intros H. apply map_eq. intros n.
    rewrite area_mismatched_lookup, lookup_empty.
    rewrite decide_False; [reflexivity|].
    intros [Hn E]. rewrite (H n Hn) in E. discriminate.
Qed.

Lemma for_each_area_record_run f items w :
  for_each items (append_area_record f) w
  = match items with
    | [] => Ok tt w
    | (name, areas) :: _ =>
        match calc_of f areas with
        | None => Raise ZeroDivisionError w
        | Some _ => Raise NameError w
        end
    end.
Proof.
  destruct items as [|[name areas] items]; [reflexivity|].
  cbn [for_each]. unfold bind, append_area_record.
  destruct (calc_of f areas); reflexivity.
Qed.

(** X3. [find_area_diffs] returns normally exactly when every glyph it
    compares has the same area in both fonts; as soon as one differs it
    raises [NameError] (or, under the ratio policy only,
    [ZeroDivisionError]).  In either case [compared] is left as it was. *)
Theorem find_area_diffs_returns_iff f w :
  let same_areas :=
    ∀ n, n ∈ session_names f →
         Num.eqb (glyph_area (fonts f).1 n) (glyph_area (fonts f).2 n) = true in
  ((∃ f' w', find_area_diffs f w = Ok f' w') ↔ same_areas)
  ∧ (¬ same_areas →
     ∃ e w', find_area_diffs f w = Raise e w'
             ∧ (e = NameError ∨ (e = ZeroDivisionError ∧ ratio_diffs f = true)))
  ∧ compared (stats_at (stats f) (final_world (find_area_diffs f w)))
    = compared (stats_at (stats f) w).
Proof.
  intros same_areas.
  assert (Hrun : ∃ f1 w1,
            build_names f w = Ok f1 w1 ∧ names f1 = Some (session_names f)
            ∧ fonts f1 = fonts f ∧ ratio_diffs f1 = ratio_diffs f).
  { unfold session_names. destruct (names f) as [ns|] eqn:Hn.
    - exists f, w. now rewrite (build_names_again f ns w Hn).
    - destruct (build_names_first f w Hn) as (w1 & Hrun & _).
      exists (set_names f (names_a f ∩ names_b f)), w1. auto. }
  destruct Hrun as (f1 & w1 & Hrun & Hn1 & Hfonts & Hratio).
  assert (Hfind : find_area_diffs f w
                  = (for_each (map_to_list
                                 (area_mismatched (fonts f).1 (fonts f).2
                                    (elements (session_names f))))
                       (append_area_record f1) ;; ret f1) w1).
  { unfold find_area_diffs. unfold bind at 1. rewrite Hrun, Hn1.
    now rewrite Hfonts. }
  set (mm := area_mismatched (fonts f).1 (fonts f).2
               (elements (session_names f))) in *.
  assert (Hempty : mm = ∅ ↔ same_areas).
  { unfold mm. rewrite area_mismatched_empty. unfold same_areas.
    split; intros H n Hn; apply H; now apply elem_of_elements. }
  split; [|split].
  - rewrite Hfind. unfold bind. rewrite for_each_area_record_run.
    rewrite <- Hempty, <- map_to_list_empty_iff.
    destruct (map_to_list mm) as [|[name areas] items].
    + split; [reflexivity|]. intros _. eauto.
    + split; [|discriminate].
      intros (f' & w' & H). destruct (calc_of f1 areas); discriminate.
  - intros Hne. rewrite Hfind. unfold bind. rewrite for_each_area_record_run.
    rewrite <- Hempty, <- map_to_list_empty_iff in Hne.
    destruct (map_to_list mm) as [|[name areas] items]; [now elim Hne|].
    unfold calc_of. rewrite Hratio.
    destruct (ratio_diffs f).
    + destruct (_calc_ratio areas); eexists _, _; (split; [reflexivity|]); auto.
    + eexists _, _. split; [reflexivity|]. now left.
  - apply find_area_diffs_appends_nothing.
Qed.

(** ** The report: failure, length, order *)

Lemma dump_row_None str_float include_vals multiple_fonts r :
  dump_row str_float include_vals multiple_fonts r = None
  ↔ has_raw r ≠ include_vals.
Proof.
  unfold dump_row, to_tuple, has_raw.
  destruct r as [m g s [[a b]|]], include_vals, multiple_fonts; cbn;
    split; intros H; first [discriminate | reflexivity | now elim H | congruence].
Qed.

(** X4. [dump] fails with [TypeError], instead of returning a report,
    exactly when one of the records it has to print does not fit the row
    format: a record without raw values when [include_vals] is set, or a
    record with raw values when it is not. *)
Theorem dump_fails_iff str_float stats whitelist out_lines
    include_vals multiple_fonts :
  dump str_float stats whitelist out_lines include_vals multiple_fonts = None
  ↔ ∃ r, r ∈ slice_to out_lines (dump_compared stats whitelist)
         ∧ has_raw r ≠ include_vals.
Proof.
  unfold dump, dump_report.
  destruct (mapM _ _) as [rows|] eqn:E; cbn.
  - split; [discriminate|]. intros (r & Hr & Hraw).
    apply mapM_Some in E.
    apply list_elem_of_lookup in Hr as [i Hi].
    destruct (Forall2_lookup_l _ _ _ _ _ E Hi) as (row & _ & Hrow).
    apply (dump_row_None str_float _ multiple_fonts) in Hraw. congruence.
  - split; [|reflexivity]. intros _.
    apply mapM_None, Exists_exists in E as (r & Hr & Hnone).
    exists r. split; [exact Hr|]. now apply dump_row_None in Hnone.
Qed.

Lemma length_slice_to {A} (n : Z) (l : list A) :
  length (slice_to n l)
  = if (0 <=? n)%Z then Nat.min (Z.to_nat n) (length l)
    else (length l - Z.to_nat (- n))%nat.
Proof.
  unfold slice_to. destruct (0 <=? n)%Z; rewrite length_take; [reflexivity|lia].
Qed.

(** The report of a [dump] that returns: its lines as a list, the text as
    their join, and every row as the text of its record. *)
Lemma dump_Some_lines str_float stats whitelist out_lines include_vals
    multiple_fonts text :
  dump str_float stats whitelist out_lines include_vals multiple_fonts = Some text →
  ∃ rows,
    dump_report str_float stats whitelist out_lines include_vals multiple_fonts
    = Some ([dump_header (dump_compared stats whitelist)] ++ rows ++ [""]
            ++ dump_tail stats)
    ∧ text = Text.join (String Text.newline "")
               ([dump_header (dump_compared stats whitelist)] ++ rows ++ [""]
                ++ dump_tail stats)
    ∧ Forall2 (fun r row =>
                 row = row_text str_float include_vals multiple_fonts r)
        (slice_to out_lines (dump_compared stats whitelist)) rows.
Proof.
  unfold dump. intros H.
  destruct (dump_report _ _ _ _ _ _) as [lines|] eqn:E; [|discriminate].
  injection H as <-.
  apply dump_report_Some in E as (rows & -> & Hrows).
  exists rows. split; [reflexivity|]. split; [reflexivity|].
  eapply Forall2_impl; [exact Hrows|].
  intros r row H. now apply dump_row_Some in H as [-> _].
Qed.

Lemma slice_to_take {A} (n : Z) (l : list A) :
  slice_to n l
  = take (if (0 <=? n)%Z then Nat.min (Z.to_nat n) (length l)
          else (length l - Z.to_nat (- n))%nat) l.
Proof.
  unfold slice_to. destruct (0 <=? n)%Z; [|reflexivity].
  destruct (decide (Z.to_nat n ≤ length l)%nat) as [Hle|Hgt].
  - now rewrite Nat.min_l.
  - rewrite Nat.min_r by lia. rewrite firstn_all. apply take_ge. lia.
Qed.

(** X5. The number of diff rows in a report is bounded by [out_lines]: with
    [N] records outside the whitelist, a non-negative [out_lines] prints
    [min(out_lines, N)] rows, and a negative one, as a Python slice bound,
    leaves out the last [-out_lines] rows.  The rows are lines of the report
    of their own, placed between the header and the empty line that closes
    the section, and they are the rows of the first records, in order, of
    the sorted list of the records outside the whitelist. *)
Theorem dump_row_count str_float stats whitelist out_lines
    include_vals multiple_fonts text :
  dump str_float stats whitelist out_lines include_vals multiple_fonts = Some text →
  let N := length (filter (fun s => glyph s ∉ whitelist) (compared stats)) in
  let n := if (0 <=? out_lines)%Z then Nat.min (Z.to_nat out_lines) N
           else (N - Z.to_nat (- out_lines))%nat in
  ∃ rows,
    dump_report str_float stats whitelist out_lines include_vals multiple_fonts
    = Some ([pretty N +:+ " differences in glyph shape"] ++ rows ++ [""]
            ++ dump_tail stats)
    ∧ text = Text.join (String Text.newline "")
               ([pretty N +:+ " differences in glyph shape"] ++ rows ++ [""]
                ++ dump_tail stats)
    ∧ length rows = n
    ∧ (n ≤ N)%nat
    ∧ Forall2 (fun r row =>
                 row = row_text str_float include_vals multiple_fonts r)
        (take n (reverse (sorted record_lt
                   (filter (fun s => glyph s ∉ whitelist) (compared stats)))))
        rows.
Proof.
  intros (rows & Hreport & -> & Hrows)%dump_Some_lines N n.
  assert (HN : length (dump_compared stats whitelist) = N)
    by apply length_dump_compared.
  assert (Hslice : slice_to out_lines (dump_compared stats whitelist)
                   = take n (dump_compared stats whitelist)).
  { rewrite slice_to_take, HN. reflexivity. }
  assert (Hn : (n ≤ N)%nat).
  { unfold n. destruct (0 <=? out_lines)%Z; lia. }
  rewrite Hslice in Hrows.
  unfold dump_header in *. rewrite HN in *.
  exists rows. split; [exact Hreport|]. split; [reflexivity|].
  split; [|split; [exact Hn|exact Hrows]].
  apply Forall2_length in Hrows. rewrite <- Hrows.
  rewrite length_take, HN. lia.
Qed.

Lemma dump_row_count_witness :
  ∃ text,
    dump example_str_float example_stats ["uni0041"] (-1) true false = Some text
    ∧ dump_report example_str_float example_stats ["uni0041"] (-1) true false
      = Some (["2 differences in glyph shape"; "x 30 (50 vs 80)"; ""]
              ++ dump_tail example_stats).
Proof.
  destruct (dump example_str_float example_stats ["uni0041"] (-1) true false)
    as [text|] eqn:E; [|vm_compute in E; discriminate].
  destruct (dump_row_count _ _ _ _ _ _ _ E) as (rows & Hreport & _ & Hlen & _ & Hrows).
  exists text. split; [reflexivity|].
  rewrite Hreport.
  destruct rows as [|row [|row' rows]]; try discriminate Hlen.
  apply Forall2_length in Hrows as Hl.
  assert (Hrow : row = "x 30 (50 vs 80)").
  { vm_compute in Hrows. inversion Hrows; subst. reflexivity. }
  rewrite Hrow. reflexivity.
Defined.

(** Sorting by [record_lt] puts the metrics in non-decreasing order. *)
Lemma record_lt_true_le x y :
  record_lt x y = true → Num.le (metric x) (metric y).
Proof.
  unfold record_lt, record_compare, number_compare, Num.le.
  destruct (Num.to_Q (metric x) ?= Num.to_Q (metric y))%Q eqn:E; cbn [lex is_lt].
  - intros _. apply Qeq_alt in E. rewrite E. apply Qle_refl.
  - intros _. apply Qlt_alt in E. now apply Qlt_le_weak.
  - discriminate.
Qed.

Lemma record_lt_false_le x y :
  record_lt x y = false → Num.le (metric y) (metric x).
Proof.
  unfold record_lt, record_compare, number_compare, Num.le.
  destruct (Num.to_Q (metric x) ?= Num.to_Q (metric y))%Q eqn:E; cbn [lex is_lt].
  - intros _. apply Qeq_alt in E. rewrite E. apply Qle_refl.
  - discriminate.
  - intros _. apply Qgt_alt in E. now apply Qlt_le_weak.
Qed.

Lemma insert_sorted_by_metric x l :
  StronglySorted (flip metric_ge) l →
  StronglySorted (flip metric_ge) (insert_sorted record_lt x l).
Proof.
  induction 1 as [|y l Hl IH Hy]; cbn [insert_sorted].
  - repeat constructor.
  - destruct (record_lt y x) eqn:E.
    + constructor; [exact IH|].
      rewrite insert_sorted_perm. constructor; [|exact Hy].
      now apply record_lt_true_le.
    + apply record_lt_false_le in E.
      constructor; [now constructor|].
      constructor; [exact E|].
      eapply Forall_impl; [exact Hy|]. intros z Hz.
      unfold flip, metric_ge, Num.le in *. eapply Qle_trans; eassumption.
Qed.

Lemma sorted_by_metric l : StronglySorted (flip metric_ge) (sorted record_lt l).
Proof.
  unfold sorted. induction l as [|x l IH]; cbn [foldr]; [constructor|].
  now apply insert_sorted_by_metric.
Qed.

Lemma StronglySorted_reverse {A} (R : relation A) l :
  StronglySorted R l → StronglySorted (flip R) (reverse l).
Proof.
  induction 1 as [|x l Hl IH Hx]; [constructor|].
  rewrite reverse_cons. apply StronglySorted_app_2;
    [|exact IH|repeat constructor].
  intros x1 x2 H1 H2. apply list_elem_of_singleton in H2. subst x2.
  rewrite elem_of_reverse in H1. unfold flip.
  exact (proj1 (Forall_forall _ _) Hx x1 H1).
Qed.

Lemma StronglySorted_take {A} (R : relation A) n l :
  StronglySorted R l → StronglySorted R (take n l).
Proof.
  intros H. rewrite <- (take_drop n l) in H.
  now apply StronglySorted_app_1_l in H.
Qed.

(** X6. The diff rows of a report come in order of severity.  The records
    outside the whitelist are put in an order in which each one's metric is
    at least the metric of every one after it; the rows of the report are
    the rows of the first records of that order, one line of the report per
    record and in that order.  So a printed row never has a smaller metric
    than a row printed after it, nor than a record left out by
    [out_lines]. *)
Theorem dump_rows_by_severity str_float stats whitelist out_lines
    include_vals multiple_fonts text :
  dump str_float stats whitelist out_lines include_vals multiple_fonts = Some text →
  ∃ records rows,
    records ≡ₚ filter (fun s => glyph s ∉ whitelist) (compared stats)
    ∧ StronglySorted metric_ge records
    ∧ dump_report str_float stats whitelist out_lines include_vals multiple_fonts
      = Some ([pretty (length records) +:+ " differences in glyph shape"]
              ++ rows ++ [""] ++ dump_tail stats)
    ∧ text = Text.join (String Text.newline "")
               ([pretty (length records) +:+ " differences in glyph shape"]
                ++ rows ++ [""] ++ dump_tail stats)
    ∧ Forall2 (fun r row =>
                 row = row_text str_float include_vals multiple_fonts r)
        (slice_to out_lines records) rows
    ∧ (∀ r r', r ∈ slice_to out_lines records → r' ∈ records →
               r' ∉ slice_to out_lines records → metric_ge r r').
Proof.
  intros (rows & Hreport & -> & Hrows)%dump_Some_lines.
  assert (Hsorted : StronglySorted metric_ge (dump_compared stats whitelist)).
  { unfold dump_compared.
    apply (StronglySorted_reverse (flip metric_ge)), sorted_by_metric. }
  exists (dump_compared stats whitelist), rows.
  split; [|split; [exact Hsorted|split; [exact Hreport|split; [reflexivity|split; [exact Hrows|]]]]].
  - unfold dump_compared. rewrite reverse_Permutation. apply sorted_perm.
  - intros r r' Hr Hr' Hout.
    rewrite slice_to_take in Hr, Hout.
    set (n := if (0 <=? out_lines)%Z
              then Nat.min (Z.to_nat out_lines) (length (dump_compared stats whitelist))
              else (length (dump_compared stats whitelist) - Z.to_nat (- out_lines))%nat)
      in Hr, Hout.
    rewrite <- (take_drop n (dump_compared stats whitelist)) in Hr', Hsorted.
    apply elem_of_app in Hr' as [Hr'|Hr']; [now elim Hout|].
    eapply StronglySorted_app_1_elem_of; [exact Hsorted|exact Hr|exact Hr'].
Qed.

Lemma dump_rows_by_severity_witness :
  ∃ text records rows,
    dump example_str_float example_stats [] 2 true true = Some text
    ∧ records ≡ₚ compared example_stats
    ∧ StronglySorted metric_ge records
    ∧ Forall2 (fun r row => row = row_text example_str_float true true r)
        (slice_to 2 records) rows
    ∧ dump_report example_str_float example_stats [] 2 true true
      = Some (["3 differences in glyph shape"] ++ rows ++ [""]
              ++ dump_tail example_stats).
Proof.
  destruct (dump example_str_float example_stats [] 2 true true)
    as [text|] eqn:E; [|vm_compute in E; discriminate].
  destruct (dump_rows_by_severity _ _ _ _ _ _ _ E)
    as (records & rows & Hperm & Hs & Hreport & _ & Hrows & _).
  exists text, records, rows. split; [reflexivity|].
  assert (Hf : filter (fun s => glyph s ∉ []) (compared example_stats)
               = compared example_stats).
  { vm_compute. reflexivity. }
  rewrite Hf in Hperm.
  split; [exact Hperm|]. split; [exact Hs|]. split; [exact Hrows|].
  rewrite Hreport. apply Permutation_length in Hperm. rewrite Hperm. reflexivity.
Defined.

Lemma filter_none_whitelisted (whitelist : list string) (l : list DiffRecord) :
  (∀ r, r ∈ l → glyph r ∈ whitelist) →
  filter (fun s => glyph s ∉ whitelist) l = [].
Proof.
  induction l as [|x l IH]; intros H; [reflexivity|].
  rewrite filter_cons_False.
  - apply IH. intros r Hr. now apply H, list_elem_of_further.
  - intros Hx. apply Hx, H, list_elem_of_here.
Qed.

(** X7. When every compared record is whitelisted, [dump] cannot fail and
    reports zero differences and no row, whatever [out_lines] and the two
    flags are; the three other sections follow, each closed by an empty
    line. *)
Theorem dump_all_whitelisted str_float stats whitelist out_lines
    include_vals multiple_fonts :
  (∀ r, r ∈ compared stats → glyph r ∈ whitelist) →
  dump str_float stats whitelist out_lines include_vals multiple_fonts
  = Some (Text.join (String Text.newline "")
            (["0 differences in glyph shape"; ""] ++ dump_tail stats)).
Proof.
  intros H. unfold dump, dump_report, dump_compared.
  rewrite (filter_none_whitelisted _ _ H).
  assert (Hs : slice_to out_lines (@nil DiffRecord) = []).
  { unfold slice_to. destruct (0 <=? out_lines)%Z; apply take_nil. }
  change (reverse (sorted record_lt [])) with (@nil DiffRecord).
  rewrite Hs. reflexivity.
Qed.

Lemma dump_all_whitelisted_witness :
  dump example_str_float example_stats ["b"; "x"; "uni0041"] 10 false true
  = Some (Text.join (String Text.newline "")
            (["0 differences in glyph shape"; ""] ++ dump_tail example_stats)).
Proof.
  apply (dump_all_whitelisted example_str_float example_stats
           ["b"; "x"; "uni0041"] 10 false true).
  intros r Hr. apply list_elem_of_In in Hr. apply list_elem_of_In.
  cbn in Hr |- *. destruct Hr as [<-|[<-|[<-|[]]]]; cbn; auto.
Defined.

(** ** Reading the log in pairs *)

Lemma pair_lines_two_steps lines :
  let P := fun lines : list string =>
    (is_Some (pair_lines lines) ↔ Nat.Even (length lines))
    ∧ ∀ diffs, pair_lines lines = Some diffs →
               length lines = (2 * length diffs)%nat in
  P lines ∧ ∀ a, P (a :: lines).
Proof.
  intros P. induction lines as [|x lines [IH1 IH2]].
  - split; [|intros a]; split.
    + split; [intros _; now exists 0%nat | intros _; now exists []].
    + intros diffs H. now injection H as <-.
    + split; [intros [? H]; discriminate|].
      intros [k Hk]. cbn in Hk. lia.
    + intros diffs H. discriminate.
  - split; [apply IH2|]. intros a. destruct IH1 as [IHa IHb]. split.
    + cbn [pair_lines length]. rewrite fmap_is_Some, IHa.
      split; intros [k Hk]; [exists (S k)|exists (k - 1)%nat]; lia.
    + intros diffs H. cbn [pair_lines] in H.
      destruct (pair_lines lines) as [d|]; [|discriminate].
      injection H as <-. cbn [length]. rewrite (IHb d eq_refl). lia.
Qed.

(** X8. The diff log is read in pairs of lines: a log with an even number
    of lines gives half as many (name, metric) pairs, and a log with an odd
    number of lines cannot be read ([IndexError]). *)
Theorem pair_lines_parity lines :
  (is_Some (pair_lines lines) ↔ Nat.Even (length lines))
  ∧ ∀ diffs, pair_lines lines = Some diffs →
             length lines = (2 * length diffs)%nat.
Proof. apply pair_lines_two_steps. Qed.

(** ** What a rendered-diff session leaves in [compared] *)

Section ComparedInvariant.

Variables (l : loc) (P : DiffRecord → Prop).

Local Abbreviation inv := (fun w : World => Forall P (compared (stats_at l w))).
Local Abbreviation inv_raise := (fun (_ : exn) (w : World) => Forall P (compared (stats_at l w))).

Lemma inv_append_compared r :
  P r → hoare inv (append_compared l r) (fun _ => inv) inv_raise.
Proof.
  intros Hr w Hw. cbn. rewrite stats_at_set_stats. cbn.
  apply Forall_app. split; [exact Hw|]. now constructor.
Qed.

Lemma inv_append_untested name :
  hoare inv (append_untested l name) (fun _ => inv) inv_raise.
Proof. intros w Hw. cbn. now rewrite stats_at_set_stats. Qed.

Lemma inv_append_unmatched e :
  hoare inv (append_unmatched l e) (fun _ => inv) inv_raise.
Proof. intros w Hw. cbn. now rewrite stats_at_set_stats. Qed.

Lemma inv_append_unicode_mismatch e :
  hoare inv (append_unicode_mismatch l e) (fun _ => inv) inv_raise.
Proof. intros w Hw. cbn. now rewrite stats_at_set_stats. Qed.

Lemma inv_append_file p text :
  hoare inv (append_file p text) (fun _ => inv) inv_raise.
Proof. intros w Hw. exact Hw. Qed.

Lemma inv_make_tmp_path :
  hoare inv _make_tmp_path (fun _ => inv) inv_raise.
Proof. intros w Hw. exact Hw. Qed.

Lemma inv_read_lines p :
  hoare inv (read_lines p) (fun _ => inv) inv_raise.
Proof. intros w Hw. unfold read_lines. destruct (files w !! p); exact Hw. Qed.

Lemma inv_os_remove p :
  hoare inv (os_remove p) (fun _ => inv) inv_raise.
Proof. intros w Hw. unfold os_remove. destruct (files w !! p); exact Hw. Qed.

Lemma inv_assert b : hoare inv (assert b) (fun _ => inv) inv_raise.
Proof. intros w Hw. destruct b; exact Hw. Qed.

Lemma inv_index {A} (xs : list A) i :
  hoare inv (index xs i) (fun _ => inv) inv_raise.
Proof. intros w Hw. unfold index. destruct (xs !! i); exact Hw. Qed.

Lemma inv_build_names f :
  stats f = l →
  hoare inv (build_names f)
    (fun f' w => inv w ∧ ∃ ns, f' = set_names f ns) inv_raise.
Proof.
  intros Hl. unfold build_names. destruct (names f) as [ns|] eqn:Hn.
  - apply hoare_ret. intros w Hw. split; [exact Hw|].
    exists ns. destruct f; cbn in *. now subst.
  - eapply hoare_bind with (R := fun _ => inv).
    + destruct (decide _); [|now apply hoare_ret].
      rewrite Hl. apply inv_append_unmatched.
    + intros u. apply hoare_ret. intros w Hw. split; [exact Hw|]. eauto.
Qed.

Lemma inv_build_reverse_cmap f :
  stats f = l →
  hoare inv (build_reverse_cmap f)
    (fun f' w => inv w ∧ ∃ m, f' = set_reverse_cmap f m) inv_raise.
Proof.
  intros Hl. unfold build_reverse_cmap.
  destruct (reverse_cmap f) as [m|] eqn:Hm.
  - apply hoare_ret. intros w Hw. split; [exact Hw|].
    exists m. destruct f; cbn in *. now subst.
  - destruct (names f) as [ns|]; [|now apply hoare_raise].
    eapply hoare_bind with (R := fun _ => inv).
    + destruct (decide _); [|now apply hoare_ret].
      rewrite Hl. apply inv_append_unicode_mismatch.
    + intros u. apply hoare_ret. intros w Hw. split; [exact Hw|]. eauto.
Qed.

Lemma inv_render_glyph T f cmap a_png b_png cmp_png diffs_filename name :
  stats f = l →
  hoare inv (render_glyph T f cmap a_png b_png cmp_png diffs_filename name)
    (fun _ => inv) inv_raise.
Proof.
  intros Hl. unfold render_glyph.
  eapply hoare_bind; [apply inv_assert|]. intros ?.
  destruct (input_from_name T (paths f).1 cmap name) as [[features text]|].
  - destruct (decide (text = Text.nul)); [now apply hoare_ret|].
    eapply hoare_bind; [apply inv_append_file|]. intros ?.
    destruct (identify T name a_png) as [img_info|]; [|now apply hoare_raise].
    eapply hoare_bind; [apply inv_index|]. intros info0.
    eapply hoare_bind.
    { destruct (bool_decide (info0 = a_png)).
      - eapply hoare_bind; [apply inv_index|]. intros info1. apply inv_assert.
      - apply inv_assert. }
    intros ?. eapply hoare_bind; [apply inv_index|]. intros extent.
    apply inv_append_file.
  - rewrite Hl. apply inv_append_untested.
Qed.

End ComparedInvariant.

Lemma rendered_mismatched_nonzero diffs :
  ∀ m0 m : gmap string Z,
    rendered_mismatched diffs m0 = Some m →
    (∀ k v, m0 !! k = Some v → v ≠ 0) →
    ∀ k v, m !! k = Some v → v ≠ 0.
Proof.
  induction diffs as [|[name diff] diffs IH]; intros m0 m Hrun H0.
  - injection Hrun as <-. exact H0.
  - cbn [rendered_mismatched] in Hrun.
    destruct (Text.py_int diff) as [d|]; [|discriminate].
    apply (IH _ _ Hrun). intros k v.
    destruct (decide (d ≠ 0)) as [Hd|_]; [|apply H0].
    destruct (decide (name = k)) as [->|Hne].
    + rewrite lookup_insert_eq. intros [= <-]. exact Hd.
    + rewrite lookup_insert_ne by assumption. apply H0.
Qed.

Lemma find_rendered_diffs_shape T f font_size render_path :
  hoare (fun w => Forall rendered_shape (compared (stats_at (stats f) w)))
    (find_rendered_diffs T f font_size render_path)
    (fun _ w => Forall rendered_shape (compared (stats_at (stats f) w)))
    (fun _ w => Forall rendered_shape (compared (stats_at (stats f) w))).
Proof.
  set (l := stats f). unfold find_rendered_diffs.
  eapply hoare_bind; [now apply inv_build_names|].
  intros f1. apply hoare_pure. intros [ns ->].
  eapply hoare_bind; [now apply inv_build_reverse_cmap|].
  intros f2. apply hoare_pure. intros [m ->].
  cbn [names reverse_cmap set_names set_reverse_cmap stats].
  eapply hoare_bind; [apply inv_make_tmp_path|]. intros a.
  eapply hoare_bind; [apply inv_make_tmp_path|]. intros b.
  eapply hoare_bind; [apply inv_make_tmp_path|]. intros c.
  eapply hoare_bind; [apply inv_make_tmp_path|]. intros d.
  eapply hoare_bind.
  { apply hoare_for_each. intros name _. now apply inv_render_glyph. }
  intros ?. eapply hoare_bind; [apply inv_read_lines|]. intros lines.
  eapply hoare_bind
    with (R := fun _ w => Forall rendered_shape (compared (stats_at l w))).
  { destruct (pair_lines lines); [now apply hoare_ret|now apply hoare_raise]. }
  intros diffs.
  eapply hoare_bind; [apply inv_os_remove|]. intros ?.
  eapply hoare_bind; [apply inv_os_remove|]. intros ?.
  eapply hoare_bind; [apply inv_os_remove|]. intros ?.
  eapply hoare_bind; [apply inv_os_remove|]. intros ?.
  eapply hoare_bind
    with (R := fun mm w => Forall rendered_shape (compared (stats_at l w))
                           ∧ rendered_mismatched diffs ∅ = Some mm).
  { destruct (rendered_mismatched diffs ∅);
      [apply hoare_ret; auto | now apply hoare_raise]. }
  intros mm. apply hoare_pure. intros Hmm.
  eapply hoare_bind.
  { apply hoare_for_each. intros [name v] Hin.
    apply inv_append_compared. split; [reflexivity|].
    exists v. split; [|reflexivity].
    apply elem_of_map_to_list in Hin.
    eapply rendered_mismatched_nonzero; [exact Hmm| |exact Hin].
    intros k v' Hk. now rewrite lookup_empty in Hk. }
  intros ?. now apply hoare_ret.
Qed.

(** X9. Whatever the fonts and the tools, and whether the run returns or
    raises, the records that a new rendered-diff session leaves in
    [compared] are all 3-tuples with a non-zero integer metric.  Its stats
    can therefore always be dumped without raw values, and dumping them
    with [include_vals] fails as soon as one row would be printed. *)
Theorem rendered_session_dumps T file_a file_b font_a font_b l ratio
    font_size render_path w :
  let s := stats_at l (final_world
             (rendered_session T file_a file_b font_a font_b l ratio
                font_size render_path w)) in
  Forall rendered_shape (compared s)
  ∧ (∀ str_float whitelist out_lines multiple_fonts,
        is_Some (dump str_float s whitelist out_lines false multiple_fonts))
  ∧ (∀ str_float whitelist out_lines multiple_fonts,
        dump str_float s whitelist out_lines true multiple_fonts = None
        ↔ slice_to out_lines (dump_compared s whitelist) ≠ []).
Proof.
  intros s.
  assert (Hshape : Forall rendered_shape (compared s)).
  { unfold s, rendered_session, bind. rewrite init_ok.
    set (f0 := {| paths := (file_a, file_b); fonts := (font_a, font_b);
                  ratio_diffs := ratio; stats := l;
                  basepath := Text.basename file_a;
                  names := None; reverse_cmap := None |}).
    pose proof (find_rendered_diffs_shape T f0 font_size render_path
                  (set_stats l empty_stats w)) as H.
    cbn beta in H. change (stats f0) with l in H.
    rewrite stats_at_set_stats in H.
    specialize (H (Forall_nil_2 rendered_shape)).
    destruct (find_rendered_diffs T f0 font_size render_path _); exact H. }
  assert (Hraw : ∀ whitelist out_lines r,
            r ∈ slice_to out_lines (dump_compared s whitelist) → has_raw r = false).
  { intros whitelist out_lines r Hr.
    apply elem_of_slice_to, elem_of_dump_compared in Hr as [Hr _].
    rewrite Forall_forall in Hshape. destruct (Hshape r Hr) as [Hnone _].
    unfold has_raw. now rewrite Hnone. }
  split; [exact Hshape|]. split.
  - intros str_float whitelist out_lines multiple_fonts.
    destruct (dump str_float s whitelist out_lines false multiple_fonts) eqn:E;
      [eauto|].
    apply dump_fails_iff in E as (r & Hr & Hne).
    now rewrite (Hraw _ _ _ Hr) in Hne.
  - intros str_float whitelist out_lines multiple_fonts.
    rewrite dump_fails_iff. split.
    + intros (r & Hr & _) Hnil. rewrite Hnil in Hr. now apply elem_of_nil in Hr.
    + intros Hne.
      destruct (slice_to out_lines (dump_compared s whitelist)) as [|r rs] eqn:E;
        [now elim Hne|].
      exists r. split; [apply list_elem_of_here|].
      rewrite (Hraw whitelist out_lines r); [discriminate|].
      rewrite E. apply list_elem_of_here.
Qed.

(** ** Sample images (create_image.py) *)

Module CreateImageFacts.
Import CreateImage.

Lemma string_app_cons a s t : String a s +:+ t = String a (s +:+ t).
Proof. reflexivity. Qed.

Lemma string_app_assoc (a b c : string) : (a +:+ b) +:+ c = a +:+ (b +:+ c).
Proof.
  induction a as [|x a IH]; [reflexivity|].
  rewrite !string_app_cons, IH. reflexivity.
Qed.

Lemma chars_app a b : chars (a +:+ b) = chars a ++ chars b.
Proof.
  induction a as [|x a IH]; [reflexivity|].
  rewrite string_app_cons. unfold chars in *.
  cbn [String.list_ascii_of_string]. rewrite IH. reflexivity.
Qed.

Lemma of_chars_chars s : of_chars (chars s) = s.
Proof. apply String.string_of_list_ascii_of_string. Qed.

Lemma chars_of_chars l : chars (of_chars l) = l.
Proof. apply String.list_ascii_of_string_of_list_ascii. Qed.

Lemma has_char_chars c s : Text.has_char c s = false <-> c ∉ chars s.
Proof.
  induction s as [|x s IH]; cbn [Text.has_char chars String.list_ascii_of_string].
  - split; [intros _; apply not_elem_of_nil|reflexivity].
  - fold (chars s). rewrite not_elem_of_cons, orb_false_iff, IH.
    rewrite bool_decide_eq_false. intuition congruence.
Qed.

Lemma rfind_lt c l i : rfind c l = Some i -> (i < length l)%nat.
Proof.
  revert i. induction l as [|x l IH]; intros i; cbn [rfind length]; [discriminate|].
  destruct (rfind c l) as [j|].
  - intros [= <-]. specialize (IH j eq_refl). lia.
  - destruct (decide (x = c)); [intros [= <-]; lia|discriminate].
Qed.

Lemma rfind_absent c l : c ∉ l -> rfind c l = None.
Proof.
  induction l as [|x l IH]; [reflexivity|].
  rewrite not_elem_of_cons. intros [Hne Hl]. cbn [rfind].
  rewrite (IH Hl). rewrite decide_False; [reflexivity|congruence].
Qed.

Lemma rfind_app c l1 l2 :
  rfind c (l1 ++ l2) =
  match rfind c l2 with
  | Some i => Some (length l1 + i)%nat
  | None => rfind c l1
  end.
Proof.
  induction l1 as [|x l1 IH]; cbn [app rfind length].
  - destruct (rfind c l2); reflexivity.
  - rewrite IH. destruct (rfind c l2); reflexivity.
Qed.

(** The extension of [stem.ext] is [.ext] when the last component of the
    stem has a character that is not a dot. *)
Lemma splitext_stem_ext pre c post ext :
  c <> "."%char -> "/"%char ∉ c :: post ->
  "/"%char ∉ chars ext -> "."%char ∉ chars ext ->
  splitext (of_chars (pre ++ c :: post) +:+ "." +:+ ext)
  = (of_chars (pre ++ c :: post), "." +:+ ext).
Proof.
  intros Hc Hpost Hslash Hdot.
  unfold splitext.
  set (stem := pre ++ c :: post).
  assert (Hl : chars (of_chars stem +:+ "." +:+ ext) = stem ++ "."%char :: chars ext).
  { rewrite chars_app, chars_of_chars. reflexivity. }
  rewrite Hl.
  assert (Hsep : rfind "/"%char (stem ++ "."%char :: chars ext) = rfind "/"%char pre).
  { rewrite rfind_app. rewrite (rfind_absent "/"%char ("."%char :: chars ext)).
    - unfold stem. rewrite rfind_app, (rfind_absent _ _ Hpost). reflexivity.
    - rewrite not_elem_of_cons. split; [discriminate|exact Hslash]. }
  assert (Hd : rfind "."%char (stem ++ "."%char :: chars ext) = Some (length stem)).
  { rewrite rfind_app. cbn [rfind]. rewrite (rfind_absent _ _ Hdot).
    rewrite decide_True by reflexivity. f_equal. lia. }
  rewrite Hsep, Hd.
  set (fi := match rfind "/"%char pre with Some i => S i | None => O end).
  assert (Hfi : (fi <= length pre)%nat).
  { unfold fi. destruct (rfind "/"%char pre) as [i|] eqn:E; [|lia].
    apply rfind_lt in E. lia. }
  assert (Hlen : length stem = (length pre + S (length post))%nat).
  { unfold stem. rewrite length_app. reflexivity. }
  rewrite decide_True by lia.
  assert (Hex : existsb (fun x => negb (bool_decide (x = "."%char)))
                  (take (length stem - fi) (drop fi (stem ++ "."%char :: chars ext)))
                = true).
  { apply existsb_exists. exists c. split.
    - apply list_elem_of_In.
      apply (list_elem_of_lookup_2 _ (length pre - fi)%nat).
      rewrite lookup_take_lt by lia.
      rewrite lookup_drop.
      replace (fi + (length pre - fi))%nat with (length pre) by lia.
      unfold stem. rewrite <- app_assoc.
      rewrite lookup_app_r by lia.
      replace (length pre - length pre)%nat with O by lia. reflexivity.
    - rewrite bool_decide_eq_false_2 by exact Hc. reflexivity. }
  rewrite Hex.
  rewrite take_app_length, drop_app_length.
  f_equal. cbn [of_chars String.string_of_list_ascii].
  fold (of_chars (chars ext)). rewrite of_chars_chars. reflexivity.
Qed.

(** The decimal form of an integer is not empty and holds digits and a
    sign only. *)
Lemma pretty_N_char_plain x : plain (pretty_N_char x).
Proof.
  unfold pretty_N_char, plain.
  destruct x as [|p]; [split; discriminate|].
  do 4 (try destruct p as [p|p|]); split; discriminate.
Qed.

Lemma pretty_N_go_plain x s :
  Forall plain (chars s) -> Forall plain (chars (pretty_N_go x s)).
Proof.
  revert s. induction (N.lt_wf_0 x) as [x _ IH]; intros s Hs.
  destruct (decide (0 < x)%N) as [Hx|Hx].
  - rewrite pretty_N_go_step by exact Hx. apply IH.
    + apply N.div_lt; lia.
    + cbn [chars String.list_ascii_of_string]. constructor; [|exact Hs].
      apply pretty_N_char_plain.
  - replace x with 0%N by lia. rewrite pretty_N_go_0. exact Hs.
Qed.

Lemma pretty_N_go_nonempty x s : s <> "" -> pretty_N_go x s <> "".
Proof.
  revert s. induction (N.lt_wf_0 x) as [x _ IH]; intros s Hs.
  destruct (decide (0 < x)%N) as [Hx|Hx].
  - rewrite pretty_N_go_step by exact Hx. apply IH; [apply N.div_lt; lia|discriminate].
  - replace x with 0%N by lia. rewrite pretty_N_go_0. exact Hs.
Qed.

Lemma pretty_N_plain (x : N) : pretty x <> "" /\ Forall plain (chars (pretty x)).
Proof.
  unfold pretty, pretty_N. destruct (decide (x = 0%N)) as [->|Hx].
  - split; [discriminate|]. repeat constructor; discriminate.
  - split.
    + rewrite pretty_N_go_step by lia. apply pretty_N_go_nonempty. discriminate.
    + apply pretty_N_go_plain. constructor.
Qed.

Lemma pretty_Z_plain (z : Z) : pretty z <> "" /\ Forall plain (chars (pretty z)).
Proof.
  destruct z as [|p|p]; unfold pretty, pretty_Z.
  - split; [discriminate|]. repeat constructor; discriminate.
  - apply pretty_N_plain.
  - split; [discriminate|].
    rewrite chars_app. apply Forall_app. split.
    + repeat constructor; discriminate.
    + apply pretty_N_plain.
Qed.

Lemma join_app_cons sep xs y ys :
  exists pre, Text.join sep (xs ++ y :: ys) = pre +:+ Text.join sep (y :: ys).
Proof.
  unfold Text.join. induction xs as [|x xs [pre IH]].
  - exists "". reflexivity.
  - exists (x +:+ sep +:+ pre).
    cbn [app]. destruct (xs ++ y :: ys) as [|z zs] eqn:E.
    + destruct xs; discriminate.
    + change (String.concat sep (x :: z :: zs))
        with (x +:+ sep +:+ String.concat sep (z :: zs)).
      rewrite IH, !string_app_assoc. reflexivity.
Qed.

(** The stem of a generated name always has, in its last component, a
    character that is not a dot. *)
Lemma generated_stem xs (size : Z) lang :
  (forall l, lang = Some l -> Text.has_char "/"%char l = false) ->
  exists pre c post,
    Text.join "_" (xs ++ [pretty size] ++ option_list (given lang))
    = of_chars (pre ++ c :: post)
    /\ c <> "."%char /\ "/"%char ∉ c :: post.
Proof.
  intros Hlang.
  destruct (pretty_Z_plain size) as [Hne Hplain].
  destruct (join_app_cons "_" xs (pretty size) (option_list (given lang)))
    as [pre Hpre].
  cbn [app]. rewrite Hpre. clear Hpre.
  destruct (given lang) as [l|] eqn:El.
  - assert (Hl : Text.has_char "/"%char l = false).
    { apply Hlang. destruct lang as [[|]|]; cbn in El; congruence. }
    apply has_char_chars in Hl.
    exists (chars pre ++ chars (pretty size)), "_"%char, (chars l).
    split; [|split].
    + rewrite <- (of_chars_chars (pre +:+ _)). f_equal.
      unfold Text.join. change (option_list (Some l)) with [l].
      cbn [String.concat].
      rewrite !chars_app, app_assoc. reflexivity.
    + discriminate.
    + rewrite not_elem_of_cons. split; [discriminate|exact Hl].
  - unfold Text.join. change (option_list None) with (@nil string).
    cbn [String.concat].
    destruct (pretty size) as [|c rest]; [now elim Hne|].
    cbn [chars String.list_ascii_of_string] in Hplain. fold (chars rest) in Hplain.
    exists (chars pre), c, (chars rest).
    split; [|split].
    + rewrite <- (of_chars_chars (pre +:+ _)). f_equal.
      rewrite chars_app. reflexivity.
    + apply Forall_cons in Hplain. apply Hplain.
    + intros Hin. apply (proj1 (Forall_forall _ _) Hplain) in Hin.
      destruct Hin as [_ Hin]. now elim Hin.
Qed.

Lemma percent_not_supported ext :
  percent "extension % not supported" [FStr ext] = FormatError (PyValueError "").
Proof. reflexivity. Qed.

Lemma create_img_png P pe t path params :
  lower (splitext path).2 = ".png" ->
  create_img P pe t path params = (create_png P pe t path params, None).
Proof. intros H. unfold create_img. rewrite decide_True by exact H. reflexivity. Qed.

Lemma create_img_svg P pe t path params :
  lower (splitext path).2 = ".svg" ->
  create_img P pe t path params = (create_svg P pe t path params, None).
Proof.
  intros H. unfold create_img. rewrite H.
  rewrite decide_False by discriminate. rewrite decide_True by reflexivity.
  reflexivity.
Qed.

Lemma create_img_other P pe t path params :
  lower (splitext path).2 <> ".png" -> lower (splitext path).2 <> ".svg" ->
  create_img P pe t path params = ([], Some (PyValueError "")).
Proof.
  intros H1 H2. unfold create_img.
  rewrite decide_False by exact H1. rewrite decide_False by exact H2.
  rewrite percent_not_supported. reflexivity.
Qed.



(** X10 (create_image.py, create_img with create_png, create_svg and
    draw_on_surface): a call of [create_img] that returns has written
    exactly one image, at the output path itself, as wide as the
    parameters say; a call that raises has written none.  The height is
    the one [draw_on_surface] computes: it is at least the height field
    of the ink and of the logical rectangle, and exactly their maximum
    when and only when neither rectangle starts above the origin. *)
Theorem create_img_one_image P pe t path params :
  let r := create_img P pe t path params in
  let e := pe (draw_layout P params) t in
  let h := draw_on_surface P pe t params in
  (r.2 = None -> images r.1 = [(path, width params, h)]) /\
  (r.2 <> None -> images r.1 = []) /\
  Z.max (rect_height e.1) (rect_height e.2) <= h /\
  (h = Z.max (rect_height e.1) (rect_height e.2)
   <-> 0 <= rect_y e.1 /\ 0 <= rect_y e.2).
Proof.
  intros r e h.
  assert (Hh : h = Z.max (rect_height e.1) (rect_height e.2)
               - Z.min (Z.min (rect_y e.1) (rect_y e.2)) 0) by reflexivity.
  split; [|split; [|split]].
  - subst r. unfold create_img.
    destruct (decide (lower (splitext path).2 = ".png")); [intros _; reflexivity|].
    destruct (decide (lower (splitext path).2 = ".svg")); [intros _; reflexivity|].
    rewrite percent_not_supported. discriminate.
  - subst r. unfold create_img.
    destruct (decide (lower (splitext path).2 = ".png")); [intros H; now elim H|].
    destruct (decide (lower (splitext path).2 = ".svg")); [intros H; now elim H|].
    rewrite percent_not_supported. reflexivity.
  - lia.
  - lia.
Qed.

(** X11 (create_image.py, create_img): the writer is chosen by the
    extension of the output path, letter case aside.  The call returns
    exactly for the extensions [.png] and [.svg]; for any other path it
    raises [ValueError] before anything is printed or written, because the
    format of the message that was meant to be printed is malformed.  All
    that is ever printed is the line [writing <path>]. *)
Theorem create_img_by_extension P pe t path params :
  let ext := lower (splitext path).2 in
  let r := create_img P pe t path params in
  (r.2 = None <-> ext = ".png" \/ ext = ".svg") /\
  (r.2 <> None -> r = ([], Some (PyValueError ""))) /\
  (forall line, line ∈ printed r.1 -> line = "writing " +:+ path).
Proof.
  intros ext r. subst r.
  destruct (decide (ext = ".png")) as [Hp|Hp];
    [|destruct (decide (ext = ".svg")) as [Hs|Hs]].
  - rewrite (create_img_png _ _ _ _ _ Hp). cbn [fst snd].
    split; [|split].
    + split; [intros _; left; exact Hp|reflexivity].
    + intros H; now elim H.
    + intros line Hin. cbn in Hin.
      apply list_elem_of_singleton in Hin. exact Hin.
  - rewrite (create_img_svg _ _ _ _ _ Hs). cbn [fst snd].
    split; [|split].
    + split; [intros _; right; exact Hs|reflexivity].
    + intros H; now elim H.
    + intros line Hin. cbn in Hin.
      apply list_elem_of_singleton in Hin. exact Hin.
  - rewrite (create_img_other _ _ _ _ _ Hp Hs). cbn [fst snd].
    split; [|split].
    + split; [discriminate|intros [H|H]; [now elim Hp|now elim Hs]].
    + reflexivity.
    + intros line Hin. cbn in Hin. now apply elem_of_nil in Hin.
Qed.

Lemma weight_lookup P n :
  _weight_map P !! n =
  if decide (n = "ultralight") then Some (WEIGHT_ULTRALIGHT P)
  else if decide (n = "light") then Some (WEIGHT_LIGHT P)
  else if decide (n = "normal") then Some (WEIGHT_NORMAL P)
  else if decide (n = "bold") then Some (WEIGHT_BOLD P)
  else if decide (n = "ultrabold") then Some (WEIGHT_ULTRABOLD P)
  else if decide (n = "heavy") then Some (WEIGHT_HEAVY P)
  else None.
Proof.
  unfold _weight_map.
  repeat (destruct (decide (n = _)) as [->|?];
          [rewrite ?lookup_insert_ne by discriminate;
           first [apply lookup_insert_eq|apply lookup_singleton_eq]|]).
  rewrite !lookup_insert_ne by congruence.
  apply lookup_singleton_ne. congruence.
Qed.

Lemma style_lookup P n :
  _italic_map P !! n =
  if decide (n = "italic") then Some (STYLE_ITALIC P)
  else if decide (n = "oblique") then Some (STYLE_OBLIQUE P)
  else if decide (n = "normal") then Some (STYLE_NORMAL P)
  else None.
Proof.
  unfold _italic_map.
  repeat (destruct (decide (n = _)) as [->|?];
          [rewrite ?lookup_insert_ne by discriminate;
           first [apply lookup_insert_eq|apply lookup_singleton_eq]|]).
  rewrite !lookup_insert_ne by congruence.
  apply lookup_singleton_ne. congruence.
Qed.

Lemma weight_names P :
  accepted_values (_weight_map P)
  = "bold, heavy, light, normal, ultrabold, ultralight".
Proof. vm_compute. reflexivity. Qed.

Lemma style_names P :
  accepted_values (_italic_map P) = "italic, normal, oblique".
Proof. vm_compute. reflexivity. Qed.

Lemma given_Some n : n <> "" -> given (Some n) = Some n.
Proof. destruct n; [intros H; now elim H|reflexivity]. Qed.

(** X12 (create_image.py, _get_weight and _weight_map): when the six
    weights of pango are different from zero, [_get_weight] returns a
    weight exactly for no name (or the empty name), which gives the normal
    weight, and for the six names of the table, each with its own
    constant; for every other name it raises [ValueError] with a message
    that quotes the name and lists the six accepted names in sorted
    order. *)
Theorem get_weight_table P (H : weights_nonzero P) name :
  (forall w, _get_weight P name = inr w <->
     (given name = None /\ w = WEIGHT_NORMAL P)
     \/ (name = Some "ultralight" /\ w = WEIGHT_ULTRALIGHT P)
     \/ (name = Some "light" /\ w = WEIGHT_LIGHT P)
     \/ (name = Some "normal" /\ w = WEIGHT_NORMAL P)
     \/ (name = Some "bold" /\ w = WEIGHT_BOLD P)
     \/ (name = Some "ultrabold" /\ w = WEIGHT_ULTRABOLD P)
     \/ (name = Some "heavy" /\ w = WEIGHT_HEAVY P)) /\
  (forall n, name = Some n ->
     n ∉ [""; "ultralight"; "light"; "normal"; "bold"; "ultrabold"; "heavy"] ->
     _get_weight P name
     = inl (PyValueError
              ("could not recognize weight '" +:+ n +:+ "'"
               +:+ String Text.newline
                     "accepted values are bold, heavy, light, normal, ultrabold, ultralight"))).
Proof.
  destruct H as (H1 & H2 & H3 & H4 & H5 & H6).
  split.
  - intros w. destruct name as [n|].
    + destruct (decide (n = "")) as [->|Hn].
      { cbn. split; [intros [= <-]; left; split; reflexivity|].
        intros Hc. decompose [or and] Hc; congruence. }
      unfold _get_weight. rewrite (given_Some n Hn), weight_lookup.
      repeat (destruct (decide (n = _)) as [->|?];
        [rewrite decide_True by assumption;
         split; [intros [= <-]; tauto|];
         intros Hc; decompose [or and] Hc; congruence|]).
      split; [discriminate|].
      intros Hc. decompose [or and] Hc; congruence.
    + cbn. split; [intros [= <-]; left; split; reflexivity|].
      intros Hc. decompose [or and] Hc; congruence.
  - intros n -> Hn.
    rewrite !not_elem_of_cons in Hn.
    destruct Hn as (N0 & N1 & N2 & N3 & N4 & N5 & N6 & _).
    unfold _get_weight. rewrite (given_Some n N0), weight_lookup, weight_names.
    rewrite !decide_False by assumption. reflexivity.
Qed.

Lemma get_weight_table_witness :
  weights_nonzero pango_values /\
  _get_weight pango_values (Some "bold") = inr 700 /\
  _get_weight pango_values (Some "Bold")
  = inl (PyValueError
           ("could not recognize weight 'Bold'"
            +:+ String Text.newline
                  "accepted values are bold, heavy, light, normal, ultrabold, ultralight")).
Proof.
  assert (Hw : weights_nonzero pango_values) by (unfold weights_nonzero; cbn; lia).
  split; [exact Hw|].
  destruct (get_weight_table pango_values Hw (Some "bold")) as [Ht _].
  destruct (get_weight_table pango_values Hw (Some "Bold")) as [_ Hm].
  split.
  - apply Ht. do 4 right. left. split; reflexivity.
  - apply (Hm "Bold" eq_refl).
    rewrite !not_elem_of_cons. repeat split; try discriminate.
    apply not_elem_of_nil.
Defined.

(** X13 (create_image.py, _get_style, _italic_map and render_text): when
    pango's normal style is the number zero, the style name [normal] is
    refused although the message of the error lists it among the accepted
    values, while no style name at all gives that same style; so
    [render_text] asked for the style [normal] raises before anything is
    drawn, written or printed. *)
Theorem normal_style_rejected P pe (H : STYLE_NORMAL P = 0)
    file_name t font_name weight_name font_size lang ext :
  _get_style P (Some "normal")
  = inl (PyValueError
           ("could not recognize style 'normal'"
            +:+ String Text.newline "accepted values are italic, normal, oblique")) /\
  _get_style P None = inr 0 /\
  exists e,
    render_text P pe file_name t font_name weight_name (Some "normal")
      font_size lang ext = ([], Some e).
Proof.
  assert (Hs : _get_style P (Some "normal")
    = inl (PyValueError
           ("could not recognize style 'normal'"
            +:+ String Text.newline "accepted values are italic, normal, oblique"))).
  { unfold _get_style. cbn [given]. rewrite style_lookup, style_names.
    rewrite decide_False by discriminate.
    rewrite decide_False by discriminate.
    rewrite decide_True by reflexivity.
    rewrite decide_False by (rewrite H; intros Hc; now elim Hc).
    reflexivity. }
  split; [exact Hs|]. split.
  - unfold _get_style. cbn [given]. rewrite H. reflexivity.
  - unfold render_text. rewrite Hs.
    destruct (_get_weight P weight_name) as [e|w]; eexists; reflexivity.
Qed.

Lemma normal_style_rejected_witness :
  STYLE_NORMAL pango_values = 0 /\
  exists e,
    render_text pango_values example_extents (Some "a.png") [65%N]
      None None (Some "normal") (Some 32) None "png" = ([], Some e).
Proof.
  split; [reflexivity|].
  apply (normal_style_rejected pango_values example_extents eq_refl
           (Some "a.png") [65%N] None None (Some 32) None "png").
Defined.

Lemma lower_dot ext : lower ("." +:+ ext) = String "."%char (lower ext).
Proof. reflexivity. Qed.

Lemma generated_name_splitext t font weight_name style_name size lang ext :
  Text.has_char "."%char ext = false ->
  Text.has_char "/"%char ext = false ->
  (forall l, lang = Some l -> Text.has_char "/"%char l = false) ->
  exists stem,
    generated_name t font weight_name style_name size lang ext
    = stem +:+ "." +:+ ext /\
    splitext (stem +:+ "." +:+ ext) = (stem, "." +:+ ext).
Proof.
  intros Hdot Hslash Hlang.
  apply has_char_chars in Hdot. apply has_char_chars in Hslash.
  unfold generated_name.
  set (xs := [remove_spaces font] ++ (hex_lower <$> t)
             ++ option_list (given weight_name)
             ++ option_list (given style_name)).
  assert (Hl : [remove_spaces font] ++ (hex_lower <$> t)
               ++ option_list (given weight_name)
               ++ option_list (given style_name)
               ++ [pretty size] ++ option_list (given lang)
             = xs ++ [pretty size] ++ option_list (given lang)).
  { unfold xs. rewrite <- !app_assoc. reflexivity. }
  rewrite Hl.
  destruct (generated_stem xs size lang Hlang) as (pre & c & post & Hs & Hc & Hp).
  exists (of_chars (pre ++ c :: post)).
  rewrite Hs. split; [reflexivity|].
  apply splitext_stem_ext; assumption.
Qed.

(** X14 (create_image.py, render_text and create_img): the file name that
    [render_text] generates when it is given none keeps the requested type
    as its extension, provided the type holds no dot and no slash and the
    language code no slash.  So the image written under a generated name
    is a PNG exactly for the type [png] and an SVG exactly for the type
    [svg], letter case aside, and any other type makes [create_img] raise
    [ValueError] with nothing written. *)
Theorem generated_name_dispatch P pe t font weight_name style_name size lang
    ext params :
  Text.has_char "."%char ext = false ->
  Text.has_char "/"%char ext = false ->
  (forall l, lang = Some l -> Text.has_char "/"%char l = false) ->
  let name := generated_name t font weight_name style_name size lang ext in
  (splitext name).2 = "." +:+ ext /\
  (splitext name).1 +:+ "." +:+ ext = name /\
  create_img P pe t name params =
    if decide (lower ext = "png") then (create_png P pe t name params, None)
    else if decide (lower ext = "svg") then (create_svg P pe t name params, None)
    else ([], Some (PyValueError "")).
Proof.
  intros Hdot Hslash Hlang name.
  destruct (generated_name_splitext t font weight_name style_name size lang ext
              Hdot Hslash Hlang) as (stem & Hname & Hsplit).
  fold name in Hname. rewrite <- Hname in Hsplit.
  split; [rewrite Hsplit; reflexivity|].
  split; [rewrite Hsplit; symmetry; exact Hname|].
  assert (He : lower (splitext name).2 = String "."%char (lower ext)).
  { rewrite Hsplit. apply lower_dot. }
  destruct (decide (lower ext = "png")) as [Hp|Hp];
    [|destruct (decide (lower ext = "svg")) as [Hs|Hs]].
  - apply create_img_png. rewrite He, Hp. reflexivity.
  - apply create_img_svg. rewrite He, Hs. reflexivity.
  - apply create_img_other; rewrite He; intros [= Hc]; [now elim Hp|now elim Hs].
Qed.

Lemma generated_name_dispatch_witness :
  let name :=
    generated_name [2325%N; 65%N] "Noto Sans Devanagari" (Some "bold") None 32
      (Some "hi") "PNG" in
  name = "NotoSansDevanagari_915_41_bold_32_hi.PNG" /\
  create_img pango_values example_extents [2325%N; 65%N] name
    (draw_params "Noto Sans Devanagari" 700 0 (Some "hi") 32)
  = ([Print "writing NotoSansDevanagari_915_41_bold_32_hi.PNG";
      PngWritten "NotoSansDevanagari_915_41_bold_32_hi.PNG" 1370 47], None).
Proof.
  split; [vm_compute; reflexivity|].
  assert (Hl : forall l, Some "hi" = Some l -> Text.has_char "/"%char l = false)
    by (intros l [= <-]; reflexivity).
  destruct (generated_name_dispatch pango_values example_extents
              [2325%N; 65%N] "Noto Sans Devanagari" (Some "bold") None 32
              (Some "hi") "PNG"
              (draw_params "Noto Sans Devanagari" 700 0 (Some "hi") 32)
              eq_refl eq_refl Hl) as (_ & _ & Hc).
  rewrite Hc. vm_compute. reflexivity.
Defined.


End CreateImageFacts.
